(** * RAGCast: speaker-token normalization and segmentation

    A shallow embedding of

    - [data_old/process/normalize_and_extract.py]
      ([clean_whitespace], [extract_named_candidates], [normalize_token],
      the rewriting done by [normalize_file], [parse_segments] and the
      per-character aggregation loop of [extract_all]);
    - [data/process/segments_to_csv.py]
      ([normalize_token], [segments_from_text]).

    A Python [str] is a list of characters.  Characters are 7-bit ASCII
    (type [ascii]); on that range the classes below are the ones Python's
    [str.isspace], [str.upper], [str.title] and the [re] module's [\s], [\w],
    [\b] use.  The typographic apostrophe U+2019 of the name pattern lies
    outside this range and does not occur.

    Every regular expression of the source is compiled by hand into a
    function that says how many characters the pattern matches at the head
    of the remaining text (given the character before it, for [\b]); the
    drivers [re_sub], [re_split], [re_search] walk the text left to right,
    trying the pattern at each position and resuming after a match, as
    [re] does for patterns that match no empty string. *)

From Stdlib Require Import String Ascii Bool Arith NArith Lia List Permutation.
Import ListNotations.

Local Open Scope char_scope.
Local Open Scope list_scope.

(* ================================================================== *)
(** ** Python strings *)

Module PyStr.

Definition str := list ascii.

(** String literals. *)
Definition lit (s : string) : str := list_ascii_of_string s.

Definition code (c : ascii) : N := N_of_ascii c.

Definition in_range (lo hi : N) (c : ascii) : bool :=
  (lo <=? code c)%N && (code c <=? hi)%N.

Definition is_lower (c : ascii) : bool := in_range 97 122 c.
Definition is_upper (c : ascii) : bool := in_range 65 90 c.
Definition is_digit (c : ascii) : bool := in_range 48 57 c.
Definition is_alpha (c : ascii) : bool := is_lower c || is_upper c.

(** [\w]: letters, digits and the underscore. *)
Definition is_word (c : ascii) : bool :=
  is_alpha c || is_digit c || (c =? "_").

(** [str.isspace] and [\s]: TAB, LF, VT, FF, CR, FS, GS, RS, US, SPACE. *)
Definition is_space (c : ascii) : bool :=
  in_range 9 13 c || in_range 28 32 c.

Definition LF : ascii := ascii_of_N 10.
Definition CR : ascii := ascii_of_N 13.
Definition TAB : ascii := ascii_of_N 9.

Definition upper_char (c : ascii) : ascii :=
  if is_lower c then ascii_of_N (code c - 32) else c.
Definition lower_char (c : ascii) : ascii :=
  if is_upper c then ascii_of_N (code c + 32) else c.

(** [s.upper()] *)
Definition upper (s : str) : str := map upper_char s.

(** [s.title()]: a cased character is upper-cased when the character before
    it is not cased, and lower-cased otherwise. *)
Fixpoint title_from (prev_cased : bool) (s : str) : str :=
  match s with
  | [] => []
  | c :: r =>
      (if prev_cased then lower_char c else upper_char c)
        :: title_from (is_alpha c) r
  end.
Definition title (s : str) : str := title_from false s.

(** [s.lstrip()], [s.rstrip()], [s.strip()] *)
Fixpoint lstrip (s : str) : str :=
  match s with
  | [] => []
  | c :: r => if is_space c then lstrip r else s
  end.
Definition rstrip (s : str) : str := rev (lstrip (rev s)).
Definition strip (s : str) : str := rstrip (lstrip s).

(** Truth value of a string: [if s], [if not s]. *)
Definition nonempty (s : str) : bool :=
  match s with [] => false | _ => true end.

Fixpoint str_eqb (a b : str) : bool :=
  match a, b with
  | [], [] => true
  | x :: a', y :: b' => (x =? y) && str_eqb a' b'
  | _, _ => false
  end.

(** [x in l] for a list (or set literal) of strings. *)
Definition mem (x : str) (l : list str) : bool := existsb (str_eqb x) l.

(** [if x not in l: l.append(x)] *)
Definition append_new (l : list str) (x : str) : list str :=
  if mem x l then l else l ++ [x].

(** [sep.join(l)] *)
Fixpoint join (sep : str) (l : list str) : str :=
  match l with
  | [] => []
  | [x] => x
  | x :: r => x ++ sep ++ join sep r
  end.

(** [s.split(c)] for a one-character separator. *)
Fixpoint split_on (sep : ascii) (s : str) : list str :=
  match s with
  | [] => [[]]
  | c :: r =>
      if c =? sep then [] :: split_on sep r
      else match split_on sep r with
           | h :: t => (c :: h) :: t
           | [] => [[c]]
           end
  end.

Fixpoint starts_with (p s : str) : bool :=
  match p, s with
  | [], _ => true
  | x :: p', y :: s' => (x =? y) && starts_with p' s'
  | _ :: _, [] => false
  end.

(** [s.replace(old, new)] for a non-empty [old]: [skip] counts the characters
    of an occurrence of [old] still to be passed over. *)
Fixpoint replace_from (old new : str) (skip : nat) (s : str) : str :=
  match s with
  | [] => []
  | c :: r =>
      match skip with
      | S k => replace_from old new k r
      | O =>
          if starts_with old s
          then new ++ replace_from old new (length old - 1) r
          else c :: replace_from old new 0 r
      end
  end.
Definition replace (old new s : str) : str := replace_from old new 0 s.

(** [s[a:b]] for [0 <= a], [0 <= b]. *)
Definition slice (s : str) (a b : nat) : str := firstn (b - a) (skipn a s).

End PyStr.
Import PyStr.

(* ================================================================== *)
(** ** The [re] module *)

Module Re.

(** A compiled pattern: given the character before the current position
    (if any) and the text from the current position on, the length of the
    match that starts here, or [None].  All patterns of the program match
    at least one character. *)
Definition pattern := option ascii -> str -> option nat.

Definition is_word_opt (c : option ascii) : bool :=
  match c with Some c => is_word c | None => false end.

(** [\b] between two neighbouring positions. *)
Definition boundary (prev next : option ascii) : bool :=
  xorb (is_word_opt prev) (is_word_opt next).

(** Length of the longest prefix whose characters all satisfy [p]. *)
Fixpoint run_len (p : ascii -> bool) (s : str) : nat :=
  match s with
  | c :: r => if p c then S (run_len p r) else 0
  | [] => 0
  end.

(** [pat.sub(repl, s)] for a constant replacement. *)
Fixpoint sub_from (pat : pattern) (repl : str)
    (prev : option ascii) (skip : nat) (s : str) : str :=
  match s with
  | [] => []
  | c :: r =>
      match skip with
      | S k => sub_from pat repl (Some c) k r
      | O =>
          match pat prev s with
          | Some (S k) => repl ++ sub_from pat repl (Some c) k r
          | _ => c :: sub_from pat repl (Some c) 0 r
          end
      end
  end.
Definition re_sub (pat : pattern) (repl s : str) : str :=
  sub_from pat repl None 0 s.

Definition cons_head (c : ascii) (l : list str) : list str :=
  match l with
  | h :: t => (c :: h) :: t
  | [] => [[c]]
  end.

(** [pat.split(s)] for a pattern without groups. *)
Fixpoint split_from (pat : pattern)
    (prev : option ascii) (skip : nat) (s : str) : list str :=
  match s with
  | [] => [[]]
  | c :: r =>
      match skip with
      | S k => split_from pat (Some c) k r
      | O =>
          match pat prev s with
          | Some (S k) => [] :: split_from pat (Some c) k r
          | _ => cons_head c (split_from pat (Some c) 0 r)
          end
      end
  end.
Definition re_split (pat : pattern) (s : str) : list str :=
  split_from pat None 0 s.

(** [pat.search(s)]: start offset of the leftmost match. *)
Fixpoint search_from (pat : pattern)
    (pos : nat) (prev : option ascii) (s : str) : option nat :=
  match s with
  | [] => None
  | c :: r =>
      match pat prev s with
      | Some _ => Some pos
      | None => search_from pat (S pos) (Some c) r
      end
  end.
Definition re_search (pat : pattern) (s : str) : option nat :=
  search_from pat 0 None s.

(** A match object of a pattern with one group. *)
Record rmatch := { m_start : nat; m_end : nat; m_group1 : str }.

(** [list(pat.finditer(s))] for a pattern whose group 1 is everything
    between the first and the last matched character. *)
Fixpoint finditer_from (pat : pattern)
    (pos : nat) (prev : option ascii) (skip : nat) (s : str) : list rmatch :=
  match s with
  | [] => []
  | c :: r =>
      match skip with
      | S k => finditer_from pat (S pos) (Some c) k r
      | O =>
          match pat prev s with
          | Some (S k) =>
              {| m_start := pos; m_end := pos + S k;
                 m_group1 := firstn (k - 1) r |}
                :: finditer_from pat (S pos) (Some c) k r
          | _ => finditer_from pat (S pos) (Some c) 0 r
          end
      end
  end.

(** [matches[i + 1].start() if i + 1 < len(matches) else len(text)], where
    [rest] is [matches[i + 1:]]. *)
Definition next_start (text : str) (rest : list rmatch) : nat :=
  match rest with
  | m' :: _ => m_start m'
  | [] => length text
  end.

(** [pat.sub(f, s)] where [f] rebuilds the match from its group 1. *)
Fixpoint subf_from (pat : pattern) (f : str -> str)
    (prev : option ascii) (skip : nat) (s : str) : str :=
  match s with
  | [] => []
  | c :: r =>
      match skip with
      | S k => subf_from pat f (Some c) k r
      | O =>
          match pat prev s with
          | Some (S k) =>
              f (firstn (k - 1) r) ++ subf_from pat f (Some c) k r
          | _ => c :: subf_from pat f (Some c) 0 r
          end
      end
  end.

(** *** The patterns of the program *)

(** [\[([^\]]+)\]]: an opening bracket, the longest run of characters other
    than the closing bracket (at least one), and a closing bracket.  A
    shorter run never helps: the character after it is not a closing
    bracket. *)
Definition not_close (c : ascii) : bool := negb (c =? "]").
Definition SPEAKER_RE : pattern := fun _ s =>
  match s with
  | "[" :: r =>
      let n := run_len not_close r in
      match n, skipn n r with
      | S _, "]" :: _ => Some (n + 2)
      | _, _ => None
      end
  | _ => None
  end.

(** [[,/\\&]|\band\b] with [re.IGNORECASE]. *)
Definition is_sep_char (c : ascii) : bool :=
  (c =? ",") || (c =? "/") || (c =? "\") || (c =? "&").
Definition ci_eqb (c d : ascii) : bool := lower_char c =? lower_char d.
Definition and_word (prev : option ascii) (s : str) : bool :=
  match s with
  | a :: n :: d :: rest =>
      boundary prev (Some a)
      && ci_eqb a "a" && ci_eqb n "n" && ci_eqb d "d"
      && boundary (Some d) (hd_error rest)
  | _ => false
  end.
Definition SEP_RE : pattern := fun prev s =>
  match s with
  | c :: _ =>
      if is_sep_char c then Some 1
      else if and_word prev s then Some 3 else None
  | [] => None
  end.

(** [\(.*?\)]: an opening parenthesis and the shortest run of characters
    other than the line feed that is followed by a closing parenthesis. *)
Fixpoint lazy_close (s : str) : option nat :=
  match s with
  | [] => None
  | c :: r =>
      if c =? ")" then Some 0
      else if c =? LF then None
      else option_map S (lazy_close r)
  end.
Definition PAREN_RE : pattern := fun _ s =>
  match s with
  | "(" :: r => option_map (fun n => n + 2) (lazy_close r)
  | _ => None
  end.

(** [\b[a-z]{2,}\b]: the run of lower-case letters must start and end at a
    word boundary.  Only the longest run can end at one: inside the run
    both neighbours are letters. *)
Definition LOWER_WORD_RE : pattern := fun prev s =>
  let n := run_len is_lower s in
  if (2 <=? n)%nat
     && boundary prev (hd_error s)
     && boundary (nth_error s (n - 1)) (nth_error s n)
  then Some n else None.

(** The name pattern, used with [re.match]: a word [[A-Z0-9'\-]+] followed
    by any number of groups [\s+[A-Z0-9'\-]+], all greedy, that is, the
    longest prefix made of name words separated by runs of white space.
    [name_rest pending s] is the number of further characters the match
    extends over once a name character has been read and [pending]
    white-space characters have been read after it. *)
Definition is_name_char (c : ascii) : bool :=
  is_upper c || is_digit c || (c =? "'") || (c =? "-").
Fixpoint name_rest (pending : nat) (s : str) : nat :=
  match s with
  | [] => 0
  | c :: r =>
      if is_name_char c then pending + 1 + name_rest 0 r
      else if is_space c then name_rest (S pending) r
      else 0
  end.
(** Group 1 of [re.match] with the name pattern. *)
Definition name_match (s : str) : option str :=
  match s with
  | c :: r =>
      if is_name_char c then Some (firstn (1 + name_rest 0 r) s) else None
  | [] => None
  end.

(** [c{n,}] for a character class [c]: the longest run of [c], if it has at
    least [n] characters. *)
Definition run_pattern (p : ascii -> bool) (n : nat) : pattern := fun _ s =>
  let k := run_len p s in if (n <=? k)%nat then Some k else None.

(** [[ \t]{2,}] *)
Definition is_hspace (c : ascii) : bool := (c =? " ") || (c =? TAB).
Definition HSPACES_RE : pattern := run_pattern is_hspace 2.

(** [\n{3,}] *)
Definition is_nl (c : ascii) : bool := c =? LF.
Definition NEWLINES_RE : pattern := run_pattern is_nl 3.

(** [[&/|]] *)
Definition AMP_RE : pattern := fun _ s =>
  match s with
  | c :: _ => if (c =? "&") || (c =? "/") || (c =? "|") then Some 1 else None
  | [] => None
  end.

(** [\band\b] with [re.IGNORECASE] *)
Definition AND_RE : pattern := fun prev s =>
  if and_word prev s then Some 3 else None.

End Re.
Import Re.

#[global] Arguments SPEAKER_RE : simpl never.
#[global] Arguments SEP_RE : simpl never.
#[global] Arguments PAREN_RE : simpl never.
#[global] Arguments LOWER_WORD_RE : simpl never.
#[global] Arguments run_pattern : simpl never.
#[global] Arguments AMP_RE : simpl never.
#[global] Arguments AND_RE : simpl never.

(* ================================================================== *)
(** ** [data_old/process/normalize_and_extract.py] *)

Module NormalizeAndExtract.

(** [SPEAKER_RE.finditer(text)] *)
Definition finditer (text : str) : list rmatch :=
  finditer_from SPEAKER_RE 0 None 0 text.

Definition clean_whitespace (text : str) : str :=
  (* Normalize line endings *)
  let text := replace [CR] [LF] (replace [CR; LF] [LF] text) in
  (* Strip trailing spaces on each line *)
  let lines := map rstrip (split_on LF text) in
  (* Collapse multiple spaces to one inside lines *)
  let lines := map (re_sub HSPACES_RE [" "]) lines in
  let text := join [LF] lines in
  (* Collapse 3+ blank lines into two *)
  let text := re_sub NEWLINES_RE [LF; LF] text in
  (* Trim start/end *)
  strip text ++ [LF].

(** [re.sub(r"\(.*?\)", "", p).strip()] *)
Definition strip_parens (p : str) : str := strip (re_sub PAREN_RE [] p).

(** [low = re.search(r"\b[a-z]{2,}\b", p); if low: p = p[:low.start()].strip()] *)
Definition truncate_lower (p : str) : str :=
  match re_search LOWER_WORD_RE p with
  | Some k => strip (firstn k p)
  | None => p
  end.

Definition ALL : str := lit "ALL".
Definition BOTH : str := lit "BOTH".

(** Body of the inner loop of [extract_named_candidates]. *)
Definition candidate_part (names : list str) (p : str) : list str :=
  let p := strip_parens p in
  if negb (nonempty p) then names
  else
    let p := truncate_lower p in
    match name_match p with
    | Some g =>
        let cand := strip g in
        if nonempty cand && negb (mem cand names) then names ++ [cand]
        else names
    | None =>
        let up := upper (strip p) in
        if mem up [ALL; BOTH] then append_new names up else names
    end.

Definition extract_named_candidates (text : str) : list str :=
  fold_left
    (fun names m => fold_left candidate_part (re_split SEP_RE (m_group1 m)) names)
    (finditer text) [].

(** The [BOTH]/[ALL] branch: [for n in named_list: if n not in out_parts: ...] *)
Definition expand (named_list out_parts : list str) : list str :=
  fold_left append_new named_list out_parts.

(** What the loop of [normalize_token] computes from a part before it looks
    at [out_parts]: [None] when the part is skipped ([continue]), otherwise
    the string [up]. *)
Definition remainder (p : str) : option str :=
  let p0 := strip_parens p in
  if negb (nonempty p0) then None
  else
    (* if contains lowercase descriptor, truncate *)
    let p0 := truncate_lower p0 in
    if negb (nonempty p0) then None
    else Some (upper p0).

(** Body of the loop of [normalize_token]. *)
Definition normalize_part (named_list out_parts : list str) (p : str) : list str :=
  match remainder p with
  | None => out_parts
  | Some up =>
      if mem up [BOTH; ALL] then expand named_list out_parts
      else
        (* take uppercase name fragment at start *)
        match name_match up with
        | Some g => append_new out_parts (strip g)
        | None =>
            (* fallback: use the raw cleaned token *)
            let cand := strip up in
            if nonempty cand && negb (mem cand out_parts)
            then out_parts ++ [cand] else out_parts
        end
  end.

(** The list [out_parts] after the loop. *)
Definition out_parts_of (inner : str) (named_list : list str) : list str :=
  fold_left (normalize_part named_list) (re_split SEP_RE inner) [].

Definition normalize_token (inner : str) (named_list : list str) : str :=
  let out_parts := out_parts_of inner named_list in
  match out_parts with
  | [] => strip inner                 (* if not out_parts *)
  | _ => join (lit ", ") out_parts
  end.

(** [SPEAKER_RE.sub(repl, text)] with [repl] as in [normalize_file]. *)
Definition rewrite_tokens (named : list str) (text : str) : str :=
  subf_from SPEAKER_RE
    (fun inner => ["["] ++ normalize_token inner named ++ ["]"])
    None 0 text.

(** The text [normalize_file] writes back. *)
Definition normalize_text (text : str) : str :=
  let text := clean_whitespace text in
  let named := extract_named_candidates text in
  rewrite_tokens named text.

Definition NARRATION : str := lit "NARRATION".

Definition segment := (list str * str)%type.

(** The loop of [parse_segments] over [matches[i:]]. *)
Fixpoint segments_of (text : str) (matches : list rmatch) : list segment :=
  match matches with
  | [] => []
  | m :: rest =>
      let start := m_end m in
      let end_ := next_start text rest in
      let content := strip (slice text start end_) in
      let inner := m_group1 m in
      let parts := filter nonempty (map strip (split_on "," inner)) in
      (parts, content) :: segments_of text rest
  end.

Definition parse_segments (text : str) : list segment :=
  match finditer text with
  | [] =>
      let content := strip text in
      if nonempty content then [([NARRATION], content)] else []
  | matches => segments_of text matches
  end.

(** [by_char[key].append(content)] on a [defaultdict(list)], which keeps
    its keys in insertion order. *)
Fixpoint dict_append (key content : str) (d : list (str * list str))
    : list (str * list str) :=
  match d with
  | [] => [(key, [content])]
  | (k, v) :: r =>
      if str_eqb k key then (k, v ++ [content]) :: r
      else (k, v) :: dict_append key content r
  end.

(** Body of the loop [for speakers, content in segments]. *)
Definition by_char_step (by_char : list (str * list str)) (seg : segment)
    : list (str * list str) :=
  let '(speakers, content) := seg in
  if negb (nonempty content) then by_char
  else fold_left (fun d s => dict_append (title s) content d) speakers by_char.

(** The per-character aggregation of [extract_all] for one song. *)
Definition by_char_of (segments : list segment) : list (str * list str) :=
  fold_left by_char_step segments [].

(** The [(character, joined)] columns of the rows of one song. *)
Definition character_rows (segments : list segment) : list (str * str) :=
  map (fun kv => (fst kv, join [LF; LF] (snd kv))) (by_char_of segments).

End NormalizeAndExtract.

(* ================================================================== *)
(** ** [data/process/segments_to_csv.py] *)

Module SegmentsToCsv.

Definition finditer (text : str) : list rmatch :=
  finditer_from SPEAKER_RE 0 None 0 text.

Definition normalize_token (inner : str) : str :=
  let s := re_sub AMP_RE [","] inner in
  let s := re_sub AND_RE [","] s in
  let parts := filter nonempty (map strip (split_on "," s)) in
  join (lit ", ") parts.

Fixpoint segs_of (text : str) (matches : list rmatch) : list (str * str) :=
  match matches with
  | [] => []
  | m :: rest =>
      let inner := m_group1 m in
      let start := m_end m in
      let end_ := next_start text rest in
      let content := strip (slice text start end_) in
      let token := normalize_token inner in
      (token, content) :: segs_of text rest
  end.

Definition segments_from_text (text : str) : list (str * str) :=
  match finditer text with
  | [] =>
      let content := strip text in
      if nonempty content then [(lit "NARRATION", content)] else []
  | matches => segs_of text matches
  end.

End SegmentsToCsv.


(* ================================================================== *)
(** ** [normalize_file] and the files it touches *)

Module NormalizeFile.
Import NormalizeAndExtract.

(** The files of the lyrics directory: the content of every path that
    exists. *)
Definition files := str -> option str.

(** [path.write_text(content)] *)
Definition write_text (path content : str) (fs : files) : files :=
  fun q => if str_eqb q path then Some content else fs q.

(** [path.with_suffix(path.suffix + ".bak")]: the suffix of the file name is
    replaced by itself followed by [.bak]. *)
Definition bak_of (path : str) : str := path ++ lit ".bak".

(** [sum(1 for _ in SPEAKER_RE.finditer(text))] *)
Definition count_tokens (text : str) : nat := length (finditer text).

(** [abs(a - b)] for two counts. *)
Definition abs_diff (a b : nat) : nat := (a - b) + (b - a).

(** [normalize_file(path)]: [None] when [read_text] raises because the file
    is missing, otherwise the files afterwards and the number returned. *)
Definition normalize_file (path : str) (fs : files) : option (files * nat) :=
  match fs path with
  | None => None
  | Some text =>
      let orig := text in
      let text := clean_whitespace text in
      let named := extract_named_candidates text in
      let new_text := rewrite_tokens named text in
      (* Save backup if not present *)
      let bak := bak_of path in
      let fs := match fs bak with
                | None => write_text bak orig fs
                | Some _ => fs
                end in
      let fs := write_text path new_text fs in
      (* estimate tokens changed by comparing occurrences *)
      Some (fs, abs_diff (count_tokens orig) (count_tokens new_text))
  end.

End NormalizeFile.

(* ================================================================== *)
(** ** [data_old/process/scrape_lyrics.py] *)

Module ScrapeLyrics.

Definition DQUOTE : ascii := ascii_of_N 34.

(** The character class of the first substitution of [safe_filename]:
    backslash, slash, colon, asterisk, question mark, double quote, angle
    brackets and the vertical bar. *)
Definition is_forbidden (c : ascii) : bool :=
  (c =? "\") || (c =? "/") || (c =? ":") || (c =? "*") || (c =? "?")
  || (c =? DQUOTE) || (c =? "<") || (c =? ">") || (c =? "|").

Definition FORBIDDEN_RE : pattern := fun _ s =>
  match s with
  | c :: _ => if is_forbidden c then Some 1 else None
  | [] => None
  end.

(** [\s+] *)
Definition SPACES_RE : pattern := run_pattern is_space 1.

Definition safe_filename (s : str) : str :=
  let s := strip s in
  let s := re_sub FORBIDDEN_RE [] s in
  let s := re_sub SPACES_RE [" "] s in
  let s := replace [" "] ["_"] s in
  s.

(** The alternatives of the heading pattern, in the order of the pattern. *)
Definition HEADINGS : list str :=
  [lit "Song Overview"; lit "Song Credits"; lit "Song Meaning";
   lit "Song Meaning and Annotations"; lit "Song Overview and Annotations"].

(** [s] starts with [p], letter case apart. *)
Fixpoint starts_with_ci (p s : str) : bool :=
  match p, s with
  | [], _ => true
  | x :: p', y :: s' => ci_eqb x y && starts_with_ci p' s'
  | _ :: _, [] => false
  end.

(** The length of the first alternative that [s] starts with. *)
Fixpoint first_alt (alts : list str) (s : str) : option nat :=
  match alts with
  | [] => None
  | a :: r => if starts_with_ci a s then Some (length a) else first_alt r s
  end.

(** The pattern [split_regex]: a line feed and one of the headings, with
    [re.IGNORECASE]. *)
Definition HEADING_RE : pattern := fun _ s =>
  match s with
  | c :: r => if c =? LF then option_map S (first_alt HEADINGS r) else None
  | [] => None
  end.

Definition LAST_UPDATE : str := lit "Last Update:".
Definition not_nl (c : ascii) : bool := negb (c =? LF).

(** [Last Update:.*$] with [re.MULTILINE]: the words and the rest of the
    line; the end of the line is where the greedy run of characters other
    than the line feed stops. *)
Definition LAST_UPDATE_RE : pattern := fun _ s =>
  if starts_with LAST_UPDATE s
  then Some (length LAST_UPDATE + run_len not_nl (skipn (length LAST_UPDATE) s))
  else None.

(** The end of [extract_lyrics_from_song_page]: from the text [raw] of the
    lyrics block to the lyrics returned. *)
Definition lyrics_of_raw (raw : str) : str :=
  (* Remove trailing parts starting at common headings *)
  let raw := match re_search HEADING_RE raw with
             | Some k => firstn k raw
             | None => raw
             end in
  (* Also remove "Last Update" line if present *)
  let raw := re_sub LAST_UPDATE_RE [] raw in
  (* Collapse multiple blank lines to max two *)
  let raw := re_sub NEWLINES_RE [LF; LF] raw in
  strip raw.

(** [txt.stem.replace("_", " ")] in the two extraction scripts, [stem] being
    the file name without its suffix. *)
Definition song_of_stem (stem : str) : str := replace ["_"] [" "] stem.

End ScrapeLyrics.

#[global] Arguments ScrapeLyrics.FORBIDDEN_RE : simpl never.
#[global] Arguments ScrapeLyrics.HEADING_RE : simpl never.
#[global] Arguments ScrapeLyrics.LAST_UPDATE_RE : simpl never.

(* ================================================================== *)
(** ** [data_old/clean/split_and_stats.py] *)

Module SplitAndStats.

(** [i in test_idx] *)
Definition mem_nat (i : nat) (l : list nat) : bool := existsb (Nat.eqb i) l.

(** [[rows[i] for i in range(len(rows)) if keep(i)]] *)
Definition select {A : Type} (keep : nat -> bool) (rows : list A) : list A :=
  flat_map
    (fun i =>
       if keep i
       then match nth_error rows i with Some r => [r] | None => [] end
       else [])
    (seq 0 (length rows)).

(** The split of [main]: [indices] is [list(range(len(rows)))] after
    [random.shuffle], [test_count] the number
    [max(1, int(len(rows) * args.test_size))]. *)
Definition split_rows {A : Type}
    (rows : list A) (indices : list nat) (test_count : nat) : list A * list A :=
  let test_idx := firstn test_count indices in
  let train_rows := select (fun i => negb (mem_nat i test_idx)) rows in
  let test_rows := select (fun i => mem_nat i test_idx) rows in
  (train_rows, test_rows).

(** A row read by [csv.DictReader]: the field under every column name the
    file has. *)
Definition row := str -> option str.

(** A [Counter], its keys in insertion order. *)
Definition counter (K : Type) := list (K * nat).

(** [counter[key] += 1] *)
Fixpoint counter_add {K : Type} (eqb : K -> K -> bool) (key : K) (c : counter K)
    : counter K :=
  match c with
  | [] => [(key, 1)]
  | (k, n) :: r =>
      if eqb k key then (k, S n) :: r else (k, n) :: counter_add eqb key r
  end.

Definition pair_eqb (a b : str * str) : bool :=
  str_eqb (fst a) (fst b) && str_eqb (snd a) (snd b).

(** [len(txt.split())]: the number of maximal runs of characters other than
    white space. *)
Fixpoint count_words (in_word : bool) (s : str) : nat :=
  match s with
  | [] => 0
  | c :: r =>
      if is_space c then count_words false r
      else (if in_word then 0 else 1) + count_words true r
  end.

(** The counters and lists of [summarize]. *)
Record counts := {
  sagas : counter str;
  songs : counter (str * str);
  chars : counter str;
  chars_len : list nat;
  words_len : list nat
}.

(** Body of the loop of [summarize]; [None] when a subscript raises
    [KeyError]. *)
Definition summarize_step (st : counts) (r : row) : option counts :=
  match r (lit "saga"), r (lit "song"), r (lit "character") with
  | Some saga, Some song, Some character =>
      let txt := match r (lit "lines") with Some t => t | None => [] end in
      Some {| sagas := counter_add str_eqb saga (sagas st);
              songs := counter_add pair_eqb (saga, song) (songs st);
              chars := counter_add str_eqb character (chars st);
              chars_len := chars_len st ++ [length txt];
              words_len := words_len st ++ [count_words false txt] |}
  | _, _, _ => None
  end.

(** The loop of [summarize] from the state [st] on. *)
Fixpoint summarize_from (st : counts) (rows : list row) : option counts :=
  match rows with
  | [] => Some st
  | r :: rest =>
      match summarize_step st r with
      | Some st' => summarize_from st' rest
      | None => None
      end
  end.

(** The counters and lists [summarize] builds before it computes the
    statistics. *)
Definition summarize_counts (rows : list row) : option counts :=
  summarize_from
    {| sagas := []; songs := []; chars := []; chars_len := []; words_len := [] |}
    rows.

End SplitAndStats.


Import NormalizeAndExtract.

(* ================================================================== *)
(** ** Vocabulary of the specification *)

Module Spec.

(** The entries of [l], in order, without those in [seen] and without
    repetitions: what "append every entry, skipping any already present"
    adds to an output list holding [seen]. *)
Fixpoint fresh (seen l : list str) : list str :=
  match l with
  | [] => []
  | x :: r => if mem x seen then fresh seen r else x :: fresh (x :: seen) r
  end.

Definition last_opt (s : str) : option ascii :=
  match rev s with c :: _ => Some c | [] => None end.

(** A whole word of two or more lower-case letters starts at offset [k]. *)
Definition lower_word_starts (p : str) (k : nat) : Prop :=
  exists pre w post,
    p = pre ++ w ++ post /\ length pre = k /\ 2 <= length w /\
    forallb is_lower w = true /\
    is_word_opt (last_opt pre) = false /\
    is_word_opt (hd_error post) = false.

(** Offset of the first run of two or more lower-case letters, found by a
    character scan. *)
Fixpoint first_lower_run (pos : nat) (s : str) : option nat :=
  match s with
  | a :: r =>
      match r with
      | b :: _ =>
          if is_lower a && is_lower b then Some pos
          else first_lower_run (S pos) r
      | [] => None
      end
  | [] => None
  end.

Definition is_space_opt (c : option ascii) : bool :=
  match c with Some c => is_space c | None => false end.

(** A string that neither starts nor ends with white space. *)
Definition trimmed (s : str) : Prop :=
  is_space_opt (hd_error s) = false /\ is_space_opt (last_opt s) = false.

(** The untrimmed text after each annotation, up to the next annotation or
    the end of the text. *)
Fixpoint raw_spans (text : str) (matches : list rmatch) : list str :=
  match matches with
  | [] => []
  | m :: rest =>
      slice text (m_end m) (next_start text rest) :: raw_spans text rest
  end.

(** The bracketed annotations, each followed by the given text. *)
Fixpoint reassemble (matches : list rmatch) (texts : list str) : str :=
  match matches, texts with
  | m :: ms, t :: ts =>
      ["["] ++ m_group1 m ++ ["]"] ++ t ++ reassemble ms ts
  | _, _ => []
  end.

(** The annotations lie between [from] and [upto], in document order and
    without overlap; each spans its inner text and the two brackets. *)
Fixpoint in_order (from : nat) (matches : list rmatch) (upto : nat) : Prop :=
  match matches with
  | [] => from <= upto
  | m :: rest =>
      from <= m_start m /\
      m_start m + length (m_group1 m) + 2 = m_end m /\
      in_order (m_end m) rest upto
  end.

(** No run of characters of class [p] in [s] has [n] or more characters. *)
Fixpoint runs_below (p : ascii -> bool) (n : nat) (s : str) : Prop :=
  match s with
  | [] => True
  | _ :: r => run_len p s < n /\ runs_below p n r
  end.

(** No two neighbouring characters of [s] are related by [R]. *)
Fixpoint no_adj (R : ascii -> ascii -> bool) (s : str) : Prop :=
  match s with
  | a :: r =>
      match r with
      | b :: _ => R a b = false
      | [] => True
      end /\ no_adj R r
  | [] => True
  end.

(** White space other than the line feed, right before a line feed: what
    [rstrip] on every line removes. *)
Definition trailing_space (a b : ascii) : bool :=
  is_space a && negb (is_nl a) && is_nl b.

(** Every run of [n] or more characters of class [p] replaced by [repl]. *)
Definition rsub (p : ascii -> bool) (n : nat) (repl : str) : str -> str :=
  re_sub (run_pattern p n) repl.

(** The character, if any, is not of class [p]. *)
Definition not_p_opt (p : ascii -> bool) (c : option ascii) : Prop :=
  match c with Some c => p c = false | None => True end.

(** The last character is not white space, or is a line feed. *)
Definition ends_ok (s : str) : Prop :=
  match last_opt s with
  | Some c => is_space c = false \/ c = LF
  | None => True
  end.

(** What [clean_whitespace] returns, without the final line feed. *)
Definition clean_body (text : str) : str :=
  strip
    (re_sub NEWLINES_RE [LF; LF]
       (join [LF]
          (map (re_sub HSPACES_RE [" "])
             (map rstrip
                (split_on LF
                   (replace [CR] [LF] (replace [CR; LF] [LF] text))))))).

(** The texts that, followed by a line feed, [clean_whitespace] leaves as
    they are: no carriage return, no two neighbouring blanks or tabs, no
    three neighbouring line feeds, no other white space right before a line
    feed, no white space at either end. *)
Definition clean (body : str) : Prop :=
  Forall (fun c => c <> CR) body
  /\ runs_below is_hspace 2 body
  /\ runs_below is_nl 3 body
  /\ no_adj trailing_space body
  /\ trimmed body.

(** *** Texts cut into chunks

    A text read as a sequence of chunks, each of which a pattern either
    matches as a whole ([Hit]) or matches nowhere inside ([Quiet]). *)
Inductive kind := Quiet | Hit.
Definition chunk := (kind * str)%type.
Definition flatten (cs : list chunk) : str := concat (map snd cs).

(** The character before the position after [a], [prev] being the
    character before [a]. *)
Definition last_or (prev : option ascii) (a : str) : option ascii :=
  match last_opt a with Some c => Some c | None => prev end.

(** [pat] matches at no position of [x], read after [prev] and before
    [rest]. *)
Definition quiet (pat : pattern) (prev : option ascii) (x rest : str) : Prop :=
  forall a c b,
    x = a ++ c :: b ->
    match pat (last_or prev a) (c :: b ++ rest) with
    | Some (S _) => False
    | _ => True
    end.

(** [pat] matches exactly [m], read after [prev] and before [rest]. *)
Definition hit (pat : pattern) (prev : option ascii) (m rest : str) : Prop :=
  exists k, length m = S k /\ pat prev (m ++ rest) = Some (S k).

Fixpoint chunks_ok (pat : pattern) (prev : option ascii) (cs : list chunk) : Prop :=
  match cs with
  | [] => True
  | (Quiet, x) :: r =>
      quiet pat prev x (flatten r) /\ chunks_ok pat (last_or prev x) r
  | (Hit, m) :: r =>
      hit pat prev m (flatten r) /\ chunks_ok pat (last_or prev m) r
  end.

Definition prepend (x : str) (l : list str) : list str :=
  match l with
  | h :: t => (x ++ h) :: t
  | [] => [x]
  end.

(** The pieces between the hits. *)
Fixpoint split_chunks (cs : list chunk) : list str :=
  match cs with
  | [] => [[]]
  | (Quiet, x) :: r => prepend x (split_chunks r)
  | (Hit, _) :: r => [] :: split_chunks r
  end.

(** The text with every hit replaced by [repl]. *)
Fixpoint sub_chunks (repl : str) (cs : list chunk) : str :=
  match cs with
  | [] => []
  | (Quiet, x) :: r => x ++ sub_chunks repl r
  | (Hit, _) :: r => repl ++ sub_chunks repl r
  end.

(** *** Annotations made of names and separators *)

(** What may follow a name character inside a name: name characters, and
    single spaces each followed by a name character. *)
Fixpoint words_ok (s : str) : bool :=
  match s with
  | [] => true
  | c :: r =>
      if is_name_char c then words_ok r
      else (c =? " ")
           && match r with d :: _ => is_name_char d | [] => false end
           && words_ok r
  end.

(** Words of upper-case letters, digits, apostrophes and hyphens, separated
    by single spaces. *)
Definition is_name (s : str) : bool :=
  match s with
  | c :: r => is_name_char c && words_ok r
  | [] => false
  end.

(** A comma, a slash or an ampersand. *)
Definition is_char_core (m : str) : bool :=
  match m with
  | [c] => (c =? ",") || (c =? "/") || (c =? "&")
  | _ => false
  end.

(** The word "and", in any letter case. *)
Definition is_and_core (m : str) : bool :=
  match m with
  | [a; n; d] => ci_eqb a "a" && ci_eqb n "n" && ci_eqb d "d"
  | _ => false
  end.

(** [s] separates the names [a] and [b]: a comma, slash or ampersand with
    any white space around it, or the word "and" standing on its own, that
    is, with white space around it as well, or with no word character next
    to it: the white space before "and" may be missing when [a] ends with an
    apostrophe or a hyphen, and the white space after it when [b] starts
    with one. *)
Definition separates (a s b : str) : bool :=
  is_char_core (strip s)
  || (is_and_core (strip s)
      && (is_space_opt (hd_error s) || negb (is_word_opt (last_opt a)))
      && (is_space_opt (last_opt s) || negb (is_word_opt (hd_error b)))).

(** Every separator of [rest] separates the name before it from the name
    after it, [a] being the first name. *)
Fixpoint seps_ok (a : str) (rest : list (str * str)) : bool :=
  match rest with
  | [] => true
  | (s, b) :: r => separates a s b && seps_ok b r
  end.

(** The name does not hold "AND" as a word of its own. *)
Definition no_and_word (n : str) : bool :=
  match re_search AND_RE n with None => true | Some _ => false end.

(** A name that is neither a collective placeholder nor holds the word
    "AND". *)
Definition plain_name (n : str) : bool :=
  is_name n && no_and_word n && negb (mem n [BOTH; ALL]).

(** The inner text: a name, then separators each followed by a name. *)
Definition inner_of (n0 : str) (rest : list (str * str)) : str :=
  n0 ++ concat (map (fun sn => fst sn ++ snd sn) rest).

(** A separator cut into the white space before its core, the core and the
    white space after it, with the name that follows. *)
Definition item := (str * str * str * str)%type.

(** The item after the name [a]. *)
Definition item_ok (a : str) (it : item) : Prop :=
  let '(w1, m, w2, n) := it in
  forallb is_space w1 = true /\ forallb is_space w2 = true /\
  plain_name n = true /\
  (is_char_core m = true \/
   (is_and_core m = true /\
    (w1 <> [] \/ is_word_opt (last_opt a) = false) /\
    (w2 <> [] \/ is_word_opt (hd_error n) = false))).

Fixpoint items_ok (a : str) (items : list item) : Prop :=
  match items with
  | [] => True
  | it :: r => item_ok a it /\ items_ok (snd it) r
  end.

Definition item_text (it : item) : str * str :=
  let '(w1, m, w2, n) := it in (w1 ++ m ++ w2, n).

Definition item_chunks (kind_of : str -> kind) (it : item) : list chunk :=
  let '(w1, m, w2, n) := it in
  [(Quiet, w1); (kind_of m, m); (Quiet, w2); (Quiet, n)].

Definition chunks_of (kind_of : str -> kind) (n0 : str) (items : list item)
    : list chunk :=
  (Quiet, n0) :: flat_map (item_chunks kind_of) items.

Definition item_name (it : item) : str := snd it.

Definition all_hit (m : str) : kind := Hit.

(** The cores [re.sub(r"[&/|]", ",", inner)] replaces. *)
Definition is_amp_core (m : str) : bool :=
  match m with
  | [c] => (c =? "&") || (c =? "/")
  | _ => false
  end.
Definition amp_hit (m : str) : kind := if is_amp_core m then Hit else Quiet.
Definition and_hit (m : str) : kind := if is_and_core m then Hit else Quiet.

(** An item after a substitution that replaces the cores [kind_of] hits by
    a comma. *)
Definition comma_item (kind_of : str -> kind) (it : item) : item :=
  let '(w1, m, w2, n) := it in
  (w1, match kind_of m with Hit => [","] | Quiet => m end, w2, n).

(** The name [n] with white space around it. *)
Definition padded (n p : str) : Prop :=
  exists wa wb,
    p = wa ++ n ++ wb /\ forallb is_space wa = true /\ forallb is_space wb = true.

Definition any_sep (c : ascii) : bool :=
  (c =? ",") || (c =? "/") || (c =? "\") || (c =? "&") || (c =? "|").

(** A pattern that can only match at a separator character or at the word
    "and". *)
Definition tame (pat : pattern) : Prop :=
  forall prev s k,
    pat prev s = Some (S k) ->
    match s with c :: _ => any_sep c = true | [] => False end
    \/ and_word prev s = true.

(** The text contains a bracket-delimited annotation. *)
Definition has_annotation (text : str) : Prop :=
  exists pre inner post,
    text = pre ++ ["["] ++ inner ++ ["]"] ++ post /\
    inner <> [] /\ ~ In "]" inner.

(** Names used in the examples. *)
Definition ODYSSEUS : str := lit "ODYSSEUS".
Definition PENELOPE : str := lit "PENELOPE".
Definition HERMES : str := lit "HERMES".

(** A part is skipped by the loop of [normalize_token], or is a collective
    placeholder. *)
Definition skipped_or_placeholder (p : str) : Prop :=
  remainder p = None \/ remainder p = Some BOTH \/ remainder p = Some ALL.

End Spec.
Import Spec.

(* ================================================================== *)
(** ** Vocabulary of the further properties *)

Module Props.

(** [d.get(key)] on a dictionary kept in insertion order. *)
Fixpoint lookup (key : str) (d : list (str * list str)) : option (list str) :=
  match d with
  | [] => None
  | (k, v) :: r => if str_eqb k key then Some v else lookup key r
  end.

(** What a segment adds under [key]: a copy of its text for every one of
    its speakers whose title-cased name is [key], unless the text is
    empty. *)
Definition contribution (key : str) (seg : segment) : list str :=
  if nonempty (snd seg)
  then map (fun _ => snd seg) (filter (fun s => str_eqb (title s) key) (fst seg))
  else [].

Definition contributions (key : str) (segments : list segment) : list str :=
  flat_map (contribution key) segments.

(** The list under a key after more texts are appended to it. *)
Definition extend (old : option (list str)) (more : list str)
    : option (list str) :=
  match old, more with
  | None, [] => None
  | None, _ => Some more
  | Some v, _ => Some (v ++ more)
  end.

(** The entries of [rows] whose index, counted from [k], satisfies [keep]. *)
Fixpoint filter_from {A : Type} (keep : nat -> bool) (k : nat) (rows : list A)
    : list A :=
  match rows with
  | [] => []
  | x :: r =>
      if keep k then x :: filter_from keep (S k) r
      else filter_from keep (S k) r
  end.

(** A character other than the comma and the closing bracket. *)
Definition plain_char (c : ascii) : Prop := c <> "," /\ c <> "]".

(** A name an annotation can carry as one of several: not empty, without
    white space at either end, without comma and closing bracket. *)
Definition well_formed (x : str) : Prop :=
  x <> [] /\ trimmed x /\ Forall plain_char x.

(** The speakers [parse_segments] reads from the inner text of an
    annotation. *)
Definition speakers_of (inner : str) : list str :=
  filter nonempty (map strip (split_on "," inner)).

(** A text cut at its annotations by one pass over its characters: the text
    before the first annotation and, for every annotation, its inner text
    and the text after it, up to the next annotation.  [skip] counts the
    characters still owed to the last annotation. *)
Fixpoint pieces (skip : nat) (s : str) : str * list (str * str) :=
  match s with
  | [] => ([], [])
  | c :: r =>
      match skip with
      | S k => pieces k r
      | O =>
          match SPEAKER_RE None s with
          | Some (S k) =>
              ([], (firstn (k - 1) r, fst (pieces k r)) :: snd (pieces k r))
          | _ => (c :: fst (pieces 0 r), snd (pieces 0 r))
          end
      end
  end.

(** The segments of a text with the annotations [matches], each annotation
    read after its inner text is rewritten by [normalize_token]. *)
Fixpoint rewritten_segments (named : list str) (text : str)
    (matches : list rmatch) : list segment :=
  match matches with
  | [] => []
  | m :: rest =>
      (speakers_of (normalize_token (m_group1 m) named),
       strip (slice text (m_end m) (next_start text rest)))
        :: rewritten_segments named text rest
  end.


(** A field of a comma-separated token: not empty, without white space at
    either end, without comma. *)
Definition field (x : str) : Prop := x <> [] /\ trimmed x /\ ~ In "," x.

(** None of the characters the per-segment normalizer turns into commas. *)
Definition no_amp (c : ascii) : Prop := c <> "&" /\ c <> "/" /\ c <> "|".

(** The word "and" stands nowhere in [x] on its own, whatever is around
    [x], as long as no word character is next to [x]. *)
Definition calm (x : str) : Prop :=
  forall prev rest,
    is_word_opt prev = false -> is_word_opt (hd_error rest) = false ->
    quiet AND_RE prev x rest.

(** The text [w] occurs in the text [s]. *)
Definition occurs (w s : str) : Prop := exists a b, s = a ++ w ++ b.

(** The sum of the counts of a counter. *)
Definition total {K : Type} (c : SplitAndStats.counter K) : nat :=
  list_sum (map snd c).

(** A counter as [+= 1] builds it: no key twice, no count of zero. *)
Definition counted {K : Type} (c : SplitAndStats.counter K) : Prop :=
  NoDup (map fst c) /\ Forall (fun kv => 1 <= snd kv) c.


(** The state of the loop of [summarize] after [n] rows. *)
Definition consistent (st : SplitAndStats.counts) (n : nat) : Prop :=
  counted (SplitAndStats.sagas st) /\ counted (SplitAndStats.songs st)
  /\ counted (SplitAndStats.chars st)
  /\ total (SplitAndStats.sagas st) = n /\ total (SplitAndStats.songs st) = n
  /\ total (SplitAndStats.chars st) = n
  /\ length (SplitAndStats.chars_len st) = n
  /\ length (SplitAndStats.words_len st) = n
  /\ incl (map fst (SplitAndStats.sagas st))
        (map fst (map fst (SplitAndStats.songs st))).

End Props.
Import Props.

(* ================================================================== *)
(** ** Characters and strings *)

Lemma str_eqb_eq (a b : str) : str_eqb a b = true <-> a = b.
Proof.
  revert b; induction a as [|x a IH]; intros [|y b]; simpl;
    try (split; [discriminate | congruence]); try tauto.
  rewrite andb_true_iff, Ascii.eqb_eq, IH. split.
  - intros [-> ->]; reflexivity.
  - intros H; injection H; auto.
Qed.

Lemma str_eqb_refl (a : str) : str_eqb a a = true.
Proof. apply str_eqb_eq; reflexivity. Qed.

Lemma mem_In (x : str) (l : list str) : mem x l = true <-> In x l.
Proof.
  unfold mem. rewrite existsb_exists. split.
  - intros (y & Hy & E). apply str_eqb_eq in E. subst; assumption.
  - intros H. exists x. split; [assumption | apply str_eqb_refl].
Qed.

Lemma mem_false (x : str) (l : list str) : mem x l = false <-> ~ In x l.
Proof.
  rewrite <- mem_In. destruct (mem x l); split; congruence.
Qed.

Lemma mem_iff_ext (x : str) (l l' : list str) :
  (In x l <-> In x l') -> mem x l = mem x l'.
Proof.
  intros H. destruct (mem x l) eqn:E, (mem x l') eqn:E'; try reflexivity.
  - apply mem_In in E. apply H in E. apply mem_In in E. congruence.
  - apply mem_In in E'. apply H in E'. apply mem_In in E'. congruence.
Qed.

(* ================================================================== *)
(** ** Expansion of collective placeholders *)

Lemma fresh_ext (l seen seen' : list str) :
  (forall x, In x seen <-> In x seen') -> fresh seen l = fresh seen' l.
Proof.
  revert seen seen'; induction l as [|x l IH]; intros seen seen' H; simpl.
  - reflexivity.
  - rewrite (mem_iff_ext x seen seen' (H x)).
    destruct (mem x seen'); [apply IH; assumption |].
    f_equal. apply IH. intros y; simpl. rewrite H. tauto.
Qed.

Lemma expand_fresh (named out : list str) :
  expand named out = out ++ fresh out named.
Proof.
  unfold expand. revert out; induction named as [|x named IH]; intros out; simpl.
  - symmetry; apply app_nil_r.
  - unfold append_new at 2. destruct (mem x out) eqn:E.
    + apply IH.
    + rewrite IH, <- app_assoc. simpl. do 2 f_equal.
      apply fresh_ext. intros y. rewrite in_app_iff. simpl. tauto.
Qed.

Lemma fresh_NoDup_disjoint (named out : list str) :
  NoDup named -> (forall x, In x named -> ~ In x out) -> fresh out named = named.
Proof.
  revert out; induction named as [|x named IH]; intros out ND Hd; simpl.
  - reflexivity.
  - inversion ND as [|? ? Hx ND']; subst.
    assert (E : mem x out = false) by (apply mem_false, Hd; left; reflexivity).
    rewrite E. f_equal. apply IH; [assumption |].
    intros y Hy [<- | Hin]; [contradiction |].
    apply (Hd y); [right; assumption | assumption].
Qed.

Lemma fresh_In (named out : list str) (x : str) :
  In x (out ++ fresh out named) <-> In x out \/ In x named.
Proof.
  revert out; induction named as [|y named IH]; intros out; simpl.
  - rewrite app_nil_r. tauto.
  - destruct (mem y out) eqn:E.
    + rewrite IH. apply mem_In in E. split; [tauto |].
      intros [H | [<- | H]]; auto.
    + specialize (IH (y :: out)). simpl in IH.
      rewrite in_app_iff in IH. rewrite in_app_iff. simpl. tauto.
Qed.

(* ================================================================== *)
(** ** Token Normalizer: collective placeholders and the fallback *)

(** C2. A part whose remainder (parentheticals stripped, descriptor
    truncated, upper-cased) is "BOTH" or "ALL" makes [normalize_token]
    append to the output list the entries of the candidate list, in stored
    order, leaving out those already in the list; every candidate is in the
    list afterwards, and a duplicate-free candidate list disjoint from the
    output list is appended as it is.  With candidates ODYSSEUS, PENELOPE the
    inner text "BOTH" normalizes to "ODYSSEUS, PENELOPE". *)
Theorem C2_collective_expansion :
  forall (named out : list str) (p up : str),
    remainder p = Some up ->
    up = BOTH \/ up = ALL ->
    normalize_part named out p = out ++ fresh out named
    /\ (forall n, In n named -> In n (normalize_part named out p))
    /\ (NoDup named -> (forall n, In n named -> ~ In n out) ->
        normalize_part named out p = out ++ named)
    /\ normalize_token (lit "BOTH") [ODYSSEUS; PENELOPE]
       = lit "ODYSSEUS, PENELOPE".
Proof.
  intros named out p up Hr Hup.
  assert (E : normalize_part named out p = out ++ fresh out named).
  { unfold normalize_part. rewrite Hr.
    assert (M : mem up [BOTH; ALL] = true)
      by (apply mem_In; simpl; destruct Hup; subst; auto).
    rewrite M. apply expand_fresh. }
  split; [| split; [| split]].
  - exact E.
  - intros n Hn. rewrite E. apply fresh_In. right; exact Hn.
  - intros ND Hd. rewrite E. f_equal. apply fresh_NoDup_disjoint; assumption.
  - vm_compute. reflexivity.
Qed.

Lemma C2_collective_expansion_witness :
  remainder (lit "Both (softly)") = Some BOTH
  /\ normalize_part [ODYSSEUS; PENELOPE; ODYSSEUS] [PENELOPE] (lit "Both (softly)")
     = [PENELOPE] ++ fresh [PENELOPE] [ODYSSEUS; PENELOPE; ODYSSEUS].
Proof.
  assert (H : remainder (lit "Both (softly)") = Some BOTH) by reflexivity.
  split; [exact H |].
  exact (proj1 (C2_collective_expansion
                  [ODYSSEUS; PENELOPE; ODYSSEUS] [PENELOPE]
                  (lit "Both (softly)") BOTH H (or_introl eq_refl))).
Defined.

Lemma placeholders_leave_empty (parts : list str) :
  Forall skipped_or_placeholder parts ->
  fold_left (normalize_part []) parts [] = [].
Proof.
  induction 1 as [|p parts Hp _ IH]; simpl; [reflexivity |].
  replace (normalize_part [] [] p) with (@nil str); [exact IH |].
  unfold normalize_part.
  destruct Hp as [-> | [-> | ->]]; reflexivity.
Qed.

(** C3 (as the code has it). When the loop leaves the output list empty, in
    particular when every part is skipped or is a "BOTH"/"ALL" placeholder
    and there are no candidates, [normalize_token] returns the inner text
    with leading and trailing white space removed. *)
Theorem C3_empty_output_returns_trimmed_inner :
  forall (inner : str) (named : list str),
    out_parts_of inner named = [] \/
    (named = [] /\ Forall skipped_or_placeholder (re_split SEP_RE inner)) ->
    normalize_token inner named = strip inner.
Proof.
  intros inner named H.
  assert (E : out_parts_of inner named = []).
  { destruct H as [H | [-> H]]; [exact H |].
    apply placeholders_leave_empty; exact H. }
  unfold normalize_token. rewrite E. reflexivity.
Qed.

Lemma C3_empty_output_returns_trimmed_inner_witness :
  (out_parts_of (lit " BOTH ") [] = [] \/
   ([] = @nil str /\ Forall skipped_or_placeholder (re_split SEP_RE (lit " BOTH "))))
  /\ normalize_token (lit " BOTH ") [] = strip (lit " BOTH ").
Proof.
  assert (H : out_parts_of (lit " BOTH ") [] = [] \/
              ([] = @nil str /\
               Forall skipped_or_placeholder (re_split SEP_RE (lit " BOTH ")))).
  { right. split; [reflexivity |].
    constructor; [| constructor]. right; left; reflexivity. }
  split; [exact H |].
  exact (C3_empty_output_returns_trimmed_inner (lit " BOTH ") [] H).
Defined.

(** C3 as stated fails: for the annotation "[ whispering ]" the output list
    stays empty and the result is the trimmed "whispering", not the
    untrimmed inner text. *)
Lemma C3_untrimmed_counterexample :
  out_parts_of (lit " whispering ") [] = []
  /\ normalize_token (lit " whispering ") [] = lit "whispering"
  /\ normalize_token (lit " whispering ") [] <> lit " whispering ".
Proof. repeat split; vm_compute; congruence. Qed.

(* ================================================================== *)
(** ** The documented example *)

(** C7. On "[ODYSSEUS, spoken] Hello\n[HERMES giggles] Hi there" the
    candidates are ODYSSEUS and HERMES, the annotations are rewritten to
    "[ODYSSEUS]" and "[HERMES]", and [segments_from_text] of the rewritten
    text gives ("ODYSSEUS", "Hello"), ("HERMES", "Hi there"); the same holds
    when the text first goes through [clean_whitespace], as in
    [normalize_file]. *)
Theorem C7_documented_example :
  let text := lit "[ODYSSEUS, spoken] Hello" ++ [LF]
              ++ lit "[HERMES giggles] Hi there" in
  let named := extract_named_candidates text in
  named = [ODYSSEUS; HERMES]
  /\ map (fun m => normalize_token (m_group1 m) named) (finditer text)
     = [ODYSSEUS; HERMES]
  /\ rewrite_tokens named text
     = lit "[ODYSSEUS] Hello" ++ [LF] ++ lit "[HERMES] Hi there"
  /\ SegmentsToCsv.segments_from_text (rewrite_tokens named text)
     = [(ODYSSEUS, lit "Hello"); (HERMES, lit "Hi there")]
  /\ SegmentsToCsv.segments_from_text (normalize_text text)
     = [(ODYSSEUS, lit "Hello"); (HERMES, lit "Hi there")].
Proof. repeat split; vm_compute; reflexivity. Qed.

(** The Extractor stores a placeholder it meets among the candidates, so in
    a document that holds "[BOTH]" the placeholder expands into itself as
    well. *)
Example placeholder_among_candidates :
  let text := lit "[ODYSSEUS] a [PENELOPE] b [BOTH] c" in
  extract_named_candidates text = [ODYSSEUS; PENELOPE; BOTH]
  /\ normalize_text text
     = lit "[ODYSSEUS] a [PENELOPE] b [ODYSSEUS, PENELOPE, BOTH] c" ++ [LF].
Proof. split; vm_compute; reflexivity. Qed.

(* ================================================================== *)
(** ** Runs, searches and the lower-case descriptor *)

Lemma is_lower_word (c : ascii) : is_lower c = true -> is_word c = true.
Proof. unfold is_word, is_alpha. intros ->. reflexivity. Qed.

Lemma not_word_not_lower (c : option ascii) :
  is_word_opt c = false ->
  match c with Some c => is_lower c = false | None => True end.
Proof.
  destruct c as [c|]; simpl; [| trivial].
  destruct (is_lower c) eqn:E; [| reflexivity].
  rewrite (is_lower_word c E). discriminate.
Qed.

Lemma last_opt_snoc (s : str) (c : ascii) : last_opt (s ++ [c]) = Some c.
Proof. unfold last_opt. rewrite rev_app_distr. reflexivity. Qed.

Lemma hd_error_skipn (s : str) (n : nat) : hd_error (skipn n s) = nth_error s n.
Proof.
  revert s; induction n as [|n IH]; intros [|c s]; simpl; auto.
Qed.

Lemma run_len_le (p : ascii -> bool) (s : str) : run_len p s <= length s.
Proof.
  induction s as [|c s IH]; simpl; [lia |]. destruct (p c); simpl; lia.
Qed.

Lemma run_len_firstn (p : ascii -> bool) (s : str) :
  forallb p (firstn (run_len p s) s) = true.
Proof.
  induction s as [|c s IH]; simpl; [reflexivity |].
  destruct (p c) eqn:E; simpl; [rewrite E; exact IH | reflexivity].
Qed.

Lemma run_len_nth (p : ascii -> bool) (s : str) (i : nat) :
  i < run_len p s -> exists c, nth_error s i = Some c /\ p c = true.
Proof.
  revert i; induction s as [|c s IH]; intros i; simpl; [lia |].
  destruct (p c) eqn:E; [| lia].
  destruct i as [|i]; simpl; [exists c; auto |].
  intros H. apply IH. lia.
Qed.

Lemma run_len_stop (p : ascii -> bool) (s : str) :
  match nth_error s (run_len p s) with
  | Some c => p c = false
  | None => True
  end.
Proof.
  induction s as [|c s IH]; simpl; [trivial |].
  destruct (p c) eqn:E; simpl; [exact IH | exact E].
Qed.

Lemma run_len_app (p : ascii -> bool) (w post : str) :
  forallb p w = true ->
  match hd_error post with Some c => p c = false | None => True end ->
  run_len p (w ++ post) = length w.
Proof.
  intros Hw Hp. induction w as [|c w IH]; simpl in *.
  - destruct post as [|d post]; simpl in *; [reflexivity |]. rewrite Hp. reflexivity.
  - apply andb_true_iff in Hw as [-> Hw]. f_equal. apply IH; exact Hw.
Qed.

(** [re_search] finds the leftmost position at which the pattern matches. *)
Lemma search_from_spec (pat : pattern) (s done : str) :
  (forall prev, pat prev [] = None) ->
  match search_from pat (length done) (last_opt done) s with
  | Some k =>
      exists mid rest,
        s = mid ++ rest /\ k = length (done ++ mid) /\
        pat (last_opt (done ++ mid)) rest <> None /\
        forall mid' rest',
          s = mid' ++ rest' -> length mid' < length mid ->
          pat (last_opt (done ++ mid')) rest' = None
  | None =>
      forall mid rest, s = mid ++ rest -> pat (last_opt (done ++ mid)) rest = None
  end.
Proof.
  intros Hnil. revert done; induction s as [|c r IH]; intros done; simpl.
  - intros mid rest E. symmetry in E. apply app_eq_nil in E as [-> ->]. apply Hnil.
  - destruct (pat (last_opt done) (c :: r)) eqn:Ep.
    + exists [], (c :: r). rewrite app_nil_r. repeat split; try congruence.
      simpl. intros; lia.
    + specialize (IH (done ++ [c])).
      rewrite last_opt_snoc, length_app in IH. simpl in IH.
      replace (length done + 1) with (S (length done)) in IH by lia.
      destruct (search_from pat (S (length done)) (Some c) r) as [k|].
      * destruct IH as (mid & rest & -> & -> & Hm & Hmin).
        exists (c :: mid), rest. rewrite <- app_assoc in *. simpl in *.
        repeat split; try assumption.
        intros [|c' mid'] rest' E Hlt.
        -- simpl in E. subst rest'. rewrite app_nil_r. exact Ep.
        -- simpl in E. injection E as <- E.
           specialize (Hmin mid' rest' E). rewrite <- app_assoc in Hmin.
           apply Hmin. simpl in Hlt. lia.
      * intros [|c' mid'] rest E.
        -- simpl in E. subst rest. rewrite app_nil_r. exact Ep.
        -- simpl in E. injection E as <- E.
           specialize (IH mid' rest E). rewrite <- app_assoc in IH. exact IH.
Qed.

Lemma LOWER_WORD_RE_nil (prev : option ascii) : LOWER_WORD_RE prev [] = None.
Proof. reflexivity. Qed.

Lemma LOWER_WORD_RE_intro (prev : option ascii) (w post : str) :
  2 <= length w ->
  forallb is_lower w = true ->
  is_word_opt prev = false ->
  is_word_opt (hd_error post) = false ->
  LOWER_WORD_RE prev (w ++ post) = Some (length w).
Proof.
  intros Hlen Hw Hprev Hpost. unfold LOWER_WORD_RE.
  rewrite (run_len_app is_lower w post Hw (not_word_not_lower _ Hpost)).
  assert (H1 : (2 <=? length w)%nat = true) by (apply Nat.leb_le; exact Hlen).
  assert (Hnth : forall i, i < length w ->
            is_word_opt (nth_error (w ++ post) i) = true).
  { intros i Hi. rewrite nth_error_app1 by exact Hi.
    destruct (nth_error w i) as [c|] eqn:E.
    - simpl. apply is_lower_word.
      rewrite forallb_forall in Hw. apply Hw. eapply nth_error_In; exact E.
    - apply nth_error_None in E. lia. }
  assert (H2 : boundary prev (hd_error (w ++ post)) = true).
  { unfold boundary. rewrite Hprev.
    replace (hd_error (w ++ post)) with (nth_error (w ++ post) 0)
      by (destruct (w ++ post); reflexivity).
    rewrite Hnth by lia. reflexivity. }
  assert (H3 : boundary (nth_error (w ++ post) (length w - 1))
                        (nth_error (w ++ post) (length w)) = true).
  { unfold boundary. rewrite Hnth by lia.
    rewrite nth_error_app2 by lia. rewrite Nat.sub_diag.
    replace (nth_error post 0) with (hd_error post) by (destruct post; reflexivity).
    rewrite Hpost. reflexivity. }
  rewrite H1, H2, H3. reflexivity.
Qed.

Lemma LOWER_WORD_RE_elim (prev : option ascii) (s : str) (n : nat) :
  LOWER_WORD_RE prev s = Some n ->
  2 <= n /\ n <= length s /\
  forallb is_lower (firstn n s) = true /\
  is_word_opt prev = false /\
  is_word_opt (hd_error (skipn n s)) = false.
Proof.
  unfold LOWER_WORD_RE.
  destruct (_ && _ && _) eqn:C; [| discriminate].
  apply andb_true_iff in C as [C H3]. apply andb_true_iff in C as [H1 H2].
  intros E; injection E as <-. apply Nat.leb_le in H1.
  destruct (run_len_nth is_lower s 0 ltac:(lia)) as (c0 & E0 & L0).
  destruct (run_len_nth is_lower s (run_len is_lower s - 1) ltac:(lia))
    as (c1 & E1 & L1).
  repeat split.
  - exact H1.
  - apply run_len_le.
  - apply run_len_firstn.
  - unfold boundary in H2.
    replace (hd_error s) with (nth_error s 0) in H2 by (destruct s; reflexivity).
    rewrite E0 in H2. simpl in H2. rewrite (is_lower_word c0 L0) in H2.
    destruct (is_word_opt prev); [discriminate | reflexivity].
  - rewrite hd_error_skipn. unfold boundary in H3.
    rewrite E1 in H3. simpl in H3. rewrite (is_lower_word c1 L1) in H3.
    destruct (is_word_opt (nth_error s (run_len is_lower s)));
      [discriminate | reflexivity].
Qed.

Lemma lower_word_starts_match (pre rest : str) :
  LOWER_WORD_RE (last_opt pre) rest <> None <->
  exists w post,
    rest = w ++ post /\ 2 <= length w /\ forallb is_lower w = true /\
    is_word_opt (last_opt pre) = false /\ is_word_opt (hd_error post) = false.
Proof.
  split.
  - destruct (LOWER_WORD_RE (last_opt pre) rest) as [n|] eqn:E; [| congruence].
    intros _. apply LOWER_WORD_RE_elim in E as (H2 & Hle & Hw & Hp & Hq).
    exists (firstn n rest), (skipn n rest).
    rewrite firstn_skipn, length_firstn.
    repeat split; try assumption. lia.
  - intros (w & post & -> & H2 & Hw & Hp & Hq).
    rewrite (LOWER_WORD_RE_intro _ w post H2 Hw Hp Hq). discriminate.
Qed.

(** C4 (as the code has it). In both [extract_named_candidates] and
    [normalize_token] the part, parentheticals stripped and trimmed, goes
    through [truncate_lower].  If a whole word of two or more lower-case
    letters (a run delimited by word boundaries) occurs in it, the part is
    cut at the start of the first such word and the kept text is trimmed;
    otherwise the part is left as it is. *)
Theorem C4_truncation_at_first_lowercase_word :
  forall p : str,
    match re_search LOWER_WORD_RE p with
    | Some k =>
        lower_word_starts p k
        /\ (forall j, j < k -> ~ lower_word_starts p j)
        /\ truncate_lower p = strip (firstn k p)
    | None =>
        (forall j, ~ lower_word_starts p j)
        /\ truncate_lower p = p
    end.
Proof.
  intros p. unfold truncate_lower, re_search.
  pose proof (search_from_spec LOWER_WORD_RE p [] LOWER_WORD_RE_nil) as H.
  simpl in H. change (last_opt []) with (@None ascii) in H.
  destruct (search_from LOWER_WORD_RE 0 None p) as [k|].
  - destruct H as (mid & rest & E & -> & Hm & Hmin). simpl in *.
    apply (lower_word_starts_match mid rest) in Hm.
    destruct Hm as (w & post & -> & H2 & Hw & Hp & Hq).
    split; [| split].
    + exists mid, w, post. repeat split; assumption.
    + intros j Hj (pre' & w' & post' & E' & <- & H2' & Hw' & Hp' & Hq').
      assert (N : LOWER_WORD_RE (last_opt pre') (w' ++ post') <> None)
        by (apply lower_word_starts_match; exists w', post'; auto).
      apply N. apply Hmin; [congruence | exact Hj].
    + reflexivity.
  - split; [| reflexivity].
    intros j (pre' & w' & post' & E' & <- & H2' & Hw' & Hp' & Hq').
    assert (N : LOWER_WORD_RE (last_opt pre') (w' ++ post') <> None)
      by (apply lower_word_starts_match; exists w', post'; auto).
    apply N. apply H. exact E'.
Qed.

(** C4 as stated fails: "Hermes" holds the run "ermes" of lower-case
    letters at offset 1 but is not cut there ("H"); it is left whole and
    normalizes to HERMES. *)
Lemma C4_lowercase_run_counterexample :
  first_lower_run 0 (lit "Hermes") = Some 1
  /\ strip_parens (lit "Hermes") = lit "Hermes"
  /\ truncate_lower (lit "Hermes") = lit "Hermes"
  /\ truncate_lower (lit "Hermes") <> firstn 1 (lit "Hermes")
  /\ normalize_token (lit "Hermes") [] = HERMES
  /\ extract_named_candidates (lit "[Hermes]") = [lit "H"].
Proof. repeat split; vm_compute; congruence. Qed.

(* ================================================================== *)
(** ** Trimming *)

Lemma lstrip_nil_iff (s : str) : lstrip s = [] <-> forallb is_space s = true.
Proof.
  induction s as [|c s IH]; simpl; [tauto |].
  destruct (is_space c); simpl; [exact IH |]. split; discriminate.
Qed.

Lemma lstrip_decomp (s : str) :
  exists ws, s = ws ++ lstrip s /\ forallb is_space ws = true.
Proof.
  induction s as [|c s (ws & E & H)]; simpl.
  - exists []; auto.
  - destruct (is_space c) eqn:Ec.
    + exists (c :: ws). simpl. rewrite Ec, H, <- E. auto.
    + exists []. auto.
Qed.

Lemma lstrip_head (s : str) :
  match hd_error (lstrip s) with Some c => is_space c = false | None => True end.
Proof.
  induction s as [|c s IH]; simpl; [trivial |].
  destruct (is_space c) eqn:Ec; [exact IH | exact Ec].
Qed.

Lemma lstrip_spaces (ws s : str) :
  forallb is_space ws = true -> lstrip (ws ++ s) = lstrip s.
Proof.
  induction ws as [|c ws IH]; simpl; [reflexivity |].
  intros H. apply andb_true_iff in H as [-> H]. apply IH, H.
Qed.

Lemma lstrip_fix (s : str) :
  match hd_error s with Some c => is_space c = false | None => True end ->
  lstrip s = s.
Proof. destruct s as [|c s]; simpl; [reflexivity |]. intros ->. reflexivity. Qed.

Lemma lstrip_idem (s : str) : lstrip (lstrip s) = lstrip s.
Proof. apply lstrip_fix, lstrip_head. Qed.

(** [lstrip] keeps the last character of what it leaves. *)
Lemma lstrip_last (s : str) :
  lstrip s <> [] -> last_opt (lstrip s) = last_opt s.
Proof.
  destruct (lstrip_decomp s) as (ws & E & _). intros N.
  rewrite E at 2. unfold last_opt. rewrite rev_app_distr.
  destruct (rev (lstrip s)) eqn:R; [| reflexivity].
  apply (f_equal (@rev ascii)) in R. rewrite rev_involutive in R. contradiction.
Qed.

Lemma hd_error_rev (s : str) : hd_error (rev s) = last_opt s.
Proof. unfold last_opt. destruct (rev s); reflexivity. Qed.

Lemma last_opt_rev (s : str) : last_opt (rev s) = hd_error s.
Proof. unfold last_opt. rewrite rev_involutive. destruct s; reflexivity. Qed.

Lemma is_space_opt_hd (s : str) :
  is_space_opt (hd_error s) = false <->
  match hd_error s with Some c => is_space c = false | None => True end.
Proof. destruct s; simpl; tauto. Qed.

Lemma rstrip_fix (s : str) : is_space_opt (last_opt s) = false -> rstrip s = s.
Proof.
  intros H. unfold rstrip. rewrite lstrip_fix; [apply rev_involutive |].
  apply is_space_opt_hd. rewrite hd_error_rev. exact H.
Qed.

Lemma rstrip_last (s : str) : is_space_opt (last_opt (rstrip s)) = false.
Proof.
  unfold rstrip. rewrite last_opt_rev. apply is_space_opt_hd, lstrip_head.
Qed.

Lemma rstrip_idem (s : str) : rstrip (rstrip s) = rstrip s.
Proof. apply rstrip_fix, rstrip_last. Qed.

Lemma rstrip_decomp (s : str) :
  exists ws, s = rstrip s ++ ws /\ forallb is_space ws = true.
Proof.
  destruct (lstrip_decomp (rev s)) as (ws & E & H).
  exists (rev ws). split.
  - unfold rstrip. rewrite <- rev_app_distr, <- E. symmetry; apply rev_involutive.
  - rewrite forallb_forall in *. intros x Hx. apply H, in_rev, Hx.
Qed.

Lemma rstrip_hd (s : str) :
  is_space_opt (hd_error s) = false ->
  is_space_opt (hd_error (rstrip s)) = false.
Proof.
  intros H. unfold rstrip. rewrite hd_error_rev.
  destruct (lstrip (rev s)) eqn:E; [reflexivity |].
  rewrite <- E. rewrite lstrip_last by congruence.
  rewrite last_opt_rev. exact H.
Qed.

Lemma strip_trimmed (s : str) : trimmed (strip s).
Proof.
  split.
  - apply rstrip_hd. apply is_space_opt_hd, lstrip_head.
  - apply rstrip_last.
Qed.

Lemma strip_fix (s : str) : trimmed s -> strip s = s.
Proof.
  intros [H1 H2]. unfold strip.
  rewrite (lstrip_fix s) by (apply is_space_opt_hd; exact H1).
  apply rstrip_fix, H2.
Qed.

Lemma strip_idem (s : str) : strip (strip s) = strip s.
Proof. apply strip_fix, strip_trimmed. Qed.

Lemma strip_nil_iff (s : str) : strip s = [] <-> forallb is_space s = true.
Proof.
  split.
  - intros H. apply lstrip_nil_iff.
    destruct (rstrip_decomp (lstrip s)) as (ws & E & Hws).
    fold (strip s) in E. rewrite H in E. simpl in E.
    destruct (lstrip s) as [|c r] eqn:L; [reflexivity |].
    pose proof (lstrip_head s) as Hh. rewrite L in Hh. simpl in Hh.
    rewrite <- E in Hws. simpl in Hws. rewrite Hh in Hws. discriminate.
  - intros H. apply lstrip_nil_iff in H. unfold strip. rewrite H. reflexivity.
Qed.

Lemma nonempty_false (s : str) : nonempty s = false <-> s = [].
Proof. destruct s; simpl; split; congruence. Qed.

Lemma nonempty_true (s : str) : nonempty s = true <-> s <> [].
Proof. destruct s; simpl; split; congruence. Qed.

(* ================================================================== *)
(** ** Speaker-Token Scanner *)

Lemma SPEAKER_RE_elim (prev : option ascii) (s : str) (n : nat) :
  SPEAKER_RE prev s = Some n ->
  exists inner post,
    s = ["["] ++ inner ++ ["]"] ++ post /\ n = length inner + 2 /\
    inner <> [] /\ forallb not_close inner = true.
Proof.
  unfold SPEAKER_RE. destruct s as [|c r]; [discriminate |].
  destruct c as [[] [] [] [] [] [] [] []]; try discriminate.
  pose proof (run_len_le not_close r) as Hle.
  pose proof (run_len_firstn not_close r) as Hall.
  pose proof (firstn_skipn (run_len not_close r) r) as F.
  cbv zeta.
  destruct (run_len not_close r) as [|k]; [discriminate |].
  destruct (skipn (S k) r) as [|d post]; [discriminate |].
  destruct d as [[] [] [] [] [] [] [] []]; try discriminate.
  intros E; injection E as <-.
  exists (firstn (S k) r), post. repeat split.
  - simpl. f_equal. symmetry. exact F.
  - rewrite length_firstn. lia.
  - destruct r; simpl in *; [lia | congruence].
  - exact Hall.
Qed.

Lemma SPEAKER_RE_intro (prev : option ascii) (inner post : str) :
  inner <> [] -> forallb not_close inner = true ->
  SPEAKER_RE prev (["["] ++ inner ++ ["]"] ++ post) = Some (length inner + 2).
Proof.
  intros Hne Hall. unfold SPEAKER_RE. cbn -[run_len skipn length Nat.add].
  assert (R : run_len not_close (inner ++ "]" :: post) = length inner)
    by (apply run_len_app; [exact Hall | reflexivity]).
  assert (Sk : skipn (length inner) (inner ++ "]" :: post) = "]" :: post).
  { rewrite skipn_app, skipn_all, Nat.sub_diag. reflexivity. }
  rewrite R. destruct (length inner) as [|n0] eqn:L.
  - destruct inner; [congruence | discriminate].
  - rewrite Sk. reflexivity.
Qed.

Lemma not_close_forall (inner : str) :
  forallb not_close inner = true <-> ~ In "]" inner.
Proof.
  rewrite forallb_forall. unfold not_close. split.
  - intros H Hin. specialize (H _ Hin). discriminate.
  - intros H x Hx. destruct (Ascii.eqb_spec x "]"); [subst; contradiction | reflexivity].
Qed.

Lemma has_annotation_cons (c : ascii) (s : str) :
  has_annotation s -> has_annotation (c :: s).
Proof.
  intros (pre & inner & post & -> & H). exists (c :: pre), inner, post. auto.
Qed.

Lemma finditer_has_annotation (s : str) (pos : nat) (prev : option ascii) (skip : nat) :
  finditer_from SPEAKER_RE pos prev skip s <> [] -> has_annotation s.
Proof.
  revert pos prev skip; induction s as [|c r IH]; intros pos prev skip; simpl.
  - congruence.
  - destruct skip as [|k].
    + destruct (SPEAKER_RE prev (c :: r)) as [[|k]|] eqn:E.
      * intros H. apply has_annotation_cons. eapply IH; exact H.
      * intros _. apply SPEAKER_RE_elim in E as (inner & post & E & _ & Hne & Hall).
        exists [], inner, post. rewrite not_close_forall in Hall. auto.
      * intros H. apply has_annotation_cons. eapply IH; exact H.
    + intros H. apply has_annotation_cons. eapply IH; exact H.
Qed.

Lemma has_annotation_finditer (s : str) (pos : nat) (prev : option ascii) :
  has_annotation s -> finditer_from SPEAKER_RE pos prev 0 s <> [].
Proof.
  intros (pre & inner & post & -> & Hne & Hall).
  apply not_close_forall in Hall.
  revert pos prev; induction pre as [|c pre IH]; intros pos prev.
  - change ([] ++ ["["] ++ inner ++ ["]"] ++ post)
      with ("[" :: (inner ++ ["]"] ++ post)).
    cbn [finditer_from].
    change ("[" :: (inner ++ ["]"] ++ post))
      with (["["] ++ inner ++ ["]"] ++ post).
    rewrite (SPEAKER_RE_intro prev inner post Hne Hall).
    replace (length inner + 2) with (S (S (length inner))) by lia. discriminate.
  - change ((c :: pre) ++ ["["] ++ inner ++ ["]"] ++ post)
      with (c :: (pre ++ ["["] ++ inner ++ ["]"] ++ post)).
    cbn [finditer_from].
    destruct (SPEAKER_RE prev _) as [[|k]|]; try discriminate; apply IH.
Qed.

(** The Scanner finds a match exactly when the text holds an annotation. *)
Lemma finditer_nil_iff (text : str) :
  finditer text = [] <-> ~ has_annotation text.
Proof.
  split.
  - intros E H. apply (has_annotation_finditer text 0 None) in H. exact (H E).
  - intros H. destruct (finditer text) eqn:E; [reflexivity |].
    exfalso. apply H. apply (finditer_has_annotation text 0 None 0).
    unfold finditer in E. rewrite E. discriminate.
Qed.

(** C8. A text without bracket annotation that is not empty after trimming
    gives one segment, attributed to NARRATION, holding the trimmed text (in
    [parse_segments] and in [segments_from_text]); a text that is empty or
    all white space gives no segment. *)
Theorem C8_narration_segment :
  forall text : str,
    ~ has_annotation text ->
    (strip text <> [] ->
       parse_segments text = [([NARRATION], strip text)]
       /\ SegmentsToCsv.segments_from_text text = [(NARRATION, strip text)])
    /\ (forallb is_space text = true ->
       parse_segments text = []
       /\ SegmentsToCsv.segments_from_text text = [])
    /\ (strip text <> [] \/ forallb is_space text = true).
Proof.
  intros text H. apply finditer_nil_iff in H.
  unfold parse_segments, SegmentsToCsv.segments_from_text.
  change (SegmentsToCsv.finditer text) with (finditer text). rewrite H.
  split; [| split].
  - intros N. apply nonempty_true in N. rewrite N. split; reflexivity.
  - intros A. apply strip_nil_iff in A. rewrite A. split; reflexivity.
  - destruct (strip text) eqn:E.
    + right. apply strip_nil_iff, E.
    + left. discriminate.
Qed.

Lemma C8_narration_segment_witness :
  ~ has_annotation (lit "  Once upon [a time " ++ [LF])
  /\ parse_segments (lit "  Once upon [a time " ++ [LF])
     = [([NARRATION], strip (lit "  Once upon [a time " ++ [LF]))].
Proof.
  assert (H : ~ has_annotation (lit "  Once upon [a time " ++ [LF]))
    by (apply finditer_nil_iff; reflexivity).
  assert (N : strip (lit "  Once upon [a time " ++ [LF]) <> [])
    by (vm_compute; discriminate).
  split; [exact H |].
  exact (proj1 (proj1 (C8_narration_segment _ H) N)).
Defined.

(* ================================================================== *)
(** ** Segmenter *)

Lemma slice_after (done s : str) (k n : nat) :
  slice (done ++ s) (length done + k) n
  = firstn (n - (length done + k)) (skipn k s).
Proof.
  unfold slice. f_equal. rewrite skipn_app.
  rewrite skipn_all2 by lia. simpl. f_equal. lia.
Qed.

Lemma in_order_weaken (from from' : nat) (ms : list rmatch) (upto : nat) :
  from' <= from -> in_order from ms upto -> in_order from' ms upto.
Proof.
  destruct ms as [|m ms]; simpl; [lia |]. intros H (H1 & H2 & H3).
  repeat split; try assumption. lia.
Qed.

Lemma in_order_next_start (from : nat) (ms : list rmatch) (text : str) :
  in_order from ms (length text) -> from <= next_start text ms.
Proof. destruct ms as [|m ms]; simpl; tauto. Qed.

Lemma in_order_upto (from : nat) (ms : list rmatch) (upto : nat) :
  in_order from ms upto -> from <= upto.
Proof.
  revert from; induction ms as [|m ms IH]; intros from; simpl; [tauto |].
  intros (H1 & H2 & H3). specialize (IH _ H3). lia.
Qed.

Lemma slice_step (done : str) (c : ascii) (r : str) (n : nat) :
  length done < n ->
  slice (done ++ c :: r) (length done) n
  = c :: slice (done ++ c :: r) (S (length done)) n.
Proof.
  intros H.
  rewrite <- (Nat.add_0_r (length done)) at 1. rewrite slice_after.
  replace (S (length done)) with (length done + 1) by lia. rewrite slice_after.
  replace (n - (length done + 0)) with (S (n - (length done + 1))) by lia.
  reflexivity.
Qed.

(** The matches of the Scanner on the rest [s] of a text, [done] being the
    part already read: they are in order, and the rest after the [skip]
    characters still owed to the previous match is the text up to the first
    of them followed by the annotations and the spans after them. *)
Lemma finditer_from_reassemble (s done : str) (prev : option ascii) (skip : nat) :
  skip <= length s ->
  let text := done ++ s in
  let ms := finditer_from SPEAKER_RE (length done) prev skip s in
  in_order (length done + skip) ms (length text)
  /\ slice text (length done + skip) (next_start text ms)
       ++ reassemble ms (raw_spans text ms)
     = skipn skip s.
Proof.
  revert done prev skip; induction s as [|c r IH]; intros done prev skip Hs.
  - simpl in Hs. assert (skip = 0) by lia. subst skip. simpl.
    rewrite length_app. simpl. split; [lia |].
    rewrite app_nil_r. unfold slice. rewrite Nat.sub_diag. reflexivity.
  - assert (Et : (done ++ [c]) ++ r = done ++ c :: r)
      by (rewrite <- app_assoc; reflexivity).
    assert (El : length (done ++ [c]) = S (length done))
      by (rewrite length_app; simpl; lia).
    destruct skip as [|k].
    + cbn [finditer_from].
      destruct (SPEAKER_RE prev (c :: r)) as [[|k]|] eqn:E.
      * apply SPEAKER_RE_elim in E as (? & ? & _ & E & _). lia.
      * apply SPEAKER_RE_elim in E as (inner & post & E & Ek & Hne & Hall).
        simpl in E. injection E as -> ->.
        assert (k = S (length inner)) by lia. subst k. clear Ek.
        specialize (IH (done ++ ["["]) (Some "[") (S (length inner))).
        rewrite Et, El in IH. cbv zeta in IH.
        destruct IH as (O & R).
        { rewrite length_app. simpl. lia. }
        assert (G : firstn (S (length inner) - 1) (inner ++ "]" :: post) = inner).
        { replace (S (length inner) - 1) with (length inner + 0) by lia.
          rewrite firstn_app_2. simpl. apply app_nil_r. }
        assert (Sk : skipn (S (length inner)) (inner ++ "]" :: post) = post).
        { rewrite skipn_app, skipn_all2 by lia.
          replace (S (length inner) - length inner) with 1 by lia. reflexivity. }
        rewrite Sk in R.
        cbv zeta. rewrite G.
        cbn [in_order raw_spans reassemble m_end m_group1 m_start next_start skipn].
        replace (S (length done) + S (length inner))
          with (length done + S (S (length inner))) in * by lia.
        split.
        -- repeat split; try lia. exact O.
        -- rewrite R. unfold slice.
           replace (length done - (length done + 0)) with 0 by lia.
           reflexivity.
      * specialize (IH (done ++ [c]) (Some c) 0). rewrite Et, El in IH.
        cbv zeta in IH. destruct IH as (O & R); [lia |].
        cbv zeta. split.
        -- eapply in_order_weaken; [| exact O]. lia.
        -- pose proof (in_order_next_start _ _ _ O) as Hn.
           set (ms := finditer_from SPEAKER_RE (S (length done)) (Some c) 0 r) in *.
           rewrite Nat.add_0_r in *. simpl skipn in *.
           rewrite slice_step by lia. simpl. rewrite R. reflexivity.
    + cbn [finditer_from].
      specialize (IH (done ++ [c]) (Some c) k). rewrite Et, El in IH.
      cbv zeta in IH. simpl in Hs. destruct IH as (O & R); [lia |].
      cbv zeta.
      replace (length done + S k) with (S (length done) + k) by lia.
      split; [exact O | exact R].
Qed.

Lemma segments_of_texts (text : str) (ms : list rmatch) :
  map snd (segments_of text ms) = map strip (raw_spans text ms).
Proof.
  induction ms as [|m ms IH]; simpl; [reflexivity |]. rewrite IH. reflexivity.
Qed.

Lemma segs_of_texts (text : str) (ms : list rmatch) :
  map snd (SegmentsToCsv.segs_of text ms) = map strip (raw_spans text ms).
Proof.
  induction ms as [|m ms IH]; simpl; [reflexivity |]. rewrite IH. reflexivity.
Qed.

Lemma parse_segments_matches (text : str) :
  finditer text <> [] -> parse_segments text = segments_of text (finditer text).
Proof.
  unfold parse_segments. destruct (finditer text); [congruence | reflexivity].
Qed.

Lemma text_reassembled (text : str) :
  in_order 0 (finditer text) (length text)
  /\ text = slice text 0 (next_start text (finditer text))
            ++ reassemble (finditer text) (raw_spans text (finditer text)).
Proof.
  pose proof (finditer_from_reassemble text [] None 0 ltac:(lia)) as H.
  simpl in H. destruct H as (O & R). split; [exact O | symmetry; exact R].
Qed.

(** C1 (as the code has it). In the rewritten text the annotations found
    by the Scanner are in document order and do not overlap, and neither do
    the spans between them; the text is the part before the first
    annotation followed by each bracketed annotation and the untrimmed span
    after it, and the text of each segment is that span with leading and
    trailing white space removed.  The text before the first annotation
    belongs to no segment. *)
Theorem C1_segments_partition_rewritten_text :
  forall T : str,
    let text := normalize_text T in
    let ms := finditer text in
    in_order 0 ms (length text)
    /\ text = slice text 0 (next_start text ms)
              ++ reassemble ms (raw_spans text ms)
    /\ (ms <> [] ->
        map snd (parse_segments text) = map strip (raw_spans text ms))
    /\ length (raw_spans text ms) = length ms.
Proof.
  intros T text ms.
  destruct (text_reassembled text) as (O & R).
  split; [exact O |]. split; [exact R |]. split.
  - intros N. rewrite (parse_segments_matches text N). apply segments_of_texts.
  - clear. induction ms; simpl; congruence.
Qed.

(** C1 as stated fails: for "intro [A] hello" the rewritten text is
    "intro [A] hello\n", the only segment is "hello", and the annotation
    followed by the segment text is "[A]hello", not the text. *)
Lemma C1_reconstruction_counterexample :
  let text := normalize_text (lit "intro [A] hello") in
  text = lit "intro [A] hello" ++ [LF]
  /\ parse_segments text = [([lit "A"], lit "hello")]
  /\ reassemble (finditer text) (map snd (parse_segments text)) = lit "[A]hello"
  /\ reassemble (finditer text) (map snd (parse_segments text)) <> text.
Proof. repeat split; vm_compute; congruence. Qed.

(* ================================================================== *)
(** ** Aggregator *)

Lemma parse_segments_trimmed (text : str) :
  Forall (fun seg : segment => strip (snd seg) = snd seg) (parse_segments text).
Proof.
  unfold parse_segments. destruct (finditer text) as [|m ms].
  - destruct (nonempty (strip text)); constructor; [apply strip_idem | constructor].
  - generalize (m :: ms). intros l. induction l as [|x l IH]; simpl; constructor.
    + apply strip_idem.
    + exact IH.
Qed.

Lemma per_segment_texts (text : str) :
  map snd (SegmentsToCsv.segments_from_text text) = map snd (parse_segments text).
Proof.
  unfold SegmentsToCsv.segments_from_text, parse_segments.
  change (SegmentsToCsv.finditer text) with (finditer text).
  destruct (finditer text) as [|m ms].
  - destruct (nonempty (strip text)); reflexivity.
  - rewrite segs_of_texts, segments_of_texts. reflexivity.
Qed.

Lemma fold_left_skip_filter (segs : list segment) (d : list (str * list str)) :
  fold_left by_char_step (filter (fun seg => nonempty (snd seg)) segs) d
  = fold_left by_char_step segs d.
Proof.
  revert d; induction segs as [|[sp ct] segs IH]; intros d; simpl; [reflexivity |].
  destruct (nonempty ct) eqn:E; simpl; rewrite ?E; simpl; apply IH.
Qed.

Lemma filter_trimmed_nonempty (segs : list segment) :
  Forall (fun seg : segment => strip (snd seg) = snd seg) segs ->
  filter (fun seg => nonempty (strip (snd seg))) segs
  = filter (fun seg => nonempty (snd seg)) segs.
Proof.
  induction 1 as [|x l Hx _ IH]; simpl; [reflexivity |].
  rewrite Hx, IH. reflexivity.
Qed.

Lemma dict_append_keys (key content : str) (d : list (str * list str)) (k : str) :
  In k (map fst (dict_append key content d)) -> k = key \/ In k (map fst d).
Proof.
  induction d as [|[k' v] d IH]; simpl.
  - intros [<- | []]. left; reflexivity.
  - destruct (str_eqb k' key); simpl; [tauto |].
    intros [<- | H]; [tauto |]. apply IH in H. tauto.
Qed.

Lemma speakers_fold_keys (content : str) (speakers : list str)
    (d : list (str * list str)) (k : str) :
  In k (map fst (fold_left (fun d s => dict_append (title s) content d) speakers d)) ->
  In k (map title speakers) \/ In k (map fst d).
Proof.
  revert d; induction speakers as [|s speakers IH]; intros d; simpl; [tauto |].
  intros H. apply IH in H as [H | H]; [tauto |].
  apply dict_append_keys in H as [-> | H]; tauto.
Qed.

(** Every key of [by_char] is the title-cased name of a speaker of a segment
    with non-empty text. *)
Lemma by_char_keys (segs : list segment) (d : list (str * list str)) (k : str) :
  In k (map fst (fold_left by_char_step segs d)) ->
  In k (map fst d) \/
  exists speakers content,
    In (speakers, content) segs /\ content <> [] /\ In k (map title speakers).
Proof.
  revert d; induction segs as [|[sp ct] segs IH]; intros d; simpl; [tauto |].
  intros H. apply IH in H as [H | (sp' & ct' & Hin & Hne & Hk)].
  - destruct (nonempty ct) eqn:E; simpl in H; [| tauto].
    apply speakers_fold_keys in H as [H | H]; [| tauto].
    right. exists sp, ct. repeat split; auto. apply nonempty_true, E.
  - right. exists sp', ct'. auto.
Qed.

(** C9. For every segment list whose texts are trimmed, as those of
    [parse_segments] are: the per-character aggregation gives the same rows
    as on the list without the segments whose text is empty after trimming,
    and gives no row to a character all of whose segments are empty after
    trimming; per-segment mode has one record for each segment of a text,
    the empty ones included. *)
Theorem C9_empty_segments_per_mode :
  forall segs : list segment,
    Forall (fun seg : segment => strip (snd seg) = snd seg) segs ->
    character_rows segs
      = character_rows (filter (fun seg => nonempty (strip (snd seg))) segs)
    /\ (forall ch,
          (forall speakers content,
             In (speakers, content) segs -> In ch (map title speakers) ->
             strip content = []) ->
          ~ In ch (map fst (character_rows segs)))
    /\ (forall text,
          parse_segments text = segs ->
          map snd (SegmentsToCsv.segments_from_text text) = map snd segs
          /\ length (SegmentsToCsv.segments_from_text text) = length segs).
Proof.
  intros segs T. split; [| split].
  - unfold character_rows, by_char_of.
    rewrite (filter_trimmed_nonempty segs T), fold_left_skip_filter. reflexivity.
  - intros ch Hall Hin. unfold character_rows, by_char_of in Hin.
    rewrite map_map in Hin. simpl in Hin.
    apply by_char_keys in Hin as [[] | (sp & ct & Hseg & Hne & Hk)].
    specialize (Hall sp ct Hseg Hk).
    rewrite Forall_forall in T. specialize (T _ Hseg). simpl in T. congruence.
  - intros text <-. pose proof (per_segment_texts text) as E. split; [exact E |].
    apply (f_equal (@length str)) in E. rewrite !length_map in E. exact E.
Qed.

Lemma C9_empty_segments_per_mode_witness :
  let text := lit "[ZEUS][ATHENA] Hi" in
  Forall (fun seg : segment => strip (snd seg) = snd seg) (parse_segments text)
  /\ character_rows (parse_segments text)
     = character_rows
         (filter (fun seg => nonempty (strip (snd seg))) (parse_segments text)).
Proof.
  intros text.
  assert (T : Forall (fun seg : segment => strip (snd seg) = snd seg)
                (parse_segments text)) by (vm_compute; repeat constructor).
  split; [exact T |].
  exact (proj1 (C9_empty_segments_per_mode (parse_segments text) T)).
Defined.

(** An annotation with nothing after it: no per-character row, one
    per-segment record. *)
Example empty_segment_per_mode :
  let text := lit "[ZEUS][ATHENA & ODYSSEUS] Hi" in
  parse_segments text
    = [([lit "ZEUS"], []); ([lit "ATHENA & ODYSSEUS"], lit "Hi")]
  /\ character_rows (parse_segments text) = [(lit "Athena & Odysseus", lit "Hi")]
  /\ SegmentsToCsv.segments_from_text text
    = [(lit "ZEUS", []); (lit "ATHENA, ODYSSEUS", lit "Hi")].
Proof. repeat split; vm_compute; reflexivity. Qed.

(* ================================================================== *)
(** ** Substitution of runs *)

Section RunSub.

Variables (p : ascii -> bool) (n : nat) (repl : str).

Local Abbreviation rsub := (Spec.rsub p n repl).
Local Abbreviation not_p_opt := (Spec.not_p_opt p).

Lemma sub_from_prev (prev prev' : option ascii) (skip : nat) (s : str) :
  sub_from (run_pattern p n) repl prev skip s
  = sub_from (run_pattern p n) repl prev' skip s.
Proof.
  revert prev prev' skip; induction s as [|c r IH]; intros prev prev' skip.
  - reflexivity.
  - destruct skip as [|k]; cbn [sub_from]; [| apply IH].
    change (run_pattern p n prev (c :: r)) with (run_pattern p n prev' (c :: r)).
    reflexivity.
Qed.

Lemma sub_from_skip (a b : str) (prev : option ascii) :
  sub_from (run_pattern p n) repl prev (length a) (a ++ b) = rsub b.
Proof.
  revert prev; induction a as [|c a IH]; intros prev; simpl.
  - destruct b; [reflexivity | apply sub_from_prev].
  - apply IH.
Qed.

Lemma rsub_cons_nomatch (c : ascii) (r : str) :
  run_len p (c :: r) < n -> rsub (c :: r) = c :: rsub r.
Proof.
  intros H. unfold rsub, re_sub. cbn [sub_from]. unfold run_pattern at 1.
  cbv zeta. apply Nat.leb_gt in H. rewrite H.
  f_equal. apply sub_from_prev.
Qed.

Lemma rsub_cons_other (c : ascii) (r : str) :
  1 <= n -> p c = false -> rsub (c :: r) = c :: rsub r.
Proof. intros Hn H. apply rsub_cons_nomatch. simpl. rewrite H. lia. Qed.

Lemma rsub_short_run (w rest : str) :
  forallb p w = true -> length w < n -> not_p_opt (hd_error rest) ->
  rsub (w ++ rest) = w ++ rsub rest.
Proof.
  intros Hw Hlen Hrest. induction w as [|c w IH]; [reflexivity |].
  change ((c :: w) ++ rest) with (c :: (w ++ rest)).
  rewrite rsub_cons_nomatch.
  - simpl in *. apply andb_true_iff in Hw as [_ Hw].
    rewrite IH by (assumption || lia). reflexivity.
  - change (c :: (w ++ rest)) with ((c :: w) ++ rest).
    rewrite (run_len_app p (c :: w) rest Hw Hrest). exact Hlen.
Qed.

Lemma rsub_long_run (w rest : str) :
  1 <= n ->
  forallb p w = true -> n <= length w -> not_p_opt (hd_error rest) ->
  rsub (w ++ rest) = repl ++ rsub rest.
Proof.
  intros Hn Hw Hlen Hrest.
  pose proof (run_len_app p w rest Hw Hrest) as R.
  destruct w as [|c w]; [simpl in Hlen; lia |].
  unfold rsub at 1. unfold re_sub. cbn [app sub_from].
  unfold run_pattern at 1. cbv zeta.
  change (c :: (w ++ rest)) with ((c :: w) ++ rest). rewrite R.
  apply Nat.leb_le in Hlen. rewrite Hlen. cbn [length].
  rewrite sub_from_skip. reflexivity.
Qed.

(** Induction over a text cut into runs of [p] and the characters between
    them. *)
Lemma run_ind (P : str -> Prop) :
  P [] ->
  (forall c r, p c = false -> P r -> P (c :: r)) ->
  (forall w rest,
     w <> [] -> forallb p w = true -> not_p_opt (hd_error rest) ->
     P rest -> P (w ++ rest)) ->
  forall s, P s.
Proof using Type.
  intros Hnil Hother Hrun s.
  remember (length s) as len eqn:El.
  revert s El; induction len as [len IH] using lt_wf_ind; intros s El.
  destruct s as [|c r]; [exact Hnil |].
  destruct (p c) eqn:Ec.
  - pose proof (firstn_skipn (run_len p (c :: r)) (c :: r)) as F.
    pose proof (run_len_firstn p (c :: r)) as A.
    pose proof (run_len_stop p (c :: r)) as St.
    pose proof (run_len_le p (c :: r)) as Le.
    rewrite <- hd_error_skipn in St.
    assert (Hk : 1 <= run_len p (c :: r)) by (simpl; rewrite Ec; lia).
    rewrite <- F. apply Hrun.
    + destruct (run_len p (c :: r)); [lia | discriminate].
    + exact A.
    + exact St.
    + apply (IH (length (skipn (run_len p (c :: r)) (c :: r)))); [| reflexivity].
      rewrite length_skipn. subst len. lia.
  - apply Hother; [exact Ec |].
    apply (IH (length r)); [subst len; simpl; lia | reflexivity].
Qed.

Lemma run_len_app_le (a b : str) : run_len p a <= run_len p (a ++ b).
Proof.
  induction a as [|c a IH]; simpl; [lia |]. destruct (p c); lia.
Qed.

Lemma runs_below_app_r (a b : str) : runs_below p n (a ++ b) -> runs_below p n b.
Proof.
  induction a as [|c a IH]; simpl; [tauto |]. intros [_ H]. exact (IH H).
Qed.

Lemma runs_below_app_l (a b : str) : runs_below p n (a ++ b) -> runs_below p n a.
Proof.
  induction a as [|c a IH]; [simpl; tauto |].
  change ((c :: a) ++ b) with (c :: (a ++ b)). cbn [runs_below].
  intros [H1 H2]. split; [| exact (IH H2)].
  pose proof (run_len_app_le (c :: a) b) as L.
  change ((c :: a) ++ b) with (c :: (a ++ b)) in L. lia.
Qed.

(** A run shorter than [n] before a text without long runs that does not
    start with [p]. *)
Lemma runs_below_run (w x : str) :
  forallb p w = true -> length w < n -> not_p_opt (hd_error x) ->
  runs_below p n x -> runs_below p n (w ++ x).
Proof.
  intros Hw Hlen Hx Hr. induction w as [|c w IH]; [exact Hr |].
  change ((c :: w) ++ x) with (c :: (w ++ x)). cbn [runs_below]. split.
  - change (c :: (w ++ x)) with ((c :: w) ++ x).
    rewrite (run_len_app p (c :: w) x Hw Hx). exact Hlen.
  - simpl in *. apply andb_true_iff in Hw as [_ Hw]. apply IH; [exact Hw | lia].
Qed.

Lemma runs_below_other (c : ascii) (x : str) :
  1 <= n -> p c = false -> runs_below p n x -> runs_below p n (c :: x).
Proof. intros Hn H Hx. simpl. rewrite H. split; [lia | exact Hx]. Qed.

Lemma hd_rsub_not_p (s : str) :
  1 <= n -> not_p_opt (hd_error s) -> not_p_opt (hd_error (rsub s)).
Proof.
  intros Hn. destruct s as [|c r]; simpl; [trivial |].
  intros H. rewrite rsub_cons_other by assumption. exact H.
Qed.

(** After the substitution no run has [n] or more characters. *)
Lemma rsub_runs_below (s : str) :
  forallb p repl = true -> length repl < n -> runs_below p n (rsub s).
Proof.
  intros Hrepl Hlen. assert (Hn : 1 <= n) by lia.
  induction s as [| c r Hc IH | w rest Hne Hw Hrest IH] using run_ind.
  - exact I.
  - rewrite rsub_cons_other by assumption. apply runs_below_other; assumption.
  - destruct (Nat.lt_ge_cases (length w) n) as [Hs | Hl].
    + rewrite rsub_short_run by assumption.
      apply runs_below_run; try assumption. apply hd_rsub_not_p; assumption.
    + rewrite rsub_long_run by assumption.
      apply runs_below_run; try assumption. apply hd_rsub_not_p; assumption.
Qed.

(** A text without long runs is left as it is. *)
Lemma rsub_fix (s : str) : runs_below p n s -> rsub s = s.
Proof.
  induction s as [|c r IH]; [reflexivity |].
  cbn [runs_below]. intros [H1 H2].
  rewrite rsub_cons_nomatch by exact H1. rewrite IH by exact H2. reflexivity.
Qed.

End RunSub.

(* ================================================================== *)
(** ** Lines *)

Lemma split_on_cons (sep c : ascii) (r : str) :
  split_on sep (c :: r)
  = if c =? sep then [] :: split_on sep r else cons_head c (split_on sep r).
Proof. simpl. destruct (c =? sep); [reflexivity |]. destruct (split_on sep r); reflexivity. Qed.

Lemma split_on_not_nil (sep : ascii) (s : str) : split_on sep s <> [].
Proof.
  destruct s as [|c r]; [discriminate |]. rewrite split_on_cons.
  destruct (c =? sep); [discriminate |]. destruct (split_on sep r); discriminate.
Qed.

Lemma join_cons_head (sep c : ascii) (l : list str) :
  l <> [] -> join [sep] (cons_head c l) = c :: join [sep] l.
Proof. destruct l as [|h [|h' t]]; [congruence | reflexivity | reflexivity]. Qed.

Lemma join_cons (sep : str) (x : str) (l : list str) :
  l <> [] -> join sep (x :: l) = x ++ sep ++ join sep l.
Proof. destruct l; [congruence | reflexivity]. Qed.

Lemma join_split_on (sep : ascii) (s : str) : join [sep] (split_on sep s) = s.
Proof.
  induction s as [|c r IH]; [reflexivity |]. rewrite split_on_cons.
  destruct (Ascii.eqb_spec c sep) as [-> | N].
  - rewrite join_cons by apply split_on_not_nil. rewrite IH. reflexivity.
  - rewrite join_cons_head by apply split_on_not_nil. rewrite IH. reflexivity.
Qed.

Lemma Forall_cons_head (Q : str -> Prop) (c : ascii) (l : list str) :
  l <> [] ->
  (forall h, Q h -> Q (c :: h)) -> Forall Q l -> Forall Q (cons_head c l).
Proof.
  intros N H F. destruct l as [|h t]; [congruence |]. simpl.
  inversion F; subst. constructor; auto.
Qed.

Lemma split_on_Forall (Q : ascii -> Prop) (sep : ascii) (s : str) :
  Forall Q s -> Forall (Forall Q) (split_on sep s).
Proof.
  induction 1 as [|c r Hc _ IH]; [repeat constructor |]. rewrite split_on_cons.
  destruct (c =? sep); [constructor; auto |].
  apply Forall_cons_head; [apply split_on_not_nil | | exact IH].
  intros h Hh. constructor; assumption.
Qed.

Lemma split_on_no_sep (sep : ascii) (s : str) :
  Forall (fun l => ~ In sep l) (split_on sep s).
Proof.
  induction s as [|c r IH]; [repeat constructor; auto |]. rewrite split_on_cons.
  destruct (Ascii.eqb_spec c sep) as [-> | N]; [constructor; auto |].
  apply Forall_cons_head; [apply split_on_not_nil | | exact IH].
  intros h Hh [E | Hin]; [congruence | contradiction].
Qed.

(** The first line is a prefix of the text. *)
Lemma split_on_hd_prefix (sep : ascii) (s : str) :
  exists h t x, split_on sep s = h :: t /\ s = h ++ x.
Proof.
  induction s as [|c r (h & t & x & E & Ex)].
  - exists [], [], []. auto.
  - rewrite split_on_cons. destruct (c =? sep).
    + exists [], (split_on sep r), (c :: r). auto.
    + rewrite E. exists (c :: h), t, x. simpl. rewrite <- Ex. auto.
Qed.

Lemma Forall_lstrip (Q : ascii -> Prop) (s : str) : Forall Q s -> Forall Q (lstrip s).
Proof.
  intros H. destruct (lstrip_decomp s) as (ws & E & _). rewrite E in H.
  apply Forall_app in H. tauto.
Qed.

Lemma Forall_rstrip (Q : ascii -> Prop) (s : str) : Forall Q s -> Forall Q (rstrip s).
Proof.
  intros H. destruct (rstrip_decomp s) as (ws & E & _). rewrite E in H.
  apply Forall_app in H. tauto.
Qed.

Lemma Forall_strip (Q : ascii -> Prop) (s : str) : Forall Q s -> Forall Q (strip s).
Proof. intros H. apply Forall_rstrip, Forall_lstrip, H. Qed.

Lemma Forall_sub_from (Q : ascii -> Prop) (pat : pattern) (repl : str)
    (prev : option ascii) (skip : nat) (s : str) :
  Forall Q repl -> Forall Q s -> Forall Q (sub_from pat repl prev skip s).
Proof.
  intros Hr Hs. revert prev skip.
  induction Hs as [|c r Hc _ IH]; intros prev skip; simpl; [constructor |].
  destruct skip as [|k]; [| apply IH].
  destruct (pat prev (c :: r)) as [[|k]|].
  - constructor; [exact Hc | apply IH].
  - apply Forall_app. split; [exact Hr | apply IH].
  - constructor; [exact Hc | apply IH].
Qed.

Lemma Forall_join (Q : ascii -> Prop) (sep : str) (l : list str) :
  Forall Q sep -> Forall (Forall Q) l -> Forall Q (join sep l).
Proof.
  intros Hsep H. induction H as [|x l Hx Hl IH]; [constructor |].
  destruct l as [|y l]; [exact Hx |]. rewrite join_cons by discriminate.
  apply Forall_app. split; [exact Hx |]. apply Forall_app. split; assumption.
Qed.

Lemma replace_CR_absent (s : str) : Forall (fun c => c <> CR) (replace [CR] [LF] s).
Proof.
  unfold replace. induction s as [|c r IH]; [constructor |].
  cbn [replace_from starts_with length Nat.sub].
  destruct (Ascii.eqb_spec CR c) as [<- | N]; cbn [andb app].
  - constructor; [discriminate | exact IH].
  - constructor; [congruence | exact IH].
Qed.

Lemma replace_absent (c0 : ascii) (old new s : str) :
  ~ In c0 s -> replace (c0 :: old) new s = s.
Proof.
  unfold replace. induction s as [|c r IH]; [reflexivity |].
  intros H. cbn [replace_from starts_with].
  destruct (Ascii.eqb_spec c0 c) as [-> | N]; [exfalso; apply H; left; reflexivity |].
  cbn [andb]. f_equal. apply IH. intros Hin. apply H. right; exact Hin.
Qed.

(* ================================================================== *)
(** ** Runs under the steps of the Whitespace Normalizer *)

Lemma run_len_sep (p : ascii -> bool) (a b : str) (c : ascii) :
  p c = false -> run_len p (a ++ c :: b) = run_len p a.
Proof.
  intros H. induction a as [|x a IH]; simpl; [rewrite H; reflexivity |].
  rewrite IH. reflexivity.
Qed.

Lemma runs_below_sep (p : ascii -> bool) (n : nat) (a b : str) (c : ascii) :
  1 <= n -> p c = false ->
  runs_below p n a -> runs_below p n b -> runs_below p n (a ++ c :: b).
Proof.
  intros Hn Hc Ha Hb. induction a as [|x a IH].
  - apply runs_below_other; assumption.
  - change ((x :: a) ++ c :: b) with (x :: (a ++ c :: b)). cbn [runs_below] in *.
    destruct Ha as [H1 H2]. split; [| exact (IH H2)].
    change (x :: (a ++ c :: b)) with ((x :: a) ++ c :: b).
    rewrite run_len_sep by exact Hc. exact H1.
Qed.

Lemma runs_below_join (p : ascii -> bool) (n : nat) (c : ascii) (l : list str) :
  1 <= n -> p c = false ->
  Forall (runs_below p n) l -> runs_below p n (join [c] l).
Proof.
  intros Hn Hc H. induction H as [|x l Hx Hl IH]; [exact I |].
  destruct l as [|y l]; [exact Hx |]. rewrite join_cons by discriminate.
  apply runs_below_sep; assumption.
Qed.

Lemma run_len_hd_other (q : ascii -> bool) (w x : str) :
  w <> [] -> forallb (fun c => negb (q c)) w = true -> run_len q (w ++ x) = 0.
Proof.
  destruct w as [|c w]; [congruence |]. simpl. intros _ H.
  apply andb_true_iff in H as [H _]. destruct (q c); [discriminate | reflexivity].
Qed.

Lemma forallb_impl (f g : ascii -> bool) (s : str) :
  (forall c, f c = true -> g c = true) -> forallb f s = true -> forallb g s = true.
Proof.
  intros H. rewrite !forallb_forall. intros F x Hx. apply H, F, Hx.
Qed.

Section OtherClass.

Variables (p q : ascii -> bool) (n m : nat) (repl : str).
Hypothesis disjoint : forall c, p c = true -> q c = false.
Hypothesis repl_ne : repl <> [].
Hypothesis repl_p : forallb p repl = true.
Hypothesis n_pos : 1 <= n.
Hypothesis m_pos : 1 <= m.

Local Abbreviation rsub := (Spec.rsub p n repl).

Lemma p_not_q (w : str) :
  forallb p w = true -> forallb (fun c => negb (q c)) w = true.
Proof.
  apply forallb_impl. intros c H. rewrite (disjoint c H). reflexivity.
Qed.

(** Replacing runs of [p] does not change the length of a leading run of a
    disjoint class. *)
Lemma run_len_rsub_other (s : str) : run_len q (rsub s) = run_len q s.
Proof.
  pattern s; apply (run_ind p); clear s;
    [| intros c r Hc IH | intros w rest Hne Hw Hrest IH].
  - reflexivity.
  - rewrite rsub_cons_other by assumption. simpl. rewrite IH. reflexivity.
  - rewrite (run_len_hd_other q w rest Hne (p_not_q w Hw)).
    destruct (Nat.lt_ge_cases (length w) n) as [Hs | Hl].
    + rewrite rsub_short_run by assumption.
      apply run_len_hd_other; [exact Hne | apply p_not_q, Hw].
    + rewrite rsub_long_run by assumption.
      apply run_len_hd_other; [exact repl_ne | apply p_not_q, repl_p].
Qed.

Lemma runs_below_other_prefix (w x : str) :
  forallb (fun c => negb (q c)) w = true ->
  runs_below q m x -> runs_below q m (w ++ x).
Proof.
  intros Hw Hx. induction w as [|c w IH]; [exact Hx |].
  simpl in Hw. apply andb_true_iff in Hw as [Hc Hw].
  change ((c :: w) ++ x) with (c :: (w ++ x)).
  apply runs_below_other; [exact m_pos | | exact (IH Hw)].
  destruct (q c); [discriminate | reflexivity].
Qed.

Lemma runs_below_rsub_other (s : str) :
  runs_below q m s -> runs_below q m (rsub s).
Proof.
  pattern s; apply (run_ind p); clear s;
    [| intros c r Hc IH | intros w rest Hne Hw Hrest IH].
  - trivial.
  - rewrite rsub_cons_other by assumption. cbn [runs_below]. intros [H1 H2].
    split; [| exact (IH H2)].
    simpl in *. rewrite run_len_rsub_other. exact H1.
  - intros H. apply runs_below_app_r in H. specialize (IH H).
    destruct (Nat.lt_ge_cases (length w) n) as [Hs | Hl].
    + rewrite rsub_short_run by assumption.
      apply runs_below_other_prefix; [apply p_not_q, Hw | exact IH].
    + rewrite rsub_long_run by assumption.
      apply runs_below_other_prefix; [apply p_not_q, repl_p | exact IH].
Qed.

End OtherClass.

Lemma runs_below_strip (p : ascii -> bool) (n : nat) (s : str) :
  runs_below p n s -> runs_below p n (strip s).
Proof.
  intros H. unfold strip.
  destruct (lstrip_decomp s) as (ws & E & _). rewrite E in H.
  apply runs_below_app_r in H.
  destruct (rstrip_decomp (lstrip s)) as (ws' & E' & _). rewrite E' in H.
  apply runs_below_app_l in H. exact H.
Qed.

Lemma runs_below_split (p : ascii -> bool) (n : nat) (sep : ascii) (s : str) :
  runs_below p n s -> Forall (runs_below p n) (split_on sep s).
Proof.
  induction s as [|c r IH]; [repeat constructor |].
  cbn [runs_below]. intros [H1 H2]. specialize (IH H2). rewrite split_on_cons.
  destruct (c =? sep); [constructor; [exact I | exact IH] |].
  destruct (split_on_hd_prefix sep r) as (h & t & x & E & Ex).
  rewrite E in *. simpl. inversion IH; subst. constructor; [| assumption].
  cbn [runs_below]. split; [| assumption].
  pose proof (run_len_app_le p (c :: h) x) as L.
  change ((c :: h) ++ x) with (c :: (h ++ x)) in L. lia.
Qed.

Lemma run_len_last_other (p : ascii -> bool) (a x : str) (d : ascii) :
  last_opt a = Some d -> p d = false -> run_len p (a ++ x) = run_len p a.
Proof.
  intros Hl Hd. induction a as [|c a IH]; [discriminate |].
  simpl. destruct (p c) eqn:Ec; [| reflexivity]. f_equal.
  destruct a as [|c' a'].
  - unfold last_opt in Hl. simpl in Hl. congruence.
  - apply IH. unfold last_opt in *. simpl in *.
    destruct (rev a' ++ [c']) eqn:R; [destruct (rev a'); discriminate |].
    simpl in Hl. exact Hl.
Qed.

Lemma last_opt_cons (c : ascii) (s : str) :
  s <> [] -> last_opt (c :: s) = last_opt s.
Proof.
  intros N. unfold last_opt. simpl.
  destruct (rev s) eqn:R; [| reflexivity].
  apply (f_equal (@rev ascii)) in R. rewrite rev_involutive in R. contradiction.
Qed.

Lemma runs_below_snoc (p : ascii -> bool) (n : nat) (s : str) (c : ascii) :
  2 <= n -> not_p_opt p (last_opt s) ->
  runs_below p n s -> runs_below p n (s ++ [c]).
Proof.
  intros Hn. induction s as [|x s IH]; intros Hl H.
  - simpl. split; [destruct (p c); lia | exact I].
  - change ((x :: s) ++ [c]) with (x :: (s ++ [c])). cbn [runs_below] in *.
    destruct H as [H1 H2]. destruct s as [|y s].
    + unfold last_opt in Hl. simpl in Hl. simpl. rewrite Hl.
      split; [lia |]. split; [destruct (p c); lia | exact I].
    + rewrite last_opt_cons in Hl by discriminate. split; [| exact (IH Hl H2)].
      destruct (last_opt (y :: s)) as [d|] eqn:L.
      * change (x :: ((y :: s) ++ [c])) with ((x :: y :: s) ++ [c]).
        rewrite (run_len_last_other p (x :: y :: s) [c] d); [exact H1 | | exact Hl].
        rewrite last_opt_cons by discriminate. exact L.
      * unfold last_opt in L. simpl in L. destruct (rev s ++ [y]) eqn:R;
          [destruct (rev s); discriminate | discriminate].
Qed.

(* ================================================================== *)
(** ** Trailing white space under the steps of the Whitespace Normalizer *)

Lemma no_adj_cons (R : ascii -> ascii -> bool) (a : ascii) (r : str) :
  no_adj R (a :: r) <->
  match hd_error r with Some b => R a b = false | None => True end /\ no_adj R r.
Proof. destruct r; simpl; tauto. Qed.

Lemma no_adj_app_r (R : ascii -> ascii -> bool) (a b : str) :
  no_adj R (a ++ b) -> no_adj R b.
Proof.
  induction a as [|x a IH]; [tauto |].
  change ((x :: a) ++ b) with (x :: (a ++ b)). rewrite no_adj_cons. tauto.
Qed.

Lemma no_adj_app_l (R : ascii -> ascii -> bool) (a b : str) :
  no_adj R (a ++ b) -> no_adj R a.
Proof.
  induction a as [|x a IH]; [simpl; tauto |].
  change ((x :: a) ++ b) with (x :: (a ++ b)). rewrite !no_adj_cons.
  intros [H1 H2]. split; [| exact (IH H2)].
  destruct a; simpl in *; [exact I | exact H1].
Qed.

Lemma no_adj_strip (R : ascii -> ascii -> bool) (s : str) :
  no_adj R s -> no_adj R (strip s).
Proof.
  intros H. unfold strip.
  destruct (lstrip_decomp s) as (ws & E & _). rewrite E in H.
  apply no_adj_app_r in H.
  destruct (rstrip_decomp (lstrip s)) as (ws' & E' & _). rewrite E' in H.
  apply no_adj_app_l in H. exact H.
Qed.

Lemma last_opt_app (a b : str) : b <> [] -> last_opt (a ++ b) = last_opt b.
Proof.
  intros N. unfold last_opt. rewrite rev_app_distr.
  destruct (rev b) eqn:R; [| reflexivity].
  apply (f_equal (@rev ascii)) in R. rewrite rev_involutive in R. contradiction.
Qed.

Lemma no_adj_glue (R : ascii -> ascii -> bool) (a b : str) :
  no_adj R a -> no_adj R b ->
  match last_opt a, hd_error b with
  | Some x, Some y => R x y = false
  | _, _ => True
  end ->
  no_adj R (a ++ b).
Proof.
  intros Ha Hb. induction a as [|x a IH]; intros G; [exact Hb |].
  change ((x :: a) ++ b) with (x :: (a ++ b)). apply no_adj_cons.
  apply no_adj_cons in Ha as [H1 H2]. destruct a as [|y a].
  - split; [| exact Hb]. unfold last_opt in G. simpl in *.
    destruct b; simpl in *; [exact I | exact G].
  - split; [exact H1 |]. apply IH; [exact H2 |].
    rewrite last_opt_cons in G by discriminate. exact G.
Qed.

Lemma trailing_space_LF (b : ascii) : trailing_space LF b = false.
Proof. reflexivity. Qed.

Lemma trailing_space_nl (a b : ascii) : is_nl b = false -> trailing_space a b = false.
Proof. unfold trailing_space. intros ->. apply andb_false_r. Qed.

Lemma trailing_space_other (a b : ascii) : is_space a = false -> trailing_space a b = false.
Proof. unfold trailing_space. intros ->. reflexivity. Qed.

Lemma is_nl_eq (c : ascii) : is_nl c = true <-> c = LF.
Proof. unfold is_nl. apply Ascii.eqb_eq. Qed.

Lemma is_nl_false (c : ascii) : is_nl c = false <-> c <> LF.
Proof. unfold is_nl. apply Ascii.eqb_neq. Qed.

Lemma no_adj_no_LF (l : str) : ~ In LF l -> no_adj trailing_space l.
Proof.
  induction l as [|a l IH]; [simpl; tauto |]. intros H. apply no_adj_cons. split.
  - destruct l as [|b l]; simpl; [exact I |].
    apply trailing_space_nl, is_nl_false. intros ->. apply H. right; left; reflexivity.
  - apply IH. intros Hin. apply H. right; exact Hin.
Qed.

Lemma no_adj_LF_cons (x : str) :
  no_adj trailing_space x -> no_adj trailing_space (LF :: x).
Proof.
  intros H. apply no_adj_cons. split; [| exact H]. destruct (hd_error x); trivial.
Qed.

Lemma no_adj_join_lines (l : list str) :
  Forall (fun x => ~ In LF x /\ is_space_opt (last_opt x) = false) l ->
  no_adj trailing_space (join [LF] l).
Proof.
  induction 1 as [|x l [Hx Hs] Hl IH]; [exact I |].
  destruct l as [|y l]; [apply no_adj_no_LF, Hx |].
  rewrite join_cons by discriminate.
  apply no_adj_glue; [apply no_adj_no_LF, Hx | apply no_adj_LF_cons, IH |].
  destruct (last_opt x) as [c|]; [| exact I]. simpl in *.
  apply trailing_space_other, Hs.
Qed.

Lemma no_adj_LF_prefix (w x : str) :
  forallb is_nl w = true ->
  no_adj trailing_space x -> no_adj trailing_space (w ++ x).
Proof.
  intros Hw Hx. induction w as [|c w IH]; [exact Hx |].
  simpl in Hw. apply andb_true_iff in Hw as [Hc Hw]. apply is_nl_eq in Hc. subst c.
  change ((LF :: w) ++ x) with (LF :: (w ++ x)). apply no_adj_LF_cons, IH, Hw.
Qed.

Local Abbreviation nl_sub := (rsub is_nl 3 [LF; LF]).
Local Abbreviation hs_sub := (rsub is_hspace 2 [" "]).

Lemma hd_forallb_nl (w x : str) :
  w <> [] -> forallb is_nl w = true -> hd_error (w ++ x) = Some LF.
Proof.
  destruct w as [|c w]; [congruence |]. simpl. intros _ H.
  apply andb_true_iff in H as [H _]. apply is_nl_eq in H. congruence.
Qed.

Lemma hd_nl_sub (s : str) : hd_error (nl_sub s) = hd_error s.
Proof.
  pattern s; apply (run_ind is_nl); clear s;
    [| intros c r Hc IH | intros w rest Hne Hw Hrest IH].
  - reflexivity.
  - rewrite rsub_cons_other by (assumption || lia). reflexivity.
  - rewrite (hd_forallb_nl w rest Hne Hw).
    destruct (Nat.lt_ge_cases (length w) 3) as [Hs | Hl].
    + rewrite rsub_short_run by assumption. apply hd_forallb_nl; assumption.
    + rewrite rsub_long_run by (assumption || lia). reflexivity.
Qed.

Lemma no_adj_nl_sub (s : str) :
  no_adj trailing_space s -> no_adj trailing_space (nl_sub s).
Proof.
  pattern s; apply (run_ind is_nl); clear s;
    [| intros c r Hc IH | intros w rest Hne Hw Hrest IH].
  - trivial.
  - rewrite rsub_cons_other by (assumption || lia). rewrite !no_adj_cons.
    rewrite hd_nl_sub. intros [H1 H2]. split; [exact H1 | exact (IH H2)].
  - intros H. apply no_adj_app_r in H. specialize (IH H).
    destruct (Nat.lt_ge_cases (length w) 3) as [Hs | Hl].
    + rewrite rsub_short_run by assumption. apply no_adj_LF_prefix; assumption.
    + rewrite rsub_long_run by (assumption || lia).
      apply (no_adj_LF_prefix [LF; LF]); [reflexivity | exact IH].
Qed.

Lemma no_adj_snoc_LF (body : str) :
  no_adj trailing_space body -> is_space_opt (last_opt body) = false ->
  no_adj trailing_space (body ++ [LF]).
Proof.
  intros H T. apply no_adj_glue; [exact H | simpl; auto |].
  destruct (last_opt body) as [c|]; [| exact I]. simpl in *.
  apply trailing_space_other, T.
Qed.

(** Without white space before line feeds or at the end, no line ends
    with white space. *)
Lemma lines_rstripped (s : str) :
  no_adj trailing_space s -> ends_ok s ->
  Forall (fun l => is_space_opt (last_opt l) = false) (split_on LF s).
Proof.
  induction s as [|c r IH]; intros H E; [repeat constructor |].
  apply no_adj_cons in H as [H1 H2].
  assert (Er : ends_ok r).
  { destruct r as [|d r]; [exact I |]. unfold ends_ok in *.
    rewrite last_opt_cons in E by discriminate. exact E. }
  specialize (IH H2 Er). rewrite split_on_cons.
  destruct (Ascii.eqb_spec c LF) as [-> | N]; [constructor; [reflexivity | exact IH] |].
  destruct (split_on LF r) as [|h t] eqn:S; [exfalso; exact (split_on_not_nil _ _ S) |].
  simpl. inversion IH; subst. constructor; [| assumption].
  destruct h as [|d h]; [| rewrite last_opt_cons by discriminate; assumption].
  unfold last_opt. simpl.
  destruct r as [|d r].
  - unfold ends_ok, last_opt in E. simpl in E. destruct E as [E | E]; congruence.
  - rewrite split_on_cons in S. destruct (Ascii.eqb_spec d LF) as [-> | Nd].
    + simpl in H1. unfold trailing_space in H1.
      apply is_nl_false in N. rewrite N in H1. simpl in H1.
      rewrite !andb_true_r in H1. exact H1.
    + destruct (split_on LF r); discriminate.
Qed.

(* ================================================================== *)
(** ** Whitespace Normalizer: the shape of its output *)

Lemma is_hspace_space (c : ascii) : is_hspace c = true -> is_space c = true.
Proof.
  unfold is_hspace. intros H. apply orb_true_iff in H as [H | H];
    apply Ascii.eqb_eq in H; subst; reflexivity.
Qed.

Lemma is_nl_space (c : ascii) : is_nl c = true -> is_space c = true.
Proof. intros H. apply is_nl_eq in H. subst. reflexivity. Qed.

Lemma rsub_not_nil (p : ascii -> bool) (n : nat) (repl s : str) :
  1 <= n -> repl <> [] -> s <> [] -> rsub p n repl s <> [].
Proof.
  intros Hn Hr. pattern s; apply (run_ind p); clear s;
    [| intros c r Hc IH | intros w rest Hne Hw Hrest IH]; intros N.
  - congruence.
  - rewrite rsub_cons_other by assumption. discriminate.
  - destruct (Nat.lt_ge_cases (length w) n) as [Hs | Hl].
    + rewrite rsub_short_run by assumption. destruct w; [congruence | discriminate].
    + rewrite rsub_long_run by assumption. destruct repl; [congruence | discriminate].
Qed.

Lemma last_forallb (p : ascii -> bool) (w : str) :
  w <> [] -> forallb p w = true -> exists c, last_opt w = Some c /\ p c = true.
Proof.
  intros N H. unfold last_opt. destruct (rev w) as [|c r] eqn:R.
  - apply (f_equal (@rev ascii)) in R. rewrite rev_involutive in R. contradiction.
  - exists c. split; [reflexivity |]. rewrite forallb_forall in H. apply H.
    apply in_rev. rewrite R. left; reflexivity.
Qed.

Lemma last_hs_sub (l : str) :
  is_space_opt (last_opt l) = false ->
  is_space_opt (last_opt (hs_sub l)) = false.
Proof.
  pattern l; apply (run_ind is_hspace); clear l;
    [| intros c r Hc IH | intros w rest Hne Hw Hrest IH]; intros H.
  - reflexivity.
  - rewrite rsub_cons_other by (assumption || lia).
    destruct r as [|d r]; [exact H |].
    rewrite last_opt_cons in H by discriminate.
    rewrite last_opt_cons by (apply rsub_not_nil; (lia || discriminate)).
    exact (IH H).
  - destruct rest as [|d rest].
    + rewrite app_nil_r in H.
      destruct (last_forallb is_hspace w Hne Hw) as (c & Ec & Hc).
      rewrite Ec in H. simpl in H. rewrite (is_hspace_space c Hc) in H. discriminate.
    + rewrite last_opt_app in H by discriminate. specialize (IH H).
      assert (N : hs_sub (d :: rest) <> [])
        by (apply rsub_not_nil; (lia || discriminate)).
      destruct (Nat.lt_ge_cases (length w) 2) as [Hs | Hl].
      * rewrite rsub_short_run by assumption. rewrite last_opt_app by exact N. exact IH.
      * rewrite rsub_long_run by (assumption || lia).
        rewrite last_opt_app by exact N. exact IH.
Qed.

Lemma Forall_not_In (c : ascii) (l : str) :
  Forall (fun x => x <> c) l <-> ~ In c l.
Proof.
  rewrite Forall_forall. split.
  - intros H Hin. exact (H c Hin eq_refl).
  - intros H x Hx ->. exact (H Hx).
Qed.

(** The output of [clean_whitespace] is clean. *)
Lemma clean_body_clean (text : str) : clean (clean_body text).
Proof.
  unfold clean_body.
  set (t1 := replace [CR] [LF] (replace [CR; LF] [LF] text)).
  assert (C1 : Forall (fun c => c <> CR) t1) by apply replace_CR_absent.
  set (L2 := map (re_sub HSPACES_RE [" "]) (map rstrip (split_on LF t1))).
  assert (HL : Forall (fun l =>
              Forall (fun c => c <> CR) l /\ ~ In LF l /\
              is_space_opt (last_opt l) = false /\
              runs_below is_hspace 2 l) L2).
  { unfold L2. rewrite map_map. apply Forall_map.
    pose proof (split_on_Forall _ LF t1 C1) as F1.
    pose proof (split_on_no_sep LF t1) as F2.
    rewrite Forall_forall in *. intros l Hl. split; [| split; [| split]].
    - apply Forall_sub_from; [repeat constructor; discriminate |].
      apply Forall_rstrip, F1, Hl.
    - apply Forall_not_In. apply Forall_sub_from; [repeat constructor; discriminate |].
      apply Forall_rstrip, Forall_not_In, F2, Hl.
    - apply last_hs_sub, rstrip_last.
    - apply (rsub_runs_below is_hspace 2 [" "]); [reflexivity | simpl; lia]. }
  set (t2 := join [LF] L2).
  assert (C2 : Forall (fun c => c <> CR) t2).
  { apply Forall_join; [repeat constructor; discriminate |].
    eapply Forall_impl; [| exact HL]. simpl. tauto. }
  assert (H2 : runs_below is_hspace 2 t2).
  { apply runs_below_join; [lia | reflexivity |].
    eapply Forall_impl; [| exact HL]. simpl. tauto. }
  assert (A2 : no_adj trailing_space t2).
  { apply no_adj_join_lines. eapply Forall_impl; [| exact HL]. simpl. tauto. }
  change (re_sub NEWLINES_RE [LF; LF] t2) with (nl_sub t2).
  assert (C3 : Forall (fun c => c <> CR) (nl_sub t2))
    by (apply Forall_sub_from; [repeat constructor; discriminate | exact C2]).
  assert (H3 : runs_below is_hspace 2 (nl_sub t2)).
  { apply runs_below_rsub_other; try (lia || discriminate || reflexivity || assumption).
    intros c Hc. apply is_nl_eq in Hc. subst c. reflexivity. }
  assert (N3 : runs_below is_nl 3 (nl_sub t2))
    by (apply rsub_runs_below; [reflexivity | simpl; lia]).
  assert (A3 : no_adj trailing_space (nl_sub t2)) by (apply no_adj_nl_sub, A2).
  repeat split.
  - apply Forall_strip, C3.
  - apply runs_below_strip, H3.
  - apply runs_below_strip, N3.
  - apply no_adj_strip, A3.
  - apply strip_trimmed.
  - apply strip_trimmed.
Qed.

Lemma map_fix {A : Type} (f : A -> A) (l : list A) :
  Forall (fun x => f x = x) l -> map f l = l.
Proof. induction 1 as [|x l Hx _ IH]; simpl; [reflexivity | rewrite Hx, IH; reflexivity]. Qed.

Lemma strip_snoc_LF (body : str) : trimmed body -> strip (body ++ [LF]) = body.
Proof.
  intros [H1 H2]. destruct body as [|c r]; [reflexivity |].
  unfold strip. rewrite lstrip_fix by (simpl in *; exact H1).
  unfold rstrip. rewrite rev_app_distr. simpl rev at 1. simpl app.
  change (lstrip (LF :: rev (c :: r))) with (lstrip (rev (c :: r))).
  apply (rstrip_fix (c :: r) H2).
Qed.

(** A clean text followed by a line feed has no three neighbouring line
    feeds. *)
Lemma clean_line_feeds (body : str) :
  clean body -> runs_below is_nl 3 (body ++ [LF]).
Proof.
  intros (_ & _ & N & _ & T).
  apply runs_below_snoc; [lia | | exact N].
  destruct T as [_ T]. destruct (last_opt body) as [c|]; [| exact I]. simpl in *.
  destruct (is_nl c) eqn:E; [| reflexivity].
  rewrite (is_nl_space c E) in T. discriminate.
Qed.

(** [clean_whitespace] leaves a clean text as it is. *)
Lemma clean_whitespace_fix (body : str) :
  clean body -> clean_whitespace (body ++ [LF]) = body ++ [LF].
Proof.
  intros (C & H & N & A & T).
  assert (CX : ~ In CR (body ++ [LF])).
  { apply Forall_not_In, Forall_app. split; [exact C | repeat constructor; discriminate]. }
  assert (HX : runs_below is_hspace 2 (body ++ [LF]))
    by (apply runs_below_sep; [lia | reflexivity | exact H | exact I]).
  assert (NX : runs_below is_nl 3 (body ++ [LF]))
    by (apply clean_line_feeds; repeat split; assumption || apply T).
  assert (AX : no_adj trailing_space (body ++ [LF]))
    by (apply no_adj_snoc_LF; [exact A | apply T]).
  assert (EX : ends_ok (body ++ [LF])).
  { unfold ends_ok. rewrite last_opt_snoc. right; reflexivity. }
  unfold clean_whitespace.
  rewrite (replace_absent CR [LF] [LF] _ CX), (replace_absent CR [] [LF] _ CX).
  rewrite (map_fix rstrip).
  2:{ eapply Forall_impl; [| apply lines_rstripped; assumption].
      intros l Hl. apply rstrip_fix, Hl. }
  rewrite (map_fix (re_sub HSPACES_RE [" "])).
  2:{ eapply Forall_impl; [| apply (runs_below_split is_hspace 2 LF); exact HX].
      intros l Hl. apply (rsub_fix is_hspace 2 [" "]), Hl. }
  rewrite join_split_on.
  change (re_sub NEWLINES_RE [LF; LF] (body ++ [LF])) with (nl_sub (body ++ [LF])).
  rewrite (rsub_fix is_nl 3 [LF; LF] _ NX).
  rewrite (strip_snoc_LF body T). reflexivity.
Qed.

Lemma clean_whitespace_body (text : str) :
  clean_whitespace text = clean_body text ++ [LF].
Proof. reflexivity. Qed.

(** C6. Running [clean_whitespace] on its own output gives that output. *)
Theorem C6_clean_whitespace_idempotent :
  forall t : str, clean_whitespace (clean_whitespace t) = clean_whitespace t.
Proof.
  intros t. rewrite clean_whitespace_body.
  apply clean_whitespace_fix, clean_body_clean.
Qed.

(* ================================================================== *)
(** ** Whitespace Normalizer on runs of blank lines *)

(** C5 (what the code does). The output of [clean_whitespace] never holds
    three neighbouring line feeds, that is, never two blank lines in a row:
    the pattern counts line feeds, and a run of [n] line feeds holds [n - 1]
    blank lines.  Three blank lines between "a" and "b", and two blank lines
    as well, come out as a single blank line. *)
Theorem C5_blank_lines_collapse_to_one :
  (forall text : str, runs_below is_nl 3 (clean_whitespace text))
  /\ split_on LF (lit "a" ++ [LF; LF; LF; LF] ++ lit "b")
     = [lit "a"; []; []; []; lit "b"]
  /\ split_on LF (clean_whitespace (lit "a" ++ [LF; LF; LF; LF] ++ lit "b"))
     = [lit "a"; []; lit "b"; []]
  /\ split_on LF (lit "a" ++ [LF; LF; LF] ++ lit "b")
     = [lit "a"; []; []; lit "b"]
  /\ split_on LF (clean_whitespace (lit "a" ++ [LF; LF; LF] ++ lit "b"))
     = [lit "a"; []; lit "b"; []].
Proof.
  split.
  - intros text. rewrite clean_whitespace_body.
    apply clean_line_feeds, clean_body_clean.
  - repeat split; vm_compute; reflexivity.
Qed.

(* ================================================================== *)
(** ** Scanning a text cut into chunks *)

Lemma last_or_nil (prev : option ascii) : last_or prev [] = prev.
Proof. reflexivity. Qed.

Lemma last_or_cons (prev : option ascii) (c : ascii) (a : str) :
  last_or prev (c :: a) = last_or (Some c) a.
Proof.
  unfold last_or. destruct a as [|d a]; [reflexivity |].
  rewrite last_opt_cons by discriminate.
  destruct (last_opt (d :: a)) eqn:E; [reflexivity |].
  unfold last_opt in E. simpl in E.
  destruct (rev a ++ [d]) eqn:R; [destruct (rev a); discriminate | discriminate].
Qed.

Lemma last_or_app (prev : option ascii) (a b : str) :
  last_or prev (a ++ b) = last_or (last_or prev a) b.
Proof.
  revert prev; induction a as [|c a IH]; intros prev; [reflexivity |].
  change ((c :: a) ++ b) with (c :: (a ++ b)). rewrite !last_or_cons. apply IH.
Qed.

Lemma last_or_ne (prev : option ascii) (a : str) :
  a <> [] -> last_or prev a = last_opt a.
Proof.
  intros N. unfold last_or. destruct (last_opt a) eqn:E; [reflexivity |].
  unfold last_opt in E. destruct (rev a) eqn:R; [| discriminate].
  apply (f_equal (@rev ascii)) in R. rewrite rev_involutive in R. contradiction.
Qed.

Section Chunks.

Variable pat : pattern.

Lemma sub_from_skip_all (repl a b : str) (prev : option ascii) :
  sub_from pat repl prev (length a) (a ++ b)
  = sub_from pat repl (last_or prev a) 0 b.
Proof.
  revert prev; induction a as [|c a IH]; intros prev; [reflexivity |].
  rewrite last_or_cons. simpl. apply IH.
Qed.

Lemma split_from_skip_all (a b : str) (prev : option ascii) :
  split_from pat prev (length a) (a ++ b)
  = split_from pat (last_or prev a) 0 b.
Proof.
  revert prev; induction a as [|c a IH]; intros prev; [reflexivity |].
  rewrite last_or_cons. simpl. apply IH.
Qed.

Lemma quiet_tail (prev : option ascii) (c : ascii) (x rest : str) :
  quiet pat prev (c :: x) rest -> quiet pat (Some c) x rest.
Proof.
  intros Q a d b E. specialize (Q (c :: a) d b). rewrite last_or_cons in Q.
  apply Q. rewrite E. reflexivity.
Qed.

Lemma sub_from_quiet (repl : str) (prev : option ascii) (x rest : str) :
  quiet pat prev x rest ->
  sub_from pat repl prev 0 (x ++ rest)
  = x ++ sub_from pat repl (last_or prev x) 0 rest.
Proof.
  revert prev; induction x as [|c x IH]; intros prev Q; [reflexivity |].
  rewrite last_or_cons. pose proof (Q [] c x eq_refl) as Q0.
  rewrite last_or_nil in Q0. cbn [app sub_from].
  destruct (pat prev (c :: x ++ rest)) as [[|k]|]; try contradiction;
    rewrite (IH _ (quiet_tail _ _ _ _ Q)); reflexivity.
Qed.

Lemma split_from_quiet (prev : option ascii) (x rest : str) :
  quiet pat prev x rest ->
  split_from pat prev 0 (x ++ rest)
  = prepend x (split_from pat (last_or prev x) 0 rest).
Proof.
  revert prev; induction x as [|c x IH]; intros prev Q.
  - simpl. rewrite last_or_nil. destruct (split_from pat prev 0 rest) eqn:E;
      [destruct rest; simpl in E; [discriminate |] |]; try reflexivity.
    destruct (pat prev (a :: rest)) as [[|k]|]; try discriminate;
      destruct (split_from pat (Some a) 0 rest); discriminate.
  - rewrite last_or_cons. pose proof (Q [] c x eq_refl) as Q0.
    rewrite last_or_nil in Q0. cbn [app split_from].
    destruct (pat prev (c :: x ++ rest)) as [[|k]|]; try contradiction;
      rewrite (IH _ (quiet_tail _ _ _ _ Q));
      destruct (split_from pat (last_or (Some c) x) 0 rest); reflexivity.
Qed.

Lemma sub_from_hit (repl : str) (prev : option ascii) (m rest : str) :
  hit pat prev m rest ->
  sub_from pat repl prev 0 (m ++ rest)
  = repl ++ sub_from pat repl (last_or prev m) 0 rest.
Proof.
  intros (k & Hl & Hp). destruct m as [|c m]; [discriminate |].
  simpl in Hl. injection Hl as Hl. subst k.
  rewrite last_or_cons. cbn [app sub_from].
  change (c :: m ++ rest) with ((c :: m) ++ rest). rewrite Hp.
  rewrite sub_from_skip_all. reflexivity.
Qed.

Lemma split_from_hit (prev : option ascii) (m rest : str) :
  hit pat prev m rest ->
  split_from pat prev 0 (m ++ rest)
  = [] :: split_from pat (last_or prev m) 0 rest.
Proof.
  intros (k & Hl & Hp). destruct m as [|c m]; [discriminate |].
  simpl in Hl. injection Hl as Hl. subst k.
  rewrite last_or_cons. cbn [app split_from].
  change (c :: m ++ rest) with ((c :: m) ++ rest). rewrite Hp.
  rewrite split_from_skip_all. reflexivity.
Qed.

Lemma sub_from_chunks (repl : str) (cs : list chunk) (prev : option ascii) :
  chunks_ok pat prev cs ->
  sub_from pat repl prev 0 (flatten cs) = sub_chunks repl cs.
Proof.
  revert prev; induction cs as [|[[] x] cs IH]; intros prev H; [reflexivity | |];
    destruct H as [H1 H2]; unfold flatten; simpl; fold (flatten cs).
  - rewrite sub_from_quiet by exact H1. rewrite IH by exact H2. reflexivity.
  - rewrite sub_from_hit by exact H1. rewrite IH by exact H2. reflexivity.
Qed.

Lemma split_from_chunks (cs : list chunk) (prev : option ascii) :
  chunks_ok pat prev cs ->
  split_from pat prev 0 (flatten cs) = split_chunks cs.
Proof.
  revert prev; induction cs as [|[[] x] cs IH]; intros prev H; [reflexivity | |];
    destruct H as [H1 H2]; unfold flatten; simpl; fold (flatten cs).
  - rewrite split_from_quiet by exact H1. rewrite IH by exact H2. reflexivity.
  - rewrite split_from_hit by exact H1. rewrite IH by exact H2. reflexivity.
Qed.

End Chunks.

(* ================================================================== *)
(** ** Names and separators under the patterns *)

Ltac by_cases_on c :=
  destruct c as [[] [] [] [] [] [] [] []]; vm_compute; intuition congruence.

Lemma ci_a_props (c : ascii) :
  ci_eqb c "a" = true ->
  is_word c = true /\ is_space c = false /\ any_sep c = false /\ is_name_char c || (c =? " ") = is_upper c.
Proof. by_cases_on c. Qed.

Lemma ci_n_props (c : ascii) :
  ci_eqb c "n" = true -> is_word c = true /\ is_space c = false /\ any_sep c = false.
Proof. by_cases_on c. Qed.

Lemma ci_d_props (c : ascii) :
  ci_eqb c "d" = true -> is_word c = true /\ is_space c = false /\ any_sep c = false.
Proof. by_cases_on c. Qed.

Lemma space_props (c : ascii) :
  is_space c = true ->
  is_word c = false /\ any_sep c = false /\ ci_eqb c "a" = false
  /\ c <> "(" /\ c <> "," /\ is_lower c = false /\ is_name_char c = false.
Proof. by_cases_on c. Qed.

Lemma name_char_props (c : ascii) :
  is_name_char c = true ->
  is_space c = false /\ any_sep c = false /\ c <> "(" /\ c <> ","
  /\ is_lower c = false /\ upper_char c = c.
Proof. by_cases_on c. Qed.

Lemma and_word_iff (prev : option ascii) (a n d : ascii) (r : str) :
  and_word prev (a :: n :: d :: r) = true <->
  ci_eqb a "a" = true /\ ci_eqb n "n" = true /\ ci_eqb d "d" = true /\
  is_word_opt prev = false /\ is_word_opt (hd_error r) = false.
Proof.
  unfold and_word, boundary. rewrite !andb_true_iff. split.
  - intros ((((B1 & Ha) & Hn) & Hd) & B2).
    destruct (ci_a_props a Ha) as (Wa & _). destruct (ci_d_props d Hd) as (Wd & _).
    simpl in B1, B2. rewrite Wa in B1. rewrite Wd in B2.
    repeat split; try assumption.
    + destruct (is_word_opt prev); [discriminate | reflexivity].
    + destruct (is_word_opt (hd_error r)); [discriminate | reflexivity].
  - intros (Ha & Hn & Hd & P & Q).
    destruct (ci_a_props a Ha) as (Wa & _). destruct (ci_d_props d Hd) as (Wd & _).
    simpl. rewrite P, Q, Wa, Wd. auto.
Qed.

Lemma and_word_inv (prev : option ascii) (s : str) :
  and_word prev s = true ->
  exists a n d r, s = a :: n :: d :: r.
Proof.
  destruct s as [|a [|n [|d r]]]; try discriminate. intros _. eauto.
Qed.

Lemma is_word_opt_last_or (prev : option ascii) (a : str) :
  is_word_opt prev = false ->
  (a <> [] -> is_word_opt (last_opt a) = false) ->
  is_word_opt (last_or prev a) = false.
Proof.
  intros P H. destruct a as [|c a]; [exact P |].
  rewrite last_or_ne by discriminate. apply H. discriminate.
Qed.

Lemma quiet_ws (pat : pattern) (prev : option ascii) (w rest : str) :
  tame pat -> forallb is_space w = true -> quiet pat prev w rest.
Proof.
  intros T W a c b E.
  destruct (pat (last_or prev a) (c :: b ++ rest)) as [[|k]|] eqn:P; trivial.
  assert (Sc : is_space c = true).
  { rewrite forallb_forall in W. apply W. rewrite E. apply in_elt. }
  destruct (space_props c Sc) as (_ & S2 & S3 & _).
  apply T in P as [P | P]; [congruence |].
  destruct (and_word_inv _ _ P) as (a' & n & d & r & E').
  rewrite E' in P. injection E' as <- _. apply and_word_iff in P. intuition congruence.
Qed.

Lemma words_ok_chars (s : str) :
  words_ok s = true -> Forall (fun c => is_name_char c = true \/ c = " ") s.
Proof.
  induction s as [|c r IH]; [constructor |]. simpl.
  destruct (is_name_char c) eqn:E.
  - intros H. constructor; [left; exact E | exact (IH H)].
  - rewrite !andb_true_iff. intros [[H1 _] H3].
    apply Ascii.eqb_eq in H1. constructor; [right; exact H1 | exact (IH H3)].
Qed.

Lemma is_name_chars (n : str) :
  is_name n = true -> Forall (fun c => is_name_char c = true \/ c = " ") n.
Proof.
  destruct n as [|c r]; [discriminate |]. simpl. rewrite andb_true_iff.
  intros [H1 H2]. constructor; [left; exact H1 | apply words_ok_chars, H2].
Qed.

Lemma name_char_or_space_props (c : ascii) :
  is_name_char c = true \/ c = " " ->
  any_sep c = false /\ c <> "(" /\ c <> "," /\ is_lower c = false /\ upper_char c = c.
Proof.
  intros [H | ->]; [| repeat split; discriminate].
  destruct (name_char_props c H) as (_ & H2 & H3 & H4 & H5 & H6). auto.
Qed.

Lemma AND_RE_nil (prev : option ascii) : AND_RE prev [] = None.
Proof. reflexivity. Qed.

Lemma no_and_word_spec (n pre post : str) :
  no_and_word n = true -> n = pre ++ post -> and_word (last_opt pre) post = false.
Proof.
  unfold no_and_word, re_search. intros H E.
  pose proof (search_from_spec AND_RE n [] AND_RE_nil) as S. simpl in S.
  change (last_opt []) with (@None ascii) in S.
  destruct (search_from AND_RE 0 None n); [discriminate |].
  specialize (S pre post E). simpl in S. unfold AND_RE in S.
  destruct (and_word (last_opt pre) post); [discriminate | reflexivity].
Qed.

Lemma last_opt_snoc2 (a : str) (c d : ascii) : last_opt (a ++ [c; d]) = Some d.
Proof. apply (last_opt_app a [c; d]). discriminate. Qed.

(** A name is quiet before a text that starts with no word character, and
    before any text when it ends with none. *)
Lemma quiet_name (pat : pattern) (prev : option ascii) (n rest : str) :
  tame pat -> is_name n = true -> no_and_word n = true ->
  is_word_opt (hd_error rest) = false \/ is_word_opt (last_opt n) = false ->
  quiet pat prev n rest.
Proof.
  intros T N A Rw a c b E.
  destruct (pat (last_or prev a) (c :: b ++ rest)) as [[|k]|] eqn:P; trivial.
  assert (Hc : is_name_char c = true \/ c = " ").
  { pose proof (is_name_chars n N) as F. rewrite Forall_forall in F.
    apply F. rewrite E. apply in_elt. }
  destruct (name_char_or_space_props c Hc) as (S1 & _).
  apply T in P as [P | P]; [congruence |].
  pose proof (no_and_word_spec n a (c :: b) A E) as Q.
  destruct (and_word_inv _ _ P) as (a' & x & y & r & E').
  rewrite E' in P. apply and_word_iff in P as (Ha & Hx & Hy & Hp & Hr).
  injection E' as <- E'.
  destruct (ci_a_props c Ha) as (Wc & _).
  destruct (ci_n_props x Hx) as (Wx & _). destruct (ci_d_props y Hy) as (Wy & _).
  destruct b as [|x' [|y' b']]; simpl in E'.
  - destruct Rw as [Rw | Rw].
    + rewrite E' in Rw. simpl in Rw. congruence.
    + rewrite E, last_opt_snoc in Rw. simpl in Rw. congruence.
  - injection E' as -> E'. destruct Rw as [Rw | Rw].
    + rewrite E' in Rw. simpl in Rw. congruence.
    + rewrite E, last_opt_snoc2 in Rw. simpl in Rw. congruence.
  - injection E' as -> -> E'.
    assert (Q' : and_word (last_opt a) (c :: x :: y :: b') = true).
    { apply and_word_iff. repeat split; try assumption.
      - destruct a as [|a0 a]; [reflexivity |].
        rewrite last_or_ne in Hp by discriminate. exact Hp.
      - destruct b' as [|z b']; [reflexivity |]. subst r. exact Hr. }
    congruence.
Qed.

(* ================================================================== *)
(** ** The three patterns on an annotation of names and separators *)

Lemma tame_SEP_RE : tame SEP_RE.
Proof.
  intros prev s k. unfold SEP_RE. destruct s as [|c r]; [discriminate |].
  destruct (is_sep_char c) eqn:E.
  - intros _. left. unfold is_sep_char in E. unfold any_sep.
    repeat (apply orb_true_iff in E as [E | E]); rewrite E;
      rewrite ?orb_true_r; reflexivity.
  - destruct (and_word prev (c :: r)); [auto | discriminate].
Qed.

Lemma tame_AMP_RE : tame AMP_RE.
Proof.
  intros prev s k. unfold AMP_RE. destruct s as [|c r]; [discriminate |].
  destruct ((c =? "&") || (c =? "/") || (c =? "|")) eqn:E; [| discriminate].
  intros _. left. unfold any_sep.
  repeat (apply orb_true_iff in E as [E | E]); rewrite E;
    rewrite ?orb_true_r; reflexivity.
Qed.

Lemma tame_AND_RE : tame AND_RE.
Proof.
  intros prev s k. unfold AND_RE.
  destruct (and_word prev s); [auto | discriminate].
Qed.

Lemma flatten_cons (k : kind) (x : str) (cs : list chunk) :
  flatten ((k, x) :: cs) = x ++ flatten cs.
Proof. reflexivity. Qed.

Lemma flatten_app (a b : list chunk) : flatten (a ++ b) = flatten a ++ flatten b.
Proof. unfold flatten. rewrite map_app, concat_app. reflexivity. Qed.

Lemma last_space_not_word (w : str) :
  forallb is_space w = true -> w <> [] -> is_word_opt (last_opt w) = false.
Proof.
  intros W N. destruct (last_forallb is_space w N W) as (c & E & Hc).
  rewrite E. simpl. apply space_props, Hc.
Qed.

Lemma hd_space_not_word (w x : str) :
  forallb is_space w = true -> w <> [] -> is_word_opt (hd_error (w ++ x)) = false.
Proof.
  destruct w as [|c w]; [congruence |]. simpl. intros W _.
  apply andb_true_iff in W as [W _]. apply space_props, W.
Qed.

Lemma char_core_inv (m : str) :
  is_char_core m = true ->
  exists c, m = [c] /\ is_sep_char c = true /\ is_word c = false /\ c <> "\".
Proof.
  destruct m as [|c [|d m]]; try discriminate. simpl. intros H. exists c.
  split; [reflexivity |]. revert H. by_cases_on c.
Qed.

Lemma and_core_inv (m : str) :
  is_and_core m = true ->
  exists a n d, m = [a; n; d] /\
    ci_eqb a "a" = true /\ ci_eqb n "n" = true /\ ci_eqb d "d" = true.
Proof.
  destruct m as [|a [|n [|d [|e m]]]]; try discriminate. simpl.
  rewrite !andb_true_iff. intros [[Ha Hn] Hd]. exists a, n, d. auto.
Qed.

Lemma is_name_not_nil (n : str) : is_name n = true -> n <> [].
Proof. destruct n; [discriminate | discriminate]. Qed.

Lemma hd_error_app_ne (a b : str) : a <> [] -> hd_error (a ++ b) = hd_error a.
Proof. destruct a; [congruence | reflexivity]. Qed.

(** The text after a name starts with no word character, unless the name
    ends with none. *)
Lemma after_name_not_word (kind_of : str -> kind) (a : str) (items : list item) :
  items_ok a items ->
  is_word_opt (hd_error (flatten (flat_map (item_chunks kind_of) items))) = false
  \/ is_word_opt (last_opt a) = false.
Proof.
  destruct items as [|[[[w1 m] w2] n] items]; [left; reflexivity |].
  intros ((W1 & W2 & Pn & C) & _).
  simpl flat_map. rewrite !flatten_cons. destruct w1 as [|c w1].
  - destruct C as [C | (_ & [N | L] & _)]; [| congruence | right; exact L].
    left. apply char_core_inv in C as (c & -> & _ & Wc & _). exact Wc.
  - left. apply hd_space_not_word; [exact W1 | discriminate].
Qed.

Lemma plain_name_inv (n : str) :
  plain_name n = true ->
  is_name n = true /\ no_and_word n = true /\ n <> BOTH /\ n <> ALL.
Proof.
  unfold plain_name. rewrite !andb_true_iff, negb_true_iff.
  intros [[H1 H2] H3]. apply mem_false in H3.
  repeat split; try assumption; intros ->; apply H3; [left | right; left]; reflexivity.
Qed.

Section Grammar.

Variables (pat : pattern) (kind_of : str -> kind).
Hypothesis pat_tame : tame pat.
Hypothesis core_spec :
  forall (prev : option ascii) (m rest : str),
    is_char_core m = true \/
    (is_and_core m = true /\
     is_word_opt prev = false /\ is_word_opt (hd_error rest) = false) ->
    match kind_of m with
    | Hit => hit pat prev m rest
    | Quiet => quiet pat prev m rest
    end.

Lemma chunks_ok_items (items : list item) (a : str) (prev : option ascii) :
  is_name a = true -> items_ok a items ->
  chunks_ok pat (last_or prev a) (flat_map (item_chunks kind_of) items).
Proof.
  revert a prev.
  induction items as [|[[[w1 m] w2] n] items IH]; intros a prev Na F; [exact I |].
  destruct F as ((W1 & W2 & Pn & C) & F). cbn [snd] in F.
  destruct (plain_name_inv n Pn) as (Nn & An & _).
  pose proof (is_name_not_nil a Na) as Ea. pose proof (is_name_not_nil n Nn) as En.
  set (tail := flat_map (item_chunks kind_of) items) in *.
  cbn [flat_map item_chunks app chunks_ok]. fold tail.
  split; [apply quiet_ws; assumption |].
  assert (Tail : chunks_ok pat (last_or (last_or (last_or prev a) w1) m)
                   ((Quiet, w2) :: (Quiet, n) :: tail)).
  { cbn [chunks_ok]. split; [apply quiet_ws; assumption |]. split.
    - apply quiet_name; try assumption. apply after_name_not_word, F.
    - apply IH; assumption. }
  assert (CS : is_char_core m = true \/
               (is_and_core m = true /\
                is_word_opt (last_or (last_or prev a) w1) = false /\
                is_word_opt (hd_error (flatten ((Quiet, w2) :: (Quiet, n) :: tail)))
                = false)).
  { destruct C as [C | (C & C1 & C2)]; [left; exact C | right].
    split; [exact C |]. split.
    - destruct w1 as [|c w1].
      + rewrite last_or_nil, last_or_ne by exact Ea.
        destruct C1 as [C1 | C1]; [congruence | exact C1].
      + rewrite last_or_ne by discriminate.
        apply last_space_not_word; [exact W1 | discriminate].
    - rewrite !flatten_cons. destruct w2 as [|c w2].
      + cbn [app]. rewrite hd_error_app_ne by exact En.
        destruct C2 as [C2 | C2]; [congruence | exact C2].
      + apply hd_space_not_word; [exact W2 | discriminate]. }
  apply core_spec in CS.
  destruct (kind_of m); cbn [chunks_ok]; split; try exact CS; exact Tail.
Qed.

Lemma chunks_ok_inner (n0 : str) (items : list item) :
  plain_name n0 = true -> items_ok n0 items ->
  chunks_ok pat None (chunks_of kind_of n0 items).
Proof.
  intros Pn F. destruct (plain_name_inv n0 Pn) as (Nn & An & _).
  unfold chunks_of. cbn [chunks_ok]. split; [| apply chunks_ok_items; assumption].
  apply quiet_name; try assumption. apply after_name_not_word, F.
Qed.

End Grammar.

Lemma is_sep_char_any (c : ascii) : any_sep c = false -> is_sep_char c = false.
Proof. by_cases_on c. Qed.

Lemma hit_and_core (pat : pattern) (prev : option ascii) (m rest : str) :
  (forall p s, and_word p s = true ->
     match s with c :: _ => any_sep c = false | [] => True end ->
     pat p s = Some 3) ->
  is_and_core m = true ->
  is_word_opt prev = false -> is_word_opt (hd_error rest) = false ->
  hit pat prev m rest.
Proof.
  intros Hp C P R.
  apply and_core_inv in C as (a & n & d & -> & Ha & Hn & Hd).
  exists 2. split; [reflexivity |]. apply Hp.
  - cbn [app]. apply and_word_iff. repeat split; assumption.
  - cbn [app]. apply ci_a_props, Ha.
Qed.

Lemma core_spec_SEP (prev : option ascii) (m rest : str) :
  is_char_core m = true \/
  (is_and_core m = true /\
   is_word_opt prev = false /\ is_word_opt (hd_error rest) = false) ->
  match all_hit m with
  | Hit => hit SEP_RE prev m rest
  | Quiet => quiet SEP_RE prev m rest
  end.
Proof.
  intros [C | (C & P & R)]; cbn [all_hit].
  - apply char_core_inv in C as (c & -> & Hc & _).
    exists 0. split; [reflexivity |]. cbn [app]. unfold SEP_RE. rewrite Hc. reflexivity.
  - apply hit_and_core; try assumption.
    intros p s A S. unfold SEP_RE. destruct s as [|c r]; [discriminate |].
    rewrite (is_sep_char_any c S), A. reflexivity.
Qed.

Lemma quiet_chars (pat : pattern) (prev : option ascii) (m rest : str) :
  Forall (fun c => forall p r, match pat p (c :: r) with Some (S _) => False | _ => True end) m ->
  quiet pat prev m rest.
Proof.
  intros F a c b E. rewrite Forall_forall in F. apply F. rewrite E. apply in_elt.
Qed.

Lemma core_spec_AMP (prev : option ascii) (m rest : str) :
  is_char_core m = true \/
  (is_and_core m = true /\
   is_word_opt prev = false /\ is_word_opt (hd_error rest) = false) ->
  match amp_hit m with
  | Hit => hit AMP_RE prev m rest
  | Quiet => quiet AMP_RE prev m rest
  end.
Proof.
  intros C. unfold amp_hit. destruct (is_amp_core m) eqn:A.
  - destruct m as [|c [|d m]]; try discriminate. simpl in A.
    exists 0. split; [reflexivity |]. cbn [app]. unfold AMP_RE.
    replace ((c =? "&") || (c =? "/") || (c =? "|")) with true; [reflexivity |].
    apply orb_true_iff in A as [A | A]; rewrite A; rewrite ?orb_true_r; reflexivity.
  - apply quiet_chars. destruct C as [C | (C & _)].
    + destruct m as [|c [|d m]]; try discriminate. simpl in A, C.
      repeat constructor. intros p r. unfold AMP_RE.
      apply orb_false_iff in A as [A1 A2]. rewrite A1, A2. simpl.
      destruct (c =? "|") eqn:E; [| exact I].
      apply Ascii.eqb_eq in E. subst c. discriminate.
    + apply and_core_inv in C as (a & n & d & -> & Ha & Hn & Hd).
      destruct (ci_a_props a Ha) as (_ & _ & Sa & _).
      destruct (ci_n_props n Hn) as (_ & _ & Sn).
      destruct (ci_d_props d Hd) as (_ & _ & Sd).
      assert (Q : forall c, any_sep c = false -> forall (p : option ascii) (r : str),
                 match AMP_RE p (c :: r) with Some (S _) => False | _ => True end).
      { intros c Hc p r. unfold AMP_RE.
        destruct ((c =? "&") || (c =? "/") || (c =? "|")) eqn:E; [| exact I].
        exfalso. revert Hc E. clear. by_cases_on c. }
      repeat constructor; apply Q; assumption.
Qed.

Lemma core_spec_AND (prev : option ascii) (m rest : str) :
  is_char_core m = true \/
  (is_and_core m = true /\
   is_word_opt prev = false /\ is_word_opt (hd_error rest) = false) ->
  match and_hit m with
  | Hit => hit AND_RE prev m rest
  | Quiet => quiet AND_RE prev m rest
  end.
Proof.
  intros C. unfold and_hit. destruct (is_and_core m) eqn:A.
  - destruct C as [C | (_ & P & R)].
    + destruct m as [|a [|n [|d [|e m]]]]; discriminate.
    + apply hit_and_core; try assumption.
      intros p s H _. unfold AND_RE. rewrite H. reflexivity.
  - destruct C as [C | (C & _)]; [| congruence].
    apply char_core_inv in C as (c & -> & _ & Wc & _).
    apply quiet_chars. repeat constructor. intros p r. unfold AND_RE.
    destruct (and_word p (c :: r)) eqn:E; [| exact I].
    destruct (and_word_inv _ _ E) as (a & n & d & r' & E').
    rewrite E' in E. apply and_word_iff in E as (Ha & _).
    injection E' as <- _. destruct (ci_a_props c Ha) as (Wc' & _). congruence.
Qed.

Lemma flatten_chunks_of (k k' : str -> kind) (n0 : str) (items : list item) :
  flatten (chunks_of k n0 items) = flatten (chunks_of k' n0 items).
Proof.
  unfold chunks_of. rewrite !flatten_cons. f_equal.
  induction items as [|[[[w1 m] w2] n] items IH]; [reflexivity |].
  cbn [flat_map item_chunks app]. rewrite !flatten_cons, IH. reflexivity.
Qed.

Lemma flatten_inner_of (k : str -> kind) (n0 : str) (items : list item) :
  flatten (chunks_of k n0 items) = inner_of n0 (map item_text items).
Proof.
  unfold chunks_of, inner_of. rewrite flatten_cons. f_equal.
  induction items as [|[[[w1 m] w2] n] items IH]; [reflexivity |].
  cbn [flat_map item_chunks app map item_text concat fst snd].
  rewrite !flatten_cons, IH, <- !app_assoc. reflexivity.
Qed.

Lemma sub_chunks_comma (k k' : str -> kind) (n0 : str) (items : list item) :
  sub_chunks [","] (chunks_of k n0 items)
  = flatten (chunks_of k' n0 (map (comma_item k) items)).
Proof.
  unfold chunks_of. cbn [sub_chunks]. rewrite flatten_cons. f_equal.
  induction items as [|[[[w1 m] w2] n] items IH]; [reflexivity |].
  cbn [flat_map item_chunks app map comma_item sub_chunks].
  rewrite !flatten_cons, <- IH. destruct (k m); reflexivity.
Qed.

Lemma comma_item_ok (k : str -> kind) (a : str) (it : item) :
  item_ok a it -> item_ok a (comma_item k it).
Proof.
  destruct it as [[[w1 m] w2] n]. simpl. intros (W1 & W2 & P & C).
  repeat split; try assumption. destruct (k m); [exact C | left; reflexivity].
Qed.

Lemma comma_items_ok (k : str -> kind) (items : list item) (a : str) :
  items_ok a items -> items_ok a (map (comma_item k) items).
Proof.
  revert a; induction items as [|it items IH]; intros a; [trivial |].
  intros [H F]. cbn [map items_ok]. split; [apply comma_item_ok, H |].
  replace (snd (comma_item k it)) with (snd it)
    by (destruct it as [[[w1 m] w2] n]; reflexivity).
  apply IH, F.
Qed.

Lemma both_passes_comma (a : str) (it : item) :
  item_ok a it ->
  comma_item and_hit (comma_item amp_hit it)
  = (fst (fst (fst it)), [","], snd (fst it), snd it).
Proof.
  destruct it as [[[w1 m] w2] n]. simpl. intros (_ & _ & _ & C).
  unfold amp_hit, and_hit. destruct C as [C | (C & _)].
  - destruct m as [|c [|d m]]; try discriminate. simpl in C. simpl is_amp_core.
    destruct ((c =? "&") || (c =? "/")) eqn:A; [reflexivity |].
    apply orb_false_iff in A as [A1 A2]. rewrite A1, A2 in C.
    rewrite !orb_false_r in C.
    apply Ascii.eqb_eq in C. subst c. reflexivity.
  - pose proof C as C'. apply and_core_inv in C' as (a' & x & d & -> & _).
    simpl is_amp_core. cbv iota. rewrite C. reflexivity.
Qed.

Lemma both_passes_commas (items : list item) (a : str) :
  items_ok a items ->
  map (comma_item and_hit) (map (comma_item amp_hit) items)
  = map (fun it : item => (fst (fst (fst it)), [","], snd (fst it), snd it)) items.
Proof.
  revert a; induction items as [|it items IH]; intros a; [reflexivity |].
  intros [H F]. cbn [map]. rewrite (both_passes_comma a it H), (IH _ F). reflexivity.
Qed.

Lemma separates_inv (a s b : str) :
  separates a s b = true ->
  exists w1 m w2,
    s = w1 ++ m ++ w2 /\ forallb is_space w1 = true /\ forallb is_space w2 = true /\
    (is_char_core m = true \/
     (is_and_core m = true /\
      (w1 <> [] \/ is_word_opt (last_opt a) = false) /\
      (w2 <> [] \/ is_word_opt (hd_error b) = false))).
Proof.
  intros H. destruct (lstrip_decomp s) as (w1 & E1 & W1).
  destruct (rstrip_decomp (lstrip s)) as (w2 & E2 & W2). fold (strip s) in E2.
  exists w1, (strip s), w2. rewrite <- E2, <- E1.
  repeat split; try assumption.
  unfold separates in H. apply orb_true_iff in H as [H | H]; [left; exact H |].
  rewrite !andb_true_iff in H. destruct H as [[C Hh] Hl]. right.
  pose proof C as C'. apply and_core_inv in C' as (x & n & d & Em & Ha & _ & Hd).
  destruct (ci_a_props x Ha) as (_ & Sa & _). destruct (ci_d_props d Hd) as (_ & Sd & _).
  rewrite Em in E2. split; [exact C |]. split.
  - apply orb_true_iff in Hh as [Hh | Hh].
    + left. intros ->. simpl in E1. rewrite E1, E2 in Hh. simpl in Hh. congruence.
    + right. apply negb_true_iff, Hh.
  - apply orb_true_iff in Hl as [Hl | Hl].
    + left. intros ->. rewrite app_nil_r in E2. rewrite E1, E2 in Hl.
      rewrite last_opt_app in Hl by discriminate.
      unfold last_opt in Hl. simpl in Hl. congruence.
    + right. apply negb_true_iff, Hl.
Qed.

Lemma items_of_rest (rest : list (str * str)) (a : str) :
  seps_ok a rest = true ->
  Forall (fun n => plain_name n = true) (map snd rest) ->
  exists items, items_ok a items /\ map item_text items = rest.
Proof.
  revert a; induction rest as [|[s n] rest IH]; intros a Hs Hn;
    [exists []; split; [exact I | reflexivity] |].
  simpl in Hs. apply andb_true_iff in Hs as [Hs Hr].
  inversion Hn as [|? ? Pn Hn']; subst.
  destruct (IH n Hr Hn') as (items & F & E).
  destruct (separates_inv a s n Hs) as (w1 & m & w2 & -> & W1 & W2 & C).
  exists ((w1, m, w2, n) :: items). split.
  - split; [simpl; auto | exact F].
  - simpl. rewrite E. reflexivity.
Qed.

(* ================================================================== *)
(** ** The parts of an annotation of names and separators *)

Lemma prepend_nil (l : list str) : l <> [] -> prepend [] l = l.
Proof. destruct l; [congruence | reflexivity]. Qed.

Lemma split_on_quiet (sep : ascii) (x y : str) :
  ~ In sep x -> split_on sep (x ++ y) = prepend x (split_on sep y).
Proof.
  induction x as [|c x IH]; intros H.
  - simpl. symmetry. apply prepend_nil, split_on_not_nil.
  - change ((c :: x) ++ y) with (c :: (x ++ y)). rewrite split_on_cons.
    destruct (Ascii.eqb_spec c sep) as [-> | N]; [exfalso; apply H; left; reflexivity |].
    rewrite IH by (intros Hin; apply H; right; exact Hin).
    destruct (split_on sep y) eqn:E; [exfalso; exact (split_on_not_nil _ _ E) |].
    reflexivity.
Qed.

Lemma split_on_chunks (cs : list chunk) :
  Forall (fun kx : chunk =>
            match fst kx with
            | Quiet => ~ In "," (snd kx)
            | Hit => snd kx = [","]
            end) cs ->
  split_on "," (flatten cs) = split_chunks cs.
Proof.
  induction 1 as [|[[] x] cs Hx _ IH]; [reflexivity | |]; simpl in Hx;
    rewrite flatten_cons; cbn [split_chunks].
  - rewrite split_on_quiet by exact Hx. rewrite IH. reflexivity.
  - subst x. cbn [app]. rewrite split_on_cons. simpl. rewrite IH. reflexivity.
Qed.

Lemma space_no_comma (w : str) : forallb is_space w = true -> ~ In "," w.
Proof.
  rewrite forallb_forall. intros H Hin. specialize (H _ Hin). discriminate.
Qed.

Lemma name_no_comma (n : str) : is_name n = true -> ~ In "," n.
Proof.
  intros H Hin. pose proof (is_name_chars n H) as F. rewrite Forall_forall in F.
  destruct (name_char_or_space_props _ (F _ Hin)) as (_ & _ & N & _). congruence.
Qed.

(** Between the hits lie the names, each with white space around it. *)
Lemma split_chunks_items (items : list item) (a : str) :
  items_ok a items ->
  exists w parts,
    split_chunks (flat_map (item_chunks all_hit) items) = w :: parts /\
    forallb is_space w = true /\
    Forall2 padded (map item_name items) parts.
Proof.
  revert a; induction items as [|[[[w1 m] w2] n] items IH]; intros a.
  - exists [], []. repeat split. constructor.
  - intros ((W1 & W2 & _) & F). destruct (IH _ F) as (w & parts & E & W & P).
    cbn [flat_map item_chunks app split_chunks all_hit]. rewrite E. cbn [prepend].
    rewrite app_nil_r.
    exists w1, ((w2 ++ n ++ w) :: parts). split; [reflexivity |]. split; [exact W1 |].
    constructor; [| exact P]. exists w2, w. auto.
Qed.

Lemma split_chunks_inner (n0 : str) (items : list item) :
  items_ok n0 items ->
  Forall2 padded (n0 :: map item_name items)
          (split_chunks (chunks_of all_hit n0 items)).
Proof.
  intros F. destruct (split_chunks_items items n0 F) as (w & parts & E & W & P).
  unfold chunks_of. cbn [split_chunks]. rewrite E. cbn [prepend].
  constructor; [| exact P]. exists [], w. auto.
Qed.

Lemma item_names (items : list item) :
  map item_name items = map snd (map item_text items).
Proof.
  rewrite map_map. apply map_ext. intros [[[w1 m] w2] n]. reflexivity.
Qed.

(** [re.split] with the separator pattern gives the padded names. *)
Lemma ctx_parts (n0 : str) (items : list item) :
  plain_name n0 = true -> items_ok n0 items ->
  Forall2 padded (n0 :: map item_name items)
          (re_split SEP_RE (inner_of n0 (map item_text items))).
Proof.
  intros P F. rewrite <- (flatten_inner_of all_hit). unfold re_split.
  rewrite split_from_chunks
    by (apply (chunks_ok_inner SEP_RE all_hit tame_SEP_RE core_spec_SEP); assumption).
  apply split_chunks_inner, F.
Qed.

Lemma items_no_comma (items : list item) (a : str) :
  items_ok a items ->
  Forall (fun kx : chunk =>
            match fst kx with
            | Quiet => ~ In "," (snd kx)
            | Hit => snd kx = [","]
            end)
    (flat_map (item_chunks all_hit)
       (map (fun it : item => (fst (fst (fst it)), [","], snd (fst it), snd it))
            items)).
Proof.
  revert a; induction items as [|[[[w1 m] w2] n] items IH]; intros a; [constructor |].
  intros ((W1 & W2 & Pn & _) & F). destruct (plain_name_inv n Pn) as (Nn & _).
  cbn [map flat_map item_chunks app fst snd all_hit].
  repeat (constructor; [simpl; auto using space_no_comma, name_no_comma |]).
  exact (IH _ F).
Qed.

(** The two substitutions and [split(",")] give the padded names too. *)
Lemma free_parts (n0 : str) (items : list item) :
  plain_name n0 = true -> items_ok n0 items ->
  Forall2 padded (n0 :: map item_name items)
    (split_on ","
       (re_sub AND_RE [","]
          (re_sub AMP_RE [","] (inner_of n0 (map item_text items))))).
Proof.
  intros P F.
  set (items1 := map (comma_item amp_hit) items).
  set (items2 := map (comma_item and_hit) items1).
  assert (F1 : items_ok n0 items1) by (apply comma_items_ok, F).
  assert (F2 : items_ok n0 items2) by (apply comma_items_ok, F1).
  assert (E2 : items2 = map (fun it : item =>
                 (fst (fst (fst it)), [","], snd (fst it), snd it)) items)
    by (apply (both_passes_commas items n0 F)).
  rewrite <- (flatten_inner_of amp_hit). unfold re_sub.
  rewrite sub_from_chunks
    by (apply (chunks_ok_inner AMP_RE amp_hit tame_AMP_RE core_spec_AMP); assumption).
  rewrite (sub_chunks_comma amp_hit and_hit). fold items1.
  rewrite sub_from_chunks
    by (apply (chunks_ok_inner AND_RE and_hit tame_AND_RE core_spec_AND); assumption).
  rewrite (sub_chunks_comma and_hit all_hit). fold items2.
  rewrite split_on_chunks.
  - replace (map item_name items) with (map item_name items2).
    + apply split_chunks_inner, F2.
    + rewrite E2, map_map. apply map_ext. intros [[[w1 m] w2] n]. reflexivity.
  - destruct (plain_name_inv n0 P) as (N0 & _).
    unfold chunks_of. constructor; [apply name_no_comma, N0 |].
    rewrite E2. apply (items_no_comma items n0 F).
Qed.

(* ================================================================== *)
(** ** A padded name through the two normalizers *)

Lemma words_ok_last (r : str) (c : ascii) :
  is_name_char c = true -> words_ok r = true ->
  exists d, last_opt (c :: r) = Some d /\ is_name_char d = true.
Proof.
  revert c; induction r as [|x r IH]; intros c Hc H.
  - exists c. auto.
  - rewrite last_opt_cons by discriminate. simpl in H.
    destruct (is_name_char x) eqn:Ex; [exact (IH x Ex H) |].
    rewrite !andb_true_iff in H. destruct H as [[_ Hd] Hr].
    destruct r as [|d r]; [discriminate |].
    rewrite last_opt_cons by discriminate.
    destruct (IH c Hc Hr) as (e & El & He).
    rewrite last_opt_cons in El by discriminate. eauto.
Qed.

Lemma is_name_trimmed (n : str) : is_name n = true -> trimmed n /\ n <> [].
Proof.
  destruct n as [|c r]; [discriminate |]. simpl. rewrite andb_true_iff.
  intros [Hc Hr]. split; [| discriminate]. split.
  - simpl. apply name_char_props, Hc.
  - destruct (words_ok_last r c Hc Hr) as (d & -> & Hd). simpl.
    apply name_char_props, Hd.
Qed.

Lemma rstrip_spaces (s ws : str) :
  forallb is_space ws = true -> rstrip (s ++ ws) = rstrip s.
Proof.
  intros H. unfold rstrip. rewrite rev_app_distr. rewrite lstrip_spaces; [reflexivity |].
  rewrite forallb_forall in *. intros x Hx. apply H, in_rev, Hx.
Qed.

Lemma padded_strip (n p : str) :
  is_name n = true -> padded n p -> strip p = n.
Proof.
  intros N (wa & wb & -> & Wa & Wb). destruct (is_name_trimmed n N) as ([T1 T2] & Ne).
  unfold strip. rewrite lstrip_spaces by exact Wa.
  rewrite lstrip_fix.
  - rewrite rstrip_spaces by exact Wb. apply rstrip_fix, T2.
  - destruct n as [|c r]; [congruence |]. simpl in *. exact T1.
Qed.

Lemma PAREN_RE_other (p : option ascii) (c : ascii) (r : str) :
  c <> "(" -> PAREN_RE p (c :: r) = None.
Proof.
  intros N. unfold PAREN_RE.
  destruct c as [[] [] [] [] [] [] [] []]; try reflexivity. congruence.
Qed.

Lemma padded_chars (n p : str) :
  is_name n = true -> padded n p ->
  Forall (fun c => c <> "(") p.
Proof.
  intros N (wa & wb & -> & Wa & Wb).
  assert (S : forall w, forallb is_space w = true -> Forall (fun c => c <> "(") w).
  { intros w W. rewrite forallb_forall in W. apply Forall_forall.
    intros c Hc. apply space_props, W, Hc. }
  apply Forall_app. split; [apply S, Wa |]. apply Forall_app. split; [| apply S, Wb].
  eapply Forall_impl; [| apply is_name_chars, N].
  intros c Hc. apply name_char_or_space_props, Hc.
Qed.

Lemma padded_strip_parens (n p : str) :
  is_name n = true -> padded n p -> strip_parens p = n.
Proof.
  intros N P. unfold strip_parens, re_sub.
  rewrite <- (app_nil_r p) at 1. rewrite sub_from_quiet.
  - simpl. rewrite app_nil_r. apply padded_strip; assumption.
  - apply quiet_chars. eapply Forall_impl; [| apply (padded_chars n p N P)].
    intros c Hc q r. rewrite PAREN_RE_other by exact Hc. exact I.
Qed.

Lemma search_from_none (pat : pattern) (pos : nat) (prev : option ascii) (s : str) :
  Forall (fun c => forall p r, pat p (c :: r) = None) s ->
  search_from pat pos prev s = None.
Proof.
  intros F. revert pos prev. induction F as [|c r Hc _ IH]; intros pos prev;
    [reflexivity |].
  simpl. rewrite Hc. apply IH.
Qed.

Lemma name_truncate_lower (n : str) : is_name n = true -> truncate_lower n = n.
Proof.
  intros N. unfold truncate_lower, re_search. rewrite search_from_none; [reflexivity |].
  eapply Forall_impl; [| apply is_name_chars, N].
  intros c Hc p r. destruct (name_char_or_space_props c Hc) as (_ & _ & _ & L & _).
  unfold LOWER_WORD_RE. simpl. rewrite L. reflexivity.
Qed.

Lemma name_upper (n : str) : is_name n = true -> upper n = n.
Proof.
  intros N. pose proof (is_name_chars n N) as F. clear N. unfold upper.
  induction F as [|c r Hc _ IH]; [reflexivity |]. simpl. rewrite IH.
  destruct (name_char_or_space_props c Hc) as (_ & _ & _ & _ & U). rewrite U. reflexivity.
Qed.

Lemma name_rest_words (r : str) (pending : nat) :
  words_ok r = true ->
  (pending <> 0 -> match r with d :: _ => is_name_char d = true | [] => False end) ->
  name_rest pending r = pending + length r.
Proof.
  revert pending; induction r as [|c r IH]; intros pending H P.
  - simpl. destruct pending; [reflexivity | exfalso; apply P; discriminate].
  - simpl in *. destruct (is_name_char c) eqn:Ec.
    + rewrite (IH 0 H) by congruence. lia.
    + rewrite !andb_true_iff in H. destruct H as [[Hsp Hd] Hr].
      apply Ascii.eqb_eq in Hsp. subst c. simpl.
      assert (pending = 0) by (destruct pending; [reflexivity | exfalso; discriminate (P ltac:(discriminate))]).
      subst pending. rewrite (IH 1 Hr).
      * lia.
      * intros _. destruct r; [discriminate | exact Hd].
Qed.

Lemma name_match_name (n : str) : is_name n = true -> name_match n = Some n.
Proof.
  destruct n as [|c r]; [discriminate |]. simpl. rewrite andb_true_iff.
  intros [Hc Hr]. rewrite Hc. f_equal.
  rewrite (name_rest_words r 0 Hr) by congruence. simpl. f_equal. apply firstn_all.
Qed.

(** The context-aware loop body on a padded name: the name is appended
    unless present. *)
Lemma normalize_part_padded (named out : list str) (n p : str) :
  plain_name n = true -> padded n p ->
  normalize_part named out p = append_new out n.
Proof.
  intros Pn P. destruct (plain_name_inv n Pn) as (N & _ & NB & NA).
  destruct (is_name_trimmed n N) as (T & Ne).
  unfold normalize_part, remainder.
  rewrite (padded_strip_parens n p N P).
  assert (E1 : nonempty n = true) by (apply nonempty_true, Ne).
  rewrite E1. cbn [negb]. rewrite (name_truncate_lower n N), E1. cbn [negb].
  rewrite (name_upper n N).
  assert (M : mem n [BOTH; ALL] = false).
  { apply mem_false. simpl. intros [E | [E | []]]; congruence. }
  rewrite M, (name_match_name n N), (strip_fix n T). reflexivity.
Qed.

Lemma fold_normalize_parts (named : list str) (names parts : list str) (out : list str) :
  Forall (fun n => plain_name n = true) names ->
  Forall2 padded names parts ->
  fold_left (normalize_part named) parts out = fold_left append_new names out.
Proof.
  intros F P. revert out. induction P as [|n p names parts Hp _ IH]; intros out;
    [reflexivity |].
  inversion F; subst. simpl. rewrite (normalize_part_padded named out n p); auto.
Qed.

Lemma strip_parts (names parts : list str) :
  Forall (fun n => plain_name n = true) names ->
  Forall2 padded names parts ->
  filter nonempty (map strip parts) = names.
Proof.
  intros F P. induction P as [|n p names parts Hp _ IH]; [reflexivity |].
  inversion F; subst. destruct (plain_name_inv n H1) as (N & _).
  destruct (is_name_trimmed n N) as (_ & Ne).
  simpl. rewrite (padded_strip n p N Hp).
  assert (E1 : nonempty n = true) by (apply nonempty_true, Ne).
  rewrite E1, IH by assumption. reflexivity.
Qed.

(** C10 (as the code has it). For names of upper-case letters, digits,
    apostrophes and hyphens, with words separated by single spaces, none of
    them "BOTH" or "ALL", none holding "AND" as a word of its own, pairwise
    distinct, separated by a comma, a slash or an ampersand with any white
    space around it, or by the word "and" (in any letter case) standing on
    its own: [normalize_and_extract.normalize_token], with any candidate
    list, and [segments_to_csv.normalize_token] return the same string, the
    names joined by ", ". *)
Theorem C10_normalizers_agree_on_plain_names :
  forall (n0 : str) (rest : list (str * str)) (named : list str),
    Forall (fun n => plain_name n = true) (n0 :: map snd rest) ->
    seps_ok n0 rest = true ->
    NoDup (n0 :: map snd rest) ->
    normalize_token (inner_of n0 rest) named
      = SegmentsToCsv.normalize_token (inner_of n0 rest)
    /\ SegmentsToCsv.normalize_token (inner_of n0 rest)
       = join (lit ", ") (n0 :: map snd rest).
Proof.
  intros n0 rest named Fn Fs ND.
  assert (P0 : plain_name n0 = true) by (inversion Fn; assumption).
  destruct (items_of_rest rest n0 Fs) as (items & Fi & E).
  { inversion Fn; assumption. }
  subst rest. rewrite <- item_names in *.
  pose proof (ctx_parts n0 items P0 Fi) as Pc.
  pose proof (free_parts n0 items P0 Fi) as Pf.
  assert (Free : SegmentsToCsv.normalize_token (inner_of n0 (map item_text items))
                 = join (lit ", ") (n0 :: map item_name items)).
  { unfold SegmentsToCsv.normalize_token. cbv zeta.
    rewrite (strip_parts _ _ Fn Pf). reflexivity. }
  split; [| exact Free]. rewrite Free.
  unfold normalize_token, out_parts_of.
  rewrite (fold_normalize_parts named _ _ [] Fn Pc).
  change (fold_left append_new (n0 :: map item_name items) [])
    with (expand (n0 :: map item_name items) []).
  rewrite expand_fresh, fresh_NoDup_disjoint by (auto || exact ND).
  reflexivity.
Qed.

Lemma C10_normalizers_agree_on_plain_names_witness :
  let n0 := ODYSSEUS in
  let rest := [(lit " & ", lit "CREW MEMBER"); (lit " and ", lit "O'NEIL-2");
               (lit "/", lit "'TIS-"); (lit "AND ", lit "X")] in
  Forall (fun n => plain_name n = true) (n0 :: map snd rest)
  /\ seps_ok n0 rest = true
  /\ NoDup (n0 :: map snd rest)
  /\ normalize_token (inner_of n0 rest) [PENELOPE]
     = SegmentsToCsv.normalize_token (inner_of n0 rest).
Proof.
  intros n0 rest.
  assert (Fn : Forall (fun n => plain_name n = true) (n0 :: map snd rest))
    by (repeat constructor).
  assert (Fs : seps_ok n0 rest = true) by reflexivity.
  assert (ND : NoDup (n0 :: map snd rest)).
  { repeat constructor; simpl; intuition discriminate. }
  split; [exact Fn |]. split; [exact Fs |]. split; [exact ND |].
  exact (proj1 (C10_normalizers_agree_on_plain_names n0 rest [PENELOPE] Fn Fs ND)).
Defined.

(** C10 as stated fails: "SALT AND PEPPER" and "PEPPER" are two distinct
    names of upper-case words, separated by a comma; the context-aware
    normalizer splits at "AND" and drops the repeated PEPPER, the context-free
    one keeps it. *)
Lemma C10_name_with_AND_counterexample :
  is_name (lit "SALT AND PEPPER") = true
  /\ is_name (lit "PEPPER") = true
  /\ lit "SALT AND PEPPER" <> lit "PEPPER"
  /\ seps_ok (lit "SALT AND PEPPER") [(lit ", ", lit "PEPPER")] = true
  /\ inner_of (lit "SALT AND PEPPER") [(lit ", ", lit "PEPPER")]
     = lit "SALT AND PEPPER, PEPPER"
  /\ normalize_token (lit "SALT AND PEPPER, PEPPER") [] = lit "SALT, PEPPER"
  /\ SegmentsToCsv.normalize_token (lit "SALT AND PEPPER, PEPPER")
     = lit "SALT, PEPPER, PEPPER"
  /\ normalize_token (lit "SALT AND PEPPER, PEPPER") []
     <> SegmentsToCsv.normalize_token (lit "SALT AND PEPPER, PEPPER").
Proof. repeat split; vm_compute; congruence. Qed.

(* ================================================================== *)
(** ** Further properties: the per-character aggregation *)

Lemma case_char_props (c : ascii) :
  is_alpha (upper_char c) = is_alpha c /\ is_alpha (lower_char c) = is_alpha c /\
  upper_char (upper_char c) = upper_char c /\ lower_char (lower_char c) = lower_char c.
Proof. by_cases_on c. Qed.

Lemma title_from_idem (b : bool) (s : str) :
  title_from b (title_from b s) = title_from b s.
Proof.
  revert b; induction s as [|c r IH]; intros b; simpl; [reflexivity |].
  destruct (case_char_props c) as (Hu & Hl & Huu & Hll).
  destruct b; rewrite ?Hu, ?Hl, ?Huu, ?Hll, IH; reflexivity.
Qed.

Lemma title_idem (s : str) : title (title s) = title s.
Proof. apply title_from_idem. Qed.

Lemma lookup_dict_append (key k c : str) (d : list (str * list str)) :
  lookup key (dict_append k c d)
  = if str_eqb k key then extend (lookup key d) [c] else lookup key d.
Proof.
  induction d as [|[k0 v0] d IH]; simpl.
  - destruct (str_eqb k key); reflexivity.
  - destruct (str_eqb k0 k) eqn:E0; simpl.
    + apply str_eqb_eq in E0 as ->.
      destruct (str_eqb k key); reflexivity.
    + destruct (str_eqb k0 key) eqn:E1.
      * destruct (str_eqb k key) eqn:E2; [| reflexivity].
        apply str_eqb_eq in E1 as ->. apply str_eqb_eq in E2 as ->.
        rewrite str_eqb_refl in E0. discriminate.
      * exact IH.
Qed.

Lemma extend_nil (o : option (list str)) : extend o [] = o.
Proof. destruct o as [v|]; simpl; [rewrite app_nil_r |]; reflexivity. Qed.

Lemma extend_app (o : option (list str)) (a b : list str) :
  extend (extend o a) b = extend o (a ++ b).
Proof.
  destruct o as [v|]; simpl.
  - rewrite app_assoc. reflexivity.
  - destruct a as [|x a]; simpl; [destruct b; reflexivity | reflexivity].
Qed.

Lemma lookup_speakers (key content : str) (speakers : list str)
    (d : list (str * list str)) :
  lookup key (fold_left (fun d s => dict_append (title s) content d) speakers d)
  = extend (lookup key d)
      (map (fun _ => content) (filter (fun s => str_eqb (title s) key) speakers)).
Proof.
  revert d; induction speakers as [|s speakers IH]; intros d; simpl.
  - symmetry; apply extend_nil.
  - rewrite IH, lookup_dict_append.
    destruct (str_eqb (title s) key); simpl; [| reflexivity].
    apply (extend_app _ [content]).
Qed.

Lemma lookup_by_char (key : str) (segs : list segment) (d : list (str * list str)) :
  lookup key (fold_left by_char_step segs d)
  = extend (lookup key d) (contributions key segs).
Proof.
  revert d; induction segs as [|[sp ct] segs IH]; intros d; simpl.
  - symmetry; apply extend_nil.
  - rewrite IH. unfold contribution; simpl.
    destruct (nonempty ct); simpl; [| reflexivity].
    rewrite lookup_speakers. apply extend_app.
Qed.

Lemma dict_append_NoDup (key content : str) (d : list (str * list str)) :
  NoDup (map fst d) -> NoDup (map fst (dict_append key content d)).
Proof.
  induction d as [|[k v] d IH]; simpl; intros H.
  - constructor; [intros [] | constructor].
  - destruct (str_eqb k key) eqn:E; simpl; [exact H |].
    inversion H as [|? ? Hn Hd]; subst. constructor; [| auto].
    intros Hin. apply dict_append_keys in Hin as [-> | Hin]; [| auto].
    rewrite str_eqb_refl in E. discriminate.
Qed.

Lemma by_char_NoDup (segs : list segment) (d : list (str * list str)) :
  NoDup (map fst d) -> NoDup (map fst (fold_left by_char_step segs d)).
Proof.
  revert d; induction segs as [|[sp ct] segs IH]; intros d H; simpl; [exact H |].
  apply IH. destruct (nonempty ct); simpl; [| exact H].
  clear IH. revert d H; induction sp as [|s sp IHs]; intros d H; simpl; [exact H |].
  apply IHs, dict_append_NoDup, H.
Qed.

Lemma lookup_In (key : str) (v : list str) (d : list (str * list str)) :
  NoDup (map fst d) -> (In (key, v) d <-> lookup key d = Some v).
Proof.
  induction d as [|[k0 v0] d IH]; simpl; intros H.
  - split; [intros [] | discriminate].
  - inversion H as [|? ? Hn Hd]; subst. specialize (IH Hd).
    destruct (str_eqb k0 key) eqn:E.
    + apply str_eqb_eq in E as ->. split.
      * intros [E | Hin]; [congruence |].
        exfalso. apply Hn. apply (in_map fst) in Hin. exact Hin.
      * intros E; left; congruence.
    + rewrite <- IH. split; [| tauto].
      intros [E' | Hin]; [| exact Hin].
      injection E' as -> ->. rewrite str_eqb_refl in E. discriminate.
Qed.

Lemma extend_None (l v : list str) :
  extend None l = Some v <-> l <> [] /\ v = l.
Proof.
  destruct l as [|x l]; simpl.
  - split; [discriminate | intros [H _]; congruence].
  - split; [intros E; split; [discriminate | congruence] | intros [_ ->]; reflexivity].
Qed.

Lemma contributions_nonempty (key : str) (segs : list segment) :
  Forall (fun t => t <> []) (contributions key segs).
Proof.
  unfold contributions. induction segs as [|[sp ct] segs IH]; simpl; [constructor |].
  apply Forall_app; split; [| exact IH].
  unfold contribution; simpl. destruct (nonempty ct) eqn:E; [| constructor].
  apply nonempty_true in E.
  induction (filter _ sp); simpl; constructor; auto.
Qed.

Lemma join_not_nil (sep : str) (l : list str) :
  l <> [] -> Forall (fun t => t <> []) l -> join sep l <> [].
Proof.
  destruct l as [|x l]; [congruence |]. intros _ H.
  inversion H as [|? ? Hx _]; subst.
  destruct x as [|c x]; [congruence |]. destruct l; discriminate.
Qed.

Lemma rows_lookup (segs : list segment) (key text : str) :
  In (key, text) (character_rows segs) <->
  exists v, lookup key (by_char_of segs) = Some v /\ text = join [LF; LF] v.
Proof.
  unfold character_rows. rewrite in_map_iff. split.
  - intros ([k v] & E & Hin). simpl in E. injection E as -> <-.
    exists v. split; [| reflexivity].
    apply lookup_In; [| exact Hin]. apply by_char_NoDup. constructor.
  - intros (v & E & ->). exists (key, v). split; [reflexivity |].
    apply lookup_In; [| exact E]. apply by_char_NoDup. constructor.
Qed.

(** X1. The rows [extract_all] writes for one song have pairwise distinct
    characters: every character of the song gets one row. *)
Theorem X1_one_row_per_character :
  forall segs : list segment, NoDup (map fst (character_rows segs)).
Proof.
  intros segs. unfold character_rows. rewrite map_map. simpl.
  apply by_char_NoDup. constructor.
Qed.

(** X2. A character has a row for a song exactly when some segment with
    non-empty text names it (up to title-casing), and the text of the row is
    then the texts of these segments, in document order, joined by blank
    lines; a segment that names the character twice contributes its text
    twice. *)
Theorem X2_row_collects_the_segments_of_a_character :
  forall (segs : list segment) (key text : str),
    In (key, text) (character_rows segs) <->
    contributions key segs <> [] /\
    text = join [LF; LF] (contributions key segs).
Proof.
  intros segs key text. rewrite rows_lookup.
  unfold by_char_of. rewrite lookup_by_char. simpl. split.
  - intros (v & E & ->). apply extend_None in E as [Hne ->]. auto.
  - intros [Hne ->]. exists (contributions key segs). split; [| reflexivity].
    apply extend_None. auto.
Qed.

(** X3. Every row of a song carries a character name in title case and a
    non-empty text. *)
Theorem X3_rows_title_case_and_non_empty :
  forall segs : list segment,
    Forall (fun row => title (fst row) = fst row /\ snd row <> [])
      (character_rows segs).
Proof.
  intros segs. apply Forall_forall. intros [key text] Hin. simpl. split.
  - apply (in_map fst) in Hin. unfold character_rows in Hin.
    rewrite map_map in Hin. simpl in Hin.
    apply by_char_keys in Hin as [[] | (sp & ct & _ & _ & Hk)].
    apply in_map_iff in Hk as (s & <- & _). apply title_idem.
  - apply rows_lookup in Hin as (v & E & ->).
    unfold by_char_of in E. rewrite lookup_by_char in E. simpl in E.
    apply extend_None in E as [Hne ->].
    apply join_not_nil; [exact Hne | apply contributions_nonempty].
Qed.

(** A segment that names a character in two letter cases gives its text to
    the character twice. *)
Example repeated_speaker_repeats_text :
  character_rows [([lit "ZEUS"; lit "zeus"], lit "Hi")]
  = [(lit "Zeus", lit "Hi" ++ [LF; LF] ++ lit "Hi")].
Proof. vm_compute. reflexivity. Qed.

(* ================================================================== *)
(** ** Further properties: file names *)

Import ScrapeLyrics.

Lemma FORBIDDEN_RE_removes (prev : option ascii) (skip : nat) (s : str) :
  Forall (fun c => is_forbidden c = false) (sub_from FORBIDDEN_RE [] prev skip s).
Proof.
  revert prev skip; induction s as [|c r IH]; intros prev skip; simpl; [constructor |].
  destruct skip as [|k]; [| apply IH].
  unfold FORBIDDEN_RE at 1. destruct (is_forbidden c) eqn:E; simpl.
  - apply IH.
  - constructor; [exact E | apply IH].
Qed.

(** After every run of a class is replaced, a character comes from the
    replacement or is a character of the text outside the class. *)
Lemma run_sub_chars (p : ascii -> bool) (repl : str) (Q : ascii -> Prop)
    (prev : option ascii) (skip : nat) (s : str) :
  Forall Q s ->
  Forall (fun c => In c repl \/ (p c = false /\ Q c))
    (sub_from (run_pattern p 1) repl prev skip s).
Proof.
  intros H. revert prev skip.
  induction H as [|c r Hc _ IH]; intros prev skip; simpl; [constructor |].
  destruct skip as [|k]; [| apply IH].
  unfold run_pattern at 1. cbv zeta. simpl run_len.
  destruct (p c) eqn:E; simpl.
  - apply Forall_app. split; [| apply IH].
    apply Forall_forall. intros x Hx. left; exact Hx.
  - constructor; [right; auto | apply IH].
Qed.

Lemma replace_char_chars (a b : ascii) (Q : ascii -> Prop) (s : str) :
  Q b -> Forall (fun c => c <> a -> Q c) s -> Forall Q (replace [a] [b] s).
Proof.
  intros Hb H. unfold replace.
  induction H as [|c r Hc _ IH]; [constructor |].
  cbn [replace_from starts_with length Nat.sub].
  destruct (Ascii.eqb_spec a c) as [<- | N]; cbn [andb app].
  - constructor; [exact Hb | exact IH].
  - constructor; [apply Hc; congruence | exact IH].
Qed.


Lemma no_space_trimmed (s : str) :
  Forall (fun c => is_space c = false) s -> trimmed s.
Proof.
  intros H. rewrite Forall_forall in H. split.
  - destruct s as [|c r]; [reflexivity |]. apply H. left; reflexivity.
  - unfold last_opt. destruct (rev s) as [|c r] eqn:E; [reflexivity |].
    apply H. apply in_rev. rewrite E. left; reflexivity.
Qed.

Lemma no_class_runs_below (p : ascii -> bool) (s : str) :
  Forall (fun c => p c = false) s -> runs_below p 1 s.
Proof.
  induction 1 as [|c r Hc _ IH]; simpl; [exact I |].
  rewrite Hc. split; [lia | exact IH].
Qed.

Lemma safe_filename_chars (s : str) :
  Forall (fun c => is_forbidden c = false /\ is_space c = false) (safe_filename s).
Proof.
  unfold safe_filename. apply replace_char_chars; [split; reflexivity |].
  eapply Forall_impl;
    [| apply (run_sub_chars is_space [" "] (fun c => is_forbidden c = false));
       apply FORBIDDEN_RE_removes].
  intros c [[<- | []] | [Hs Hf]] N; [congruence | auto].
Qed.

(** X4. A file name made by [safe_filename] holds no backslash, slash,
    colon, asterisk, question mark, double quote, angle bracket or vertical
    bar, and no white space. *)
Theorem X4_safe_filename_has_no_unsafe_character :
  forall s : str,
    Forall (fun c => is_forbidden c = false /\ is_space c = false)
      (safe_filename s).
Proof. exact safe_filename_chars. Qed.

(** X5. [safe_filename] leaves its own results as they are. *)
Theorem X5_safe_filename_idempotent :
  forall s : str, safe_filename (safe_filename s) = safe_filename s.
Proof.
  intros s. pose proof (safe_filename_chars s) as H.
  set (t := safe_filename s) in *. unfold safe_filename at 1.
  assert (Hs : Forall (fun c => is_space c = false) t)
    by (eapply Forall_impl; [| exact H]; intros c [_ Hc]; exact Hc).
  assert (Hf : Forall (fun c => is_forbidden c = false) t)
    by (eapply Forall_impl; [| exact H]; intros c [Hc _]; exact Hc).
  rewrite strip_fix by (apply no_space_trimmed, Hs).
  assert (E1 : re_sub FORBIDDEN_RE [] t = t).
  { unfold re_sub. rewrite <- (app_nil_r t) at 1.
    rewrite sub_from_quiet; [simpl; apply app_nil_r |].
    apply quiet_chars. eapply Forall_impl; [| exact Hf].
    intros c Hc p r. unfold FORBIDDEN_RE. rewrite Hc. exact I. }
  rewrite E1.
  change (re_sub SPACES_RE [" "] t) with (rsub is_space 1 [" "] t).
  rewrite rsub_fix by (apply no_class_runs_below, Hs).
  apply replace_absent. apply Forall_not_In.
  eapply Forall_impl; [| exact Hs]. intros c Hc ->. discriminate.
Qed.



(** An underscore of the title comes back as a space. *)
Example underscore_read_back_as_space :
  song_of_stem (safe_filename (lit "A_B")) = lit "A B".
Proof. vm_compute. reflexivity. Qed.

(* ================================================================== *)
(** ** Further properties: the train/test split *)

Import SplitAndStats.

Lemma select_from {A : Type} (keep : nat -> bool) (pre r : list A) :
  flat_map
    (fun i =>
       if keep i
       then match nth_error (pre ++ r) i with Some x => [x] | None => [] end
       else [])
    (seq (length pre) (length r))
  = filter_from keep (length pre) r.
Proof.
  revert pre; induction r as [|x r IH]; intros pre; [reflexivity |].
  cbn [length seq flat_map filter_from].
  specialize (IH (pre ++ [x])). rewrite <- app_assoc in IH. simpl in IH.
  rewrite length_app in IH. simpl in IH. rewrite Nat.add_1_r in IH.
  rewrite IH. rewrite nth_error_app2 by lia. rewrite Nat.sub_diag. simpl.
  destruct (keep (length pre)); reflexivity.
Qed.

Lemma select_filter_from {A : Type} (keep : nat -> bool) (rows : list A) :
  select keep rows = filter_from keep 0 rows.
Proof. exact (select_from keep [] rows). Qed.

Lemma filter_from_partition {A : Type} (keep : nat -> bool) (k : nat) (r : list A) :
  Permutation (filter_from (fun i => negb (keep i)) k r ++ filter_from keep k r) r.
Proof.
  revert k; induction r as [|x r IH]; intros k; simpl; [constructor |].
  destruct (keep k); simpl.
  - apply Permutation_sym, Permutation_cons_app, Permutation_sym, IH.
  - constructor. apply IH.
Qed.

Lemma filter_from_length {A : Type} (keep : nat -> bool) (k : nat) (r : list A) :
  length (filter_from keep k r) = length (filter keep (seq k (length r))).
Proof.
  revert k; induction r as [|x r IH]; intros k; simpl; [reflexivity |].
  destruct (keep k); simpl; rewrite IH; reflexivity.
Qed.

Lemma filter_from_all {A : Type} (keep : nat -> bool) (k : nat) (r : list A) :
  (forall i, k <= i < k + length r -> keep i = true) -> filter_from keep k r = r.
Proof.
  revert k; induction r as [|x r IH]; intros k H; simpl; [reflexivity |].
  rewrite H by (simpl; lia). f_equal. apply IH.
  intros i Hi. apply H. simpl. lia.
Qed.

Lemma filter_from_none {A : Type} (keep : nat -> bool) (k : nat) (r : list A) :
  (forall i, k <= i < k + length r -> keep i = false) -> filter_from keep k r = [].
Proof.
  revert k; induction r as [|x r IH]; intros k H; simpl; [reflexivity |].
  rewrite H by (simpl; lia). apply IH.
  intros i Hi. apply H. simpl. lia.
Qed.

Lemma mem_nat_In (i : nat) (l : list nat) : mem_nat i l = true <-> In i l.
Proof.
  unfold mem_nat. rewrite existsb_exists. split.
  - intros (x & Hx & E). apply Nat.eqb_eq in E. subst. exact Hx.
  - intros H. exists i. split; [exact H | apply Nat.eqb_refl].
Qed.

Lemma NoDup_firstn_nat (c : nat) (l : list nat) : NoDup l -> NoDup (firstn c l).
Proof.
  intros H. rewrite <- (firstn_skipn c l) in H.
  apply NoDup_app_remove_r in H. exact H.
Qed.

Lemma In_firstn_nat (c : nat) (l : list nat) (x : nat) : In x (firstn c l) -> In x l.
Proof.
  intros H. rewrite <- (firstn_skipn c l). apply in_or_app. left; exact H.
Qed.

(** The number of indices of a table that belong to a duplicate-free list
    of indices of the table. *)
Lemma count_members (L S : list nat) :
  NoDup L -> NoDup S -> incl L S ->
  length (filter (fun i => mem_nat i L) S) = length L.
Proof.
  intros HL HS Hin. apply Permutation_length, NoDup_Permutation.
  - apply NoDup_filter, HS.
  - exact HL.
  - intros x. rewrite filter_In, mem_nat_In. split; [tauto |].
    intros H. split; [apply Hin, H | exact H].
Qed.

(** X7. Whatever order the shuffle leaves the indices in, the split puts
    every row in exactly one of the two tables: the training rows followed
    by the test rows are a rearrangement of the table, the test table has
    [test_count] rows (all rows, if there are fewer) and the training table
    has the others. *)
Theorem X7_split_partitions_the_rows :
  forall (A : Type) (rows : list A) (indices : list nat) (test_count : nat),
    Permutation indices (seq 0 (length rows)) ->
    Permutation
      (fst (split_rows rows indices test_count)
         ++ snd (split_rows rows indices test_count)) rows
    /\ length (snd (split_rows rows indices test_count))
       = Nat.min test_count (length rows)
    /\ length (fst (split_rows rows indices test_count))
       = length rows - Nat.min test_count (length rows).
Proof.
  intros A rows indices test_count P. unfold split_rows. cbn [fst snd].
  rewrite !select_filter_from.
  set (keep := fun i => mem_nat i (firstn test_count indices)).
  pose proof (filter_from_partition keep 0 rows) as Part.
  assert (Len : length (filter_from keep 0 rows)
                = Nat.min test_count (length rows)).
  { rewrite filter_from_length. unfold keep. rewrite count_members.
    - rewrite length_firstn, (Permutation_length P), length_seq. reflexivity.
    - apply NoDup_firstn_nat.
      apply (Permutation_NoDup (Permutation_sym P)), seq_NoDup.
    - apply seq_NoDup.
    - intros x Hx. apply (Permutation_in _ P), (In_firstn_nat _ _ _ Hx). }
  change (filter_from (fun i => negb (mem_nat i (firstn test_count indices))) 0 rows)
    with (filter_from (fun i => negb (keep i)) 0 rows).
  split; [exact Part |]. split; [exact Len |].
  apply Permutation_length in Part. rewrite length_app in Part. lia.
Qed.

Lemma X7_split_partitions_the_rows_witness :
  Permutation
    (fst (split_rows [10; 20; 30] [2; 0; 1] 1)
       ++ snd (split_rows [10; 20; 30] [2; 0; 1] 1)) [10; 20; 30]
  /\ length (snd (split_rows [10; 20; 30] [2; 0; 1] 1)) = Nat.min 1 3
  /\ length (fst (split_rows [10; 20; 30] [2; 0; 1] 1)) = 3 - Nat.min 1 3.
Proof.
  apply (X7_split_partitions_the_rows nat [10; 20; 30] [2; 0; 1] 1).
  simpl. apply Permutation_sym, (Permutation_cons_app [2] [1]), perm_swap.
Defined.

(** X8. When the number of test rows asked for is the size of the table or
    more, as it is for a table of one row, every row goes to the test table
    and the training table is empty. *)
Theorem X8_split_of_a_small_table :
  forall (A : Type) (rows : list A) (indices : list nat) (test_count : nat),
    Permutation indices (seq 0 (length rows)) ->
    length rows <= test_count ->
    split_rows rows indices test_count = ([], rows).
Proof.
  intros A rows indices test_count P Hle. unfold split_rows.
  rewrite !select_filter_from.
  assert (K : forall i, 0 <= i < 0 + length rows ->
                mem_nat i (firstn test_count indices) = true).
  { intros i Hi. apply mem_nat_In. rewrite firstn_all2.
    - apply (Permutation_in _ (Permutation_sym P)), in_seq. lia.
    - rewrite (Permutation_length P), length_seq. exact Hle. }
  f_equal.
  - apply filter_from_none. intros i Hi. rewrite K by exact Hi. reflexivity.
  - apply filter_from_all, K.
Qed.

Lemma X8_split_of_a_small_table_witness :
  split_rows [lit "only row"] [0] 1 = ([], [lit "only row"]).
Proof.
  apply (X8_split_of_a_small_table str [lit "only row"] [0] 1).
  - apply Permutation_refl.
  - simpl. lia.
Defined.

(* ================================================================== *)
(** ** Further properties: name lists without repetition *)

Lemma NoDup_snoc (l : list str) (x : str) :
  NoDup l -> ~ In x l -> NoDup (l ++ [x]).
Proof.
  intros Hl Hx. apply NoDup_rev in Hl. rewrite <- (rev_involutive (l ++ [x])).
  apply NoDup_rev. rewrite rev_app_distr. simpl. constructor; [| exact Hl].
  rewrite <- in_rev. exact Hx.
Qed.

Lemma snoc_new_NoDup (l : list str) (x : str) (b : bool) :
  NoDup l -> NoDup (if b && negb (mem x l) then l ++ [x] else l).
Proof.
  intros H. destruct b; simpl; [| exact H].
  destruct (mem x l) eqn:E; simpl; [exact H |].
  apply NoDup_snoc; [exact H | apply mem_false, E].
Qed.

Lemma append_new_NoDup (l : list str) (x : str) :
  NoDup l -> NoDup (append_new l x).
Proof.
  intros H. unfold append_new.
  destruct (mem x l) eqn:E; [exact H |].
  apply NoDup_snoc; [exact H | apply mem_false, E].
Qed.

Lemma expand_NoDup (named out : list str) : NoDup out -> NoDup (expand named out).
Proof.
  unfold expand. revert out; induction named as [|n named IH]; intros out H; simpl;
    [exact H | apply IH, append_new_NoDup, H].
Qed.

Lemma normalize_part_NoDup (named out : list str) (p : str) :
  NoDup out -> NoDup (normalize_part named out p).
Proof.
  intros H. unfold normalize_part. destruct (remainder p) as [up|]; [| exact H].
  destruct (mem up [BOTH; ALL]); [apply expand_NoDup, H |].
  destruct (name_match up) as [g|]; [apply append_new_NoDup, H |].
  apply snoc_new_NoDup, H.
Qed.

Lemma candidate_part_NoDup (names : list str) (p : str) :
  NoDup names -> NoDup (candidate_part names p).
Proof.
  intros H. unfold candidate_part.
  destruct (negb (nonempty (strip_parens p))); [exact H |].
  destruct (name_match _) as [g|]; [apply snoc_new_NoDup, H |].
  destruct (mem _ [ALL; BOTH]); [apply append_new_NoDup, H | exact H].
Qed.

Lemma fold_left_invariant {A B : Type} (P : A -> Prop) (f : A -> B -> A)
    (l : list B) (a : A) :
  (forall a b, P a -> P (f a b)) -> P a -> P (fold_left f l a).
Proof.
  intros Hf. revert a; induction l as [|b l IH]; intros a Ha; simpl;
    [exact Ha | apply IH, Hf, Ha].
Qed.

(** X9. The list of names [normalize_token] joins never holds a name twice,
    whatever the inner text and the candidate list, even one with
    repetitions. *)
Theorem X9_canonical_list_without_repetition :
  forall (inner : str) (named : list str), NoDup (out_parts_of inner named).
Proof.
  intros inner named. unfold out_parts_of.
  apply fold_left_invariant; [| constructor].
  intros a b. apply normalize_part_NoDup.
Qed.

(** X10. The candidate list [extract_named_candidates] returns holds no name
    twice. *)
Theorem X10_candidates_without_repetition :
  forall text : str, NoDup (extract_named_candidates text).
Proof.
  intros text. unfold extract_named_candidates.
  apply fold_left_invariant; [| constructor].
  intros a m Ha. apply fold_left_invariant; [| exact Ha].
  intros a' p. apply candidate_part_NoDup.
Qed.

(* ================================================================== *)
(** ** Further properties: well-formed names *)

Lemma upper_plain (c : ascii) : plain_char c -> plain_char (upper_char c).
Proof. unfold plain_char. by_cases_on c. Qed.

Lemma sep_char_comma (c : ascii) : is_sep_char c = false -> c <> ",".
Proof. intros H ->. discriminate. Qed.

Lemma split_from_not_nil (pat : pattern) (prev : option ascii) (skip : nat) (s : str) :
  split_from pat prev skip s <> [].
Proof.
  revert prev skip; induction s as [|c r IH]; intros prev skip; simpl; [discriminate |].
  destruct skip as [|k]; [| apply IH].
  destruct (pat prev (c :: r)) as [[|k]|]; try discriminate;
    (specialize (IH (Some c) 0); destruct (split_from pat (Some c) 0 r);
     [congruence | discriminate]).
Qed.

(** The parts between the separators hold no comma. *)
Lemma split_SEP_chars (Q : ascii -> Prop) (prev : option ascii) (skip : nat) (s : str) :
  Forall Q s ->
  Forall (Forall (fun c => c <> "," /\ Q c)) (split_from SEP_RE prev skip s).
Proof.
  intros H. revert prev skip.
  induction H as [|c r Hc _ IH]; intros prev skip; simpl; [repeat constructor |].
  destruct skip as [|k]; [| apply IH].
  assert (K : is_sep_char c = false ->
              Forall (Forall (fun c => c <> "," /\ Q c))
                (cons_head c (split_from SEP_RE (Some c) 0 r))).
  { intros S. apply Forall_cons_head; [apply split_from_not_nil | | apply IH].
    intros h Hh. constructor; [| exact Hh]. split; [apply sep_char_comma, S | exact Hc]. }
  destruct (SEP_RE prev (c :: r)) as [[|k]|] eqn:E.
  - apply K. unfold SEP_RE in E. destruct (is_sep_char c); [discriminate | reflexivity].
  - constructor; [constructor | apply IH].
  - apply K. unfold SEP_RE in E. destruct (is_sep_char c); [discriminate | reflexivity].
Qed.

Lemma Forall_firstn_chars (Q : ascii -> Prop) (n : nat) (s : str) :
  Forall Q s -> Forall Q (firstn n s).
Proof.
  intros H. rewrite <- (firstn_skipn n s) in H. apply Forall_app in H. tauto.
Qed.

Lemma strip_parens_chars (Q : ascii -> Prop) (p : str) :
  Forall Q p -> Forall Q (strip_parens p).
Proof.
  intros H. unfold strip_parens. apply Forall_strip, Forall_sub_from; [constructor | exact H].
Qed.

Lemma truncate_lower_chars (Q : ascii -> Prop) (p : str) :
  Forall Q p -> Forall Q (truncate_lower p).
Proof.
  intros H. unfold truncate_lower. destruct (re_search LOWER_WORD_RE p); [| exact H].
  apply Forall_strip, Forall_firstn_chars, H.
Qed.

Lemma name_match_chars (Q : ascii -> Prop) (s g : str) :
  name_match s = Some g -> (Forall Q s -> Forall Q g) /\ strip g <> [].
Proof.
  unfold name_match. destruct s as [|c r]; [discriminate |].
  destruct (is_name_char c) eqn:N; [| discriminate].
  intros E; injection E as <-. split;
    [intros H; exact (Forall_firstn_chars Q (1 + name_rest 0 r) (c :: r) H) |].
  intros H. apply strip_nil_iff in H. simpl in H.
  apply andb_true_iff in H as [H _].
  apply name_char_props in N as (N & _). congruence.
Qed.

Lemma stripped_well_formed (s : str) :
  strip s <> [] -> Forall plain_char s -> well_formed (strip s).
Proof.
  intros Hne H. split; [exact Hne |]. split; [apply strip_trimmed |].
  apply Forall_strip, H.
Qed.

Lemma snoc_well_formed (l : list str) (x : str) :
  Forall well_formed l -> well_formed x -> Forall well_formed (l ++ [x]).
Proof.
  intros Hl Hx. apply Forall_app. split; [exact Hl |].
  constructor; [exact Hx | constructor].
Qed.

Lemma append_new_well_formed (l : list str) (x : str) :
  Forall well_formed l -> well_formed x -> Forall well_formed (append_new l x).
Proof.
  intros Hl Hx. unfold append_new. destruct (mem x l); [exact Hl |].
  apply snoc_well_formed; assumption.
Qed.

Lemma expand_well_formed (named out : list str) :
  Forall well_formed named -> Forall well_formed out ->
  Forall well_formed (expand named out).
Proof.
  unfold expand. intros Hn. revert out.
  induction Hn as [|n named Hx _ IH]; intros out Ho; simpl; [exact Ho |].
  apply IH, append_new_well_formed; assumption.
Qed.

Lemma placeholder_well_formed (up : str) :
  In up [ALL; BOTH] -> well_formed up.
Proof.
  intros [<- | [<- | []]]; (split; [discriminate |]; split;
    [split; reflexivity | repeat constructor; discriminate]).
Qed.

Lemma normalize_part_well_formed (named out : list str) (p : str) :
  Forall well_formed named -> Forall well_formed out -> Forall plain_char p ->
  Forall well_formed (normalize_part named out p).
Proof.
  intros Hn Ho Hp. unfold normalize_part, remainder.
  destruct (negb (nonempty (strip_parens p))); [exact Ho |].
  destruct (negb (nonempty (truncate_lower (strip_parens p)))); [exact Ho |].
  set (up := upper (truncate_lower (strip_parens p))).
  assert (Hup : Forall plain_char up).
  { unfold up, upper. apply Forall_map.
    eapply Forall_impl; [exact upper_plain |].
    apply truncate_lower_chars, strip_parens_chars, Hp. }
  destruct (mem up [BOTH; ALL]); [apply expand_well_formed; assumption |].
  destruct (name_match up) as [g|] eqn:G.
  - apply (name_match_chars plain_char) in G as [Hg Hne].
    apply append_new_well_formed; [exact Ho |].
    apply stripped_well_formed; auto.
  - destruct (nonempty (strip up)) eqn:Ne; simpl; [| exact Ho].
    destruct (mem (strip up) out); simpl; [exact Ho |].
    apply snoc_well_formed; [exact Ho |].
    apply stripped_well_formed; [apply nonempty_true, Ne | exact Hup].
Qed.

Lemma candidate_part_well_formed (names : list str) (p : str) :
  Forall well_formed names -> Forall plain_char p ->
  Forall well_formed (candidate_part names p).
Proof.
  intros Hn Hp. unfold candidate_part.
  destruct (negb (nonempty (strip_parens p))); [exact Hn |].
  destruct (name_match _) as [g|] eqn:G.
  - apply (name_match_chars plain_char) in G as [Hg Hne].
    destruct (nonempty (strip g)); simpl; [| exact Hn].
    destruct (mem (strip g) names); simpl; [exact Hn |].
    apply snoc_well_formed; [exact Hn |].
    apply stripped_well_formed; [exact Hne |].
    apply Hg, truncate_lower_chars, strip_parens_chars, Hp.
  - destruct (mem _ [ALL; BOTH]) eqn:M; [| exact Hn].
    apply append_new_well_formed; [exact Hn |].
    apply placeholder_well_formed, mem_In, M.
Qed.

Lemma parts_plain (inner : str) :
  ~ In "]" inner -> Forall (Forall plain_char) (re_split SEP_RE inner).
Proof.
  intros H. apply split_SEP_chars, Forall_not_In, H.
Qed.

Lemma fold_parts_invariant (P : list str -> Prop) (f : list str -> str -> list str)
    (parts : list str) (a : list str) :
  (forall a p, P a -> Forall plain_char p -> P (f a p)) ->
  Forall (Forall plain_char) parts -> P a -> P (fold_left f parts a).
Proof.
  intros Hf Hp. revert a; induction Hp as [|p parts Hp _ IH]; intros a Ha; simpl;
    [exact Ha | apply IH, Hf; assumption].
Qed.

Lemma out_parts_well_formed (inner : str) (named : list str) :
  Forall well_formed named -> ~ In "]" inner ->
  Forall well_formed (out_parts_of inner named).
Proof.
  intros Hn Hi. unfold out_parts_of.
  apply fold_parts_invariant; [| apply parts_plain, Hi | constructor].
  intros a p Ha Hp. apply normalize_part_well_formed; assumption.
Qed.

(* ================================================================== *)
(** ** Further properties: what the Scanner returns *)

Lemma finditer_from_spans (s done : str) (prev : option ascii) (skip : nat) :
  Forall
    (fun m =>
       m_group1 m <> [] /\ ~ In "]" (m_group1 m) /\
       slice (done ++ s) (m_start m) (m_end m) = ["["] ++ m_group1 m ++ ["]"])
    (finditer_from SPEAKER_RE (length done) prev skip s).
Proof.
  revert done prev skip; induction s as [|c r IH]; intros done prev skip;
    [constructor |].
  assert (Et : (done ++ [c]) ++ r = done ++ c :: r)
    by (rewrite <- app_assoc; reflexivity).
  assert (El : length (done ++ [c]) = S (length done))
    by (rewrite length_app; simpl; lia).
  assert (Next : forall k,
    Forall
      (fun m =>
         m_group1 m <> [] /\ ~ In "]" (m_group1 m) /\
         slice (done ++ c :: r) (m_start m) (m_end m) = ["["] ++ m_group1 m ++ ["]"])
      (finditer_from SPEAKER_RE (S (length done)) (Some c) k r)).
  { intros k. specialize (IH (done ++ [c]) (Some c) k).
    rewrite Et, El in IH. exact IH. }
  cbn [finditer_from]. destruct skip as [|k]; [| apply Next].
  destruct (SPEAKER_RE prev (c :: r)) as [[|k]|] eqn:E; try apply Next.
  constructor; [| apply Next].
  apply SPEAKER_RE_elim in E as (inner & post & E & Ek & Hne & Hall).
  simpl in E. injection E as -> ->.
  assert (k = S (length inner)) by lia. subst k. clear Ek.
  cbn [m_group1 m_start m_end].
  assert (G : firstn (S (length inner) - 1) (inner ++ "]" :: post) = inner).
  { replace (S (length inner) - 1) with (length inner + 0) by lia.
    rewrite firstn_app_2. simpl. apply app_nil_r. }
  rewrite G. split; [exact Hne |]. split; [apply not_close_forall, Hall |].
  rewrite <- (Nat.add_0_r (length done)) at 1. rewrite slice_after.
  replace (length done + S (S (length inner)) - (length done + 0))
    with (S (length inner + 1)) by lia.
  simpl. f_equal.
  replace (inner ++ "]" :: post) with ((inner ++ ["]"]) ++ post)
    by (rewrite <- app_assoc; reflexivity).
  replace (length inner + 1) with (length (inner ++ ["]"]) + 0)
    by (rewrite length_app; simpl; lia).
  rewrite firstn_app_2. simpl. apply app_nil_r.
Qed.

Lemma finditer_groups (text : str) :
  Forall (fun m => m_group1 m <> [] /\ ~ In "]" (m_group1 m)) (finditer text).
Proof.
  eapply Forall_impl; [| apply (finditer_from_spans text [] None 0)].
  intros m (H1 & H2 & _). auto.
Qed.

(** X11. Every match of the Scanner covers an opening bracket, its inner
    text and a closing bracket; the inner text is not empty and holds no
    closing bracket. *)
Theorem X11_scanner_matches_are_bracketed :
  forall text : str,
    Forall
      (fun m =>
         m_group1 m <> [] /\ ~ In "]" (m_group1 m) /\
         slice text (m_start m) (m_end m) = ["["] ++ m_group1 m ++ ["]"])
      (finditer text).
Proof. intros text. exact (finditer_from_spans text [] None 0). Qed.

Lemma candidates_well_formed (text : str) :
  Forall well_formed (extract_named_candidates text).
Proof.
  unfold extract_named_candidates.
  pose proof (finditer_groups text) as G.
  assert (K : forall a, Forall well_formed a ->
    Forall well_formed
      (fold_left
         (fun names m => fold_left candidate_part (re_split SEP_RE (m_group1 m)) names)
         (finditer text) a)).
  { induction G as [|m ms [_ Hm] _ IH]; intros a Ha; simpl; [exact Ha |].
    apply IH. apply fold_parts_invariant; [| apply parts_plain, Hm | exact Ha].
    intros a' p Ha' Hp. apply candidate_part_well_formed; assumption. }
  apply K. constructor.
Qed.

(** X12. Every name [extract_named_candidates] returns is well formed: it
    is not empty, has no white space at either end and holds neither a
    comma nor a closing bracket. *)
Theorem X12_candidates_are_well_formed :
  forall text : str, Forall well_formed (extract_named_candidates text).
Proof. exact candidates_well_formed. Qed.

(** X13. When the candidate names are well formed, as those of
    [extract_named_candidates] are, so is every name of the list
    [normalize_token] joins for an inner text without closing bracket. *)
Theorem X13_canonical_names_are_well_formed :
  forall (inner : str) (named : list str),
    Forall well_formed named -> ~ In "]" inner ->
    Forall well_formed (out_parts_of inner named).
Proof. exact out_parts_well_formed. Qed.

Lemma X13_canonical_names_are_well_formed_witness :
  Forall well_formed
    (out_parts_of (lit "Both, hermes (aside)") [ODYSSEUS; PENELOPE]).
Proof.
  apply X13_canonical_names_are_well_formed.
  - repeat constructor; discriminate.
  - intros H. vm_compute in H. repeat (destruct H as [H | H]; [discriminate |]).
    exact H.
Defined.

(* ================================================================== *)
(** ** Further properties: from the canonical token back to the names *)

Lemma strip_lpad (w x : str) :
  forallb is_space w = true -> trimmed x -> strip (w ++ x) = x.
Proof.
  intros W [T1 T2]. unfold strip. rewrite lstrip_spaces by exact W.
  rewrite lstrip_fix by (apply is_space_opt_hd, T1). apply rstrip_fix, T2.
Qed.

Lemma well_formed_field (x : str) : well_formed x -> field x.
Proof.
  intros (Hne & T & H). split; [exact Hne |]. split; [exact T |].
  apply Forall_not_In.
  eapply Forall_impl; [| exact H]. intros c [Hc _]. exact Hc.
Qed.

Lemma speakers_of_piece (w x : str) (rest : list str) :
  forallb is_space w = true -> field x ->
  filter nonempty (map strip (prepend (w ++ x) ([] :: rest)))
  = x :: filter nonempty (map strip rest).
Proof.
  intros W (Hne & T & P). cbn [prepend map filter].
  rewrite app_nil_r, strip_lpad by assumption.
  destruct x; [congruence | reflexivity].
Qed.

Lemma pad_no_comma (w x : str) :
  forallb is_space w = true -> field x -> ~ In "," (w ++ x).
Proof.
  intros W (_ & _ & X) Hin. apply in_app_or in Hin as [Hin | Hin].
  - exact (space_no_comma w W Hin).
  - exact (X Hin).
Qed.

(** Splitting a list of fields joined by comma and space at the commas, and
    trimming the pieces, gives the fields back. *)
Lemma speakers_of_join (l : list str) (w : str) :
  forallb is_space w = true -> Forall field l ->
  speakers_of (w ++ join (lit ", ") l) = l.
Proof.
  intros W H. revert w W. unfold speakers_of.
  induction H as [|x l Hx Hl IH]; intros w W.
  - simpl. rewrite app_nil_r.
    rewrite <- (app_nil_r w), split_on_quiet by (apply space_no_comma, W).
    cbn [split_on prepend map filter]. rewrite app_nil_r.
    assert (E : strip w = []) by (apply strip_nil_iff, W). rewrite E. reflexivity.
  - destruct l as [|y l].
    + cbn [join]. rewrite <- (app_nil_r (w ++ x)).
      rewrite split_on_quiet by (apply pad_no_comma; assumption).
      cbn [split_on]. apply (speakers_of_piece w x []); assumption.
    + rewrite join_cons by discriminate.
      change (lit ", ") with [","; " "].
      rewrite app_assoc.
      rewrite split_on_quiet by (apply pad_no_comma; assumption).
      change ([","; " "] ++ join [","; " "] (y :: l))
        with ("," :: ([" "] ++ join [","; " "] (y :: l))).
      rewrite split_on_cons. rewrite Ascii.eqb_refl.
      rewrite speakers_of_piece by assumption. f_equal.
      apply (IH [" "]). reflexivity.
Qed.

Lemma token_speakers (inner : str) (named : list str) :
  Forall well_formed named -> ~ In "]" inner ->
  out_parts_of inner named <> [] ->
  speakers_of (normalize_token inner named) = out_parts_of inner named.
Proof.
  intros Hn Hi Hne. unfold normalize_token.
  pose proof (out_parts_well_formed inner named Hn Hi) as W.
  destruct (out_parts_of inner named) as [|x l] eqn:E; [congruence |].
  apply (speakers_of_join (x :: l) []); [reflexivity |].
  eapply Forall_impl; [exact well_formed_field | exact W].
Qed.

(** X14. The speakers [parse_segments] reads from a token written by
    [normalize_token] are the names the token was joined from, in the same
    order, whenever the candidate names are well formed and the token was
    made from at least one name. *)
Theorem X14_speakers_read_back_from_token :
  forall (inner : str) (named : list str),
    Forall well_formed named -> ~ In "]" inner ->
    out_parts_of inner named <> [] ->
    speakers_of (normalize_token inner named) = out_parts_of inner named.
Proof. exact token_speakers. Qed.

Lemma X14_speakers_read_back_from_token_witness :
  speakers_of (normalize_token (lit "All & zeus") [ODYSSEUS; HERMES])
  = out_parts_of (lit "All & zeus") [ODYSSEUS; HERMES].
Proof.
  apply X14_speakers_read_back_from_token.
  - repeat constructor; discriminate.
  - intros H. vm_compute in H. repeat (destruct H as [H | H]; [discriminate |]).
    exact H.
  - vm_compute. discriminate.
Defined.

(* ================================================================== *)
(** ** Further properties: blank annotations *)

Lemma forallb_Forall (p : ascii -> bool) (s : str) :
  forallb p s = true <-> Forall (fun c => p c = true) s.
Proof. rewrite forallb_forall, Forall_forall. tauto. Qed.

Lemma blank_split (inner : str) :
  forallb is_space inner = true -> re_split SEP_RE inner = [inner].
Proof.
  intros W. unfold re_split. rewrite <- (app_nil_r inner) at 1.
  rewrite (split_from_quiet SEP_RE) by (apply quiet_ws; [apply tame_SEP_RE | exact W]).
  simpl. rewrite app_nil_r. reflexivity.
Qed.

Lemma blank_remainder (p : str) :
  forallb is_space p = true -> remainder p = None.
Proof.
  intros W. unfold remainder.
  assert (E : strip_parens p = []).
  { unfold strip_parens. apply strip_nil_iff, forallb_Forall.
    apply Forall_sub_from; [constructor | apply forallb_Forall, W]. }
  rewrite E. reflexivity.
Qed.

Lemma blank_token (inner : str) (named : list str) :
  forallb is_space inner = true -> normalize_token inner named = [].
Proof.
  intros W. unfold normalize_token, out_parts_of. rewrite blank_split by exact W.
  cbn [fold_left]. unfold normalize_part. rewrite blank_remainder by exact W.
  apply strip_nil_iff, W.
Qed.

(** X15. An annotation whose inner text is all white space is rewritten to
    the empty token, whatever the candidate names: the brackets are left
    with nothing between them. *)
Theorem X15_blank_annotation_becomes_empty :
  forall (inner : str) (named : list str),
    forallb is_space inner = true -> normalize_token inner named = [].
Proof. exact blank_token. Qed.

Lemma X15_blank_annotation_becomes_empty_witness :
  normalize_token [" "; TAB] [ODYSSEUS] = [].
Proof. apply X15_blank_annotation_becomes_empty. reflexivity. Defined.

(** After the rewriting such an annotation is no annotation any more. *)
Example blank_annotation_is_lost :
  rewrite_tokens [] (lit "[ ] la [ZEUS] lo") = lit "[] la [ZEUS] lo"
  /\ length (finditer (lit "[ ] la [ZEUS] lo")) = 2
  /\ length (finditer (rewrite_tokens [] (lit "[ ] la [ZEUS] lo"))) = 1.
Proof. vm_compute. auto. Qed.

Lemma token_no_close (inner : str) (named : list str) :
  Forall well_formed named -> ~ In "]" inner ->
  ~ In "]" (normalize_token inner named).
Proof.
  intros Hn Hi. unfold normalize_token.
  pose proof (out_parts_well_formed inner named Hn Hi) as W.
  destruct (out_parts_of inner named) as [|x l].
  - apply Forall_not_In, Forall_strip, Forall_not_In, Hi.
  - apply Forall_not_In, Forall_join; [repeat constructor; discriminate |].
    eapply Forall_impl; [| exact W]. intros y (_ & _ & Hy).
    eapply Forall_impl; [| exact Hy]. intros c [_ Hc]. exact Hc.
Qed.

Lemma token_not_nil (inner : str) (named : list str) :
  Forall well_formed named -> ~ In "]" inner -> strip inner <> [] ->
  normalize_token inner named <> [].
Proof.
  intros Hn Hi Hne. unfold normalize_token.
  pose proof (out_parts_well_formed inner named Hn Hi) as W.
  destruct (out_parts_of inner named) as [|x l]; [exact Hne |].
  apply join_not_nil; [discriminate |].
  eapply Forall_impl; [| exact W]. intros y (Hy & _). exact Hy.
Qed.

(* ================================================================== *)
(** ** Further properties: segmenting the rewritten text *)

(** The matches of the Scanner carry the pieces of the text. *)
Lemma finditer_pieces (s done : str) (prev : option ascii) (skip : nat) :
  skip <= length s ->
  let text := done ++ s in
  let ms := finditer_from SPEAKER_RE (length done) prev skip s in
  map m_group1 ms = map fst (snd (pieces skip s))
  /\ raw_spans text ms = map snd (snd (pieces skip s))
  /\ slice text (length done + skip) (next_start text ms) = fst (pieces skip s).
Proof.
  revert done prev skip; induction s as [|c r IH]; intros done prev skip Hs.
  - simpl in Hs. assert (skip = 0) by lia. subst skip. simpl.
    repeat split. unfold slice. rewrite length_app. simpl.
    replace (length done + 0 - (length done + 0)) with 0 by lia. reflexivity.
  - assert (Et : (done ++ [c]) ++ r = done ++ c :: r)
      by (rewrite <- app_assoc; reflexivity).
    assert (El : length (done ++ [c]) = S (length done))
      by (rewrite length_app; simpl; lia).
    assert (Next : forall k, k <= length r ->
      let text := done ++ c :: r in
      let ms := finditer_from SPEAKER_RE (S (length done)) (Some c) k r in
      map m_group1 ms = map fst (snd (pieces k r))
      /\ raw_spans text ms = map snd (snd (pieces k r))
      /\ slice text (S (length done) + k) (next_start text ms) = fst (pieces k r)).
    { intros k Hk. specialize (IH (done ++ [c]) (Some c) k Hk).
      rewrite Et, El in IH. exact IH. }
    assert (Ord : forall k, k <= length r ->
      S (length done) + k
      <= next_start (done ++ c :: r)
           (finditer_from SPEAKER_RE (S (length done)) (Some c) k r)).
    { intros k Hk.
      pose proof (finditer_from_reassemble r (done ++ [c]) (Some c) k Hk) as [O _].
      rewrite Et, El in O. apply in_order_next_start in O. exact O. }
    destruct skip as [|k].
    + cbn [finditer_from pieces].
      change (SPEAKER_RE None (c :: r)) with (SPEAKER_RE prev (c :: r)).
      destruct (SPEAKER_RE prev (c :: r)) as [[|k]|] eqn:E.
      * destruct (Next 0 ltac:(lia)) as (G & R & Sl). cbv zeta. cbn [fst snd].
        split; [exact G |]. split; [exact R |].
        specialize (Ord 0 ltac:(lia)).
        rewrite Nat.add_0_r in *. rewrite slice_step by lia. rewrite Sl. reflexivity.
      * apply SPEAKER_RE_elim in E as (inner & post & E & Ek & Hne & Hall).
        simpl in E. injection E as -> ->.
        assert (k = S (length inner)) by lia. subst k. clear Ek.
        destruct (Next (S (length inner))) as (G & R & Sl).
        { rewrite length_app. simpl. lia. }
        cbv zeta. cbn [fst snd map raw_spans m_group1 m_end m_start next_start].
        rewrite G, R.
        replace (length done + S (S (length inner)))
          with (S (length done) + S (length inner)) by lia.
        rewrite Sl. repeat split.
        unfold slice. replace (length done - (length done + 0)) with 0 by lia.
        reflexivity.
      * destruct (Next 0 ltac:(lia)) as (G & R & Sl). cbv zeta. cbn [fst snd].
        split; [exact G |]. split; [exact R |].
        specialize (Ord 0 ltac:(lia)).
        rewrite Nat.add_0_r in *. rewrite slice_step by lia. rewrite Sl. reflexivity.
    + cbn [finditer_from pieces]. simpl in Hs.
      destruct (Next k ltac:(lia)) as (G & R & Sl). cbv zeta.
      replace (length done + S k) with (S (length done) + k) by lia.
      auto.
Qed.

Lemma pieces_skip (a b : str) (k : nat) :
  pieces (length a + k) (a ++ b) = pieces k b.
Proof. induction a as [|c a IH]; [reflexivity |]. simpl. exact IH. Qed.

Lemma first_occurrence (x : ascii) (l : str) :
  In x l -> exists a b, l = a ++ x :: b /\ ~ In x a.
Proof.
  induction l as [|c l IH]; [intros [] |]. intros H.
  destruct (ascii_dec c x) as [-> | N].
  - exists [], l. split; [reflexivity | intros []].
  - destruct H as [H | H]; [congruence |].
    destruct (IH H) as (a & b & -> & Ha). exists (c :: a), b.
    split; [reflexivity |]. intros [E | Hin]; [congruence | contradiction].
Qed.

(** An opening bracket that starts no annotation is followed by a closing
    bracket or by no closing bracket at all. *)
Lemma bracket_without_match (prev : option ascii) (r : str) :
  match SPEAKER_RE prev ("[" :: r) with Some (S _) => False | _ => True end ->
  (exists r', r = "]" :: r') \/ ~ In "]" r.
Proof.
  intros H. destruct (in_dec ascii_dec "]" r) as [Hin | Hn]; [| right; exact Hn].
  left. apply first_occurrence in Hin as (a & b & -> & Ha).
  destruct a as [|x a]; [exists b; reflexivity |]. exfalso.
  change ("[" :: (x :: a) ++ "]" :: b) with (["["] ++ (x :: a) ++ ["]"] ++ b) in H.
  rewrite SPEAKER_RE_intro in H;
    [| discriminate | apply not_close_forall, Ha].
  replace (length (x :: a) + 2) with (S (S (length (x :: a)))) in H by lia.
  exact H.
Qed.

(** Where the Scanner finds nothing, the rewriting changes nothing. *)
Lemma subf_from_no_match (f : str -> str) (s : str) (pos : nat)
    (prev : option ascii) (skip : nat) :
  finditer_from SPEAKER_RE pos prev skip s = [] ->
  subf_from SPEAKER_RE f prev skip s = skipn skip s.
Proof.
  revert pos prev skip; induction s as [|c r IH]; intros pos prev skip;
    [destruct skip; reflexivity |].
  cbn [finditer_from subf_from]. destruct skip as [|k]; [| apply IH].
  destruct (SPEAKER_RE prev (c :: r)) as [[|k]|]; try discriminate;
    intros H; simpl; f_equal; apply (IH _ _ _ H).
Qed.

Lemma subf_from_no_close (f : str -> str) (s : str) (prev : option ascii) :
  ~ In "]" s -> subf_from SPEAKER_RE f prev 0 s = s.
Proof.
  intros H. apply (subf_from_no_match f s 0 prev 0).
  destruct (finditer_from SPEAKER_RE 0 prev 0 s) eqn:E; [reflexivity |].
  exfalso. apply H.
  destruct (finditer_has_annotation s 0 prev 0) as (pre & inner & post & -> & _).
  { rewrite E. discriminate. }
  rewrite !in_app_iff. simpl. tauto.
Qed.

Section Rewritten.

Variable h : str -> str.

Local Abbreviation f := (fun inner : str => ["["] ++ h inner ++ ["]"]).
Local Abbreviation keeps := (fun p : str * str => h (fst p) <> [] /\ ~ In "]" (h (fst p))).
Local Abbreviation renamed := (fun p : str * str => (h (fst p), snd p)).

(** A character that starts no annotation starts none after the rest of
    the text is rewritten. *)
Lemma no_match_rewritten (prev : option ascii) (c : ascii) (r : str) :
  match SPEAKER_RE prev (c :: r) with Some (S _) => False | _ => True end ->
  match SPEAKER_RE None (c :: subf_from SPEAKER_RE f (Some c) 0 r) with
  | Some (S _) => False
  | _ => True
  end.
Proof.
  intros H.
  destruct (SPEAKER_RE None (c :: subf_from SPEAKER_RE f (Some c) 0 r))
    as [[|k]|] eqn:E; trivial.
  apply SPEAKER_RE_elim in E as (inner & post & E & _ & Hne & Hall).
  simpl in E. injection E as -> E. apply not_close_forall in Hall.
  apply bracket_without_match in H as [(r' & ->) | Hn].
  - cbn [subf_from] in E.
    destruct (SPEAKER_RE (Some "[") ("]" :: r')) as [[|k']|] eqn:E2.
    + destruct inner as [|x inner]; [congruence |].
      injection E as <- _. apply Hall. left; reflexivity.
    + apply SPEAKER_RE_elim in E2 as (? & ? & E2 & _). discriminate.
    + destruct inner as [|x inner]; [congruence |].
      injection E as <- _. apply Hall. left; reflexivity.
  - rewrite subf_from_no_close in E by exact Hn. apply Hn. rewrite E.
    rewrite in_app_iff. simpl. tauto.
Qed.

(** The pieces of the rewritten text are those of the text, with every
    inner text rewritten, as long as no rewritten inner text is empty or
    holds a closing bracket. *)
Lemma pieces_rewritten (s : str) (prev : option ascii) (skip : nat) :
  Forall keeps (snd (pieces skip s)) ->
  pieces 0 (subf_from SPEAKER_RE f prev skip s)
  = (fst (pieces skip s), map renamed (snd (pieces skip s))).
Proof.
  revert prev skip; induction s as [|c r IH]; intros prev skip; [reflexivity |].
  cbn [pieces subf_from]. destruct skip as [|k]; [| apply IH].
  change (SPEAKER_RE None (c :: r)) with (SPEAKER_RE prev (c :: r)).
  destruct (SPEAKER_RE prev (c :: r)) as [[|k]|] eqn:E.
  - cbn [fst snd]. intros K.
    pose proof (no_match_rewritten prev c r) as N. rewrite E in N.
    specialize (N I). specialize (IH (Some c) 0 K).
    cbn [pieces].
    destruct (SPEAKER_RE None (c :: subf_from SPEAKER_RE f (Some c) 0 r)) as [[|k']|];
      [| contradiction |]; rewrite IH; reflexivity.
  - cbn [fst snd map]. intros K. inversion K as [|? ? [Hne Hcl] K']; subst.
    cbn [fst] in Hne, Hcl. specialize (IH (Some c) k K').
    set (g := firstn (k - 1) r) in *.
    set (rest := subf_from SPEAKER_RE f (Some c) k r) in *.
    change ((["["] ++ h g ++ ["]"]) ++ rest) with ("[" :: (h g ++ ["]"]) ++ rest).
    rewrite <- app_assoc.
    cbn [pieces].
    change ("[" :: h g ++ ["]"] ++ rest) with (["["] ++ h g ++ ["]"] ++ rest).
    rewrite SPEAKER_RE_intro by (auto; apply not_close_forall, Hcl).
    replace (length (h g) + 2) with (S (S (length (h g)))) by lia.
    replace (S (length (h g)) - 1) with (length (h g) + 0) by lia.
    rewrite firstn_app_2. simpl firstn. rewrite app_nil_r.
    assert (P : pieces (S (length (h g))) (h g ++ ["]"] ++ rest) = pieces 0 rest).
    { rewrite app_assoc.
      replace (S (length (h g))) with (length (h g ++ ["]"]) + 0)
        by (rewrite length_app; simpl; lia).
      apply pieces_skip. }
    rewrite P, IH. reflexivity.
  - cbn [fst snd]. intros K.
    pose proof (no_match_rewritten prev c r) as N. rewrite E in N.
    specialize (N I). specialize (IH (Some c) 0 K).
    cbn [pieces].
    destruct (SPEAKER_RE None (c :: subf_from SPEAKER_RE f (Some c) 0 r)) as [[|k']|];
      [| contradiction |]; rewrite IH; reflexivity.
Qed.

End Rewritten.

Lemma segments_of_combine (text : str) (ms : list rmatch) :
  segments_of text ms
  = map (fun p => (speakers_of (fst p), strip (snd p)))
      (combine (map m_group1 ms) (raw_spans text ms)).
Proof.
  induction ms as [|m ms IH]; [reflexivity |]. simpl. rewrite IH. reflexivity.
Qed.

Lemma rewritten_segments_combine (named : list str) (text : str) (ms : list rmatch) :
  rewritten_segments named text ms
  = map (fun p => (speakers_of (normalize_token (fst p) named), strip (snd p)))
      (combine (map m_group1 ms) (raw_spans text ms)).
Proof.
  induction ms as [|m ms IH]; [reflexivity |]. simpl. rewrite IH. reflexivity.
Qed.

Lemma combine_map_fst {A B C : Type} (g : A -> C) (l : list (A * B)) :
  combine (map (fun p => g (fst p)) l) (map snd l)
  = map (fun p => (g (fst p), snd p)) l.
Proof. induction l as [|[a b] l IH]; [reflexivity |]. simpl. rewrite IH. reflexivity. Qed.

Lemma rewritten_scan (text : str) (named : list str) :
  Forall well_formed named ->
  Forall (fun m => strip (m_group1 m) <> []) (finditer text) ->
  let new_text := rewrite_tokens named text in
  combine (map m_group1 (finditer new_text)) (raw_spans new_text (finditer new_text))
  = map (fun p => (normalize_token (fst p) named, snd p))
      (combine (map m_group1 (finditer text)) (raw_spans text (finditer text))).
Proof.
  intros Hn Hb new_text.
  destruct (finditer_pieces text [] None 0 ltac:(lia)) as (G & R & _).
  destruct (finditer_pieces new_text [] None 0 ltac:(lia)) as (G' & R' & _).
  cbn [length app] in G, R, G', R'.
  change (finditer_from SPEAKER_RE 0 None 0 text) with (finditer text) in G, R.
  change (finditer_from SPEAKER_RE 0 None 0 new_text) with (finditer new_text) in G', R'.
  assert (K : Forall
    (fun p : str * str =>
       normalize_token (fst p) named <> [] /\ ~ In "]" (normalize_token (fst p) named))
    (snd (pieces 0 text))).
  { apply (Forall_map fst
             (fun g => normalize_token g named <> [] /\ ~ In "]" (normalize_token g named))).
    rewrite <- G. apply Forall_map.
    pose proof (finditer_groups text) as Gr.
    apply Forall_forall. intros m Hm.
    rewrite Forall_forall in Gr, Hb.
    destruct (Gr m Hm) as [_ Hcl]. split.
    - apply token_not_nil; [exact Hn | exact Hcl | exact (Hb m Hm)].
    - apply token_no_close; [exact Hn | exact Hcl]. }
  assert (P : pieces 0 new_text
              = (fst (pieces 0 text),
                 map (fun p => (normalize_token (fst p) named, snd p))
                   (snd (pieces 0 text))))
    by exact (pieces_rewritten (fun g => normalize_token g named) text None 0 K).
  rewrite P in G', R'. cbn [snd] in G', R'. rewrite map_map in G', R'.
  cbn [fst snd] in G', R'.
  rewrite G', R', G, R.
  rewrite (combine_map_fst (fun g => normalize_token g named)).
  rewrite (combine_map_fst (fun g => g)). rewrite map_map. reflexivity.
Qed.

Lemma rewritten_parse (text : str) (named : list str) :
  Forall well_formed named ->
  Forall (fun m => strip (m_group1 m) <> []) (finditer text) ->
  parse_segments (rewrite_tokens named text)
  = match finditer text with
    | [] => parse_segments text
    | ms => rewritten_segments named text ms
    end.
Proof.
  intros Hn Hb. pose proof (rewritten_scan text named Hn Hb) as S. cbv zeta in S.
  destruct (finditer text) as [|m ms] eqn:E.
  - unfold rewrite_tokens.
    rewrite (subf_from_no_match _ text 0 None 0) by exact E. reflexivity.
  - rewrite rewritten_segments_combine.
    set (new_text := rewrite_tokens named text) in *.
    unfold parse_segments.
    destruct (finditer new_text) as [|m' ms'] eqn:E'; [discriminate S |].
    rewrite segments_of_combine, S, map_map. reflexivity.
Qed.

(** X16. When the candidate names are well formed and no annotation of a
    text is blank, segmenting the rewritten text gives one segment for every
    annotation of the text, in order: its speakers are those read from the
    normalized token and its text is the trimmed text that followed the
    annotation before the rewriting.  A text without annotation is segmented
    as before. *)
Theorem X16_segments_of_the_rewritten_text :
  forall (text : str) (named : list str),
    Forall well_formed named ->
    Forall (fun m => strip (m_group1 m) <> []) (finditer text) ->
    parse_segments (rewrite_tokens named text)
    = match finditer text with
      | [] => parse_segments text
      | ms => rewritten_segments named text ms
      end.
Proof. exact rewritten_parse. Qed.

Lemma X16_segments_of_the_rewritten_text_witness :
  parse_segments
    (rewrite_tokens [ODYSSEUS; PENELOPE] (lit "[Both] hi [zeus (angry)] ho"))
  = match finditer (lit "[Both] hi [zeus (angry)] ho") with
    | [] => parse_segments (lit "[Both] hi [zeus (angry)] ho")
    | ms =>
        rewritten_segments [ODYSSEUS; PENELOPE] (lit "[Both] hi [zeus (angry)] ho") ms
    end.
Proof.
  apply X16_segments_of_the_rewritten_text.
  - repeat constructor; discriminate.
  - vm_compute. repeat constructor; discriminate.
Defined.

(* ================================================================== *)
(** ** Further properties: the shape of cleaned text *)

Lemma Forall_replace_from (Q : ascii -> Prop) (old new : str) (skip : nat) (s : str) :
  Forall Q new -> Forall Q s -> Forall Q (replace_from old new skip s).
Proof.
  intros Hn Hs. revert skip.
  induction Hs as [|c r Hc _ IH]; intros skip; simpl; [constructor |].
  destruct skip as [|k]; [| apply IH].
  destruct (starts_with old (c :: r)).
  - apply Forall_app. split; [exact Hn | apply IH].
  - constructor; [exact Hc | apply IH].
Qed.

Lemma clean_body_blank (text : str) :
  forallb is_space text = true -> clean_body text = [].
Proof.
  intros W. unfold clean_body. apply strip_nil_iff, forallb_Forall.
  apply Forall_sub_from; [repeat constructor |].
  apply Forall_join; [repeat constructor |].
  apply Forall_map.
  eapply Forall_impl;
    [intros l Hl; apply Forall_sub_from; [repeat constructor | exact Hl] |].
  apply Forall_map.
  eapply Forall_impl; [intros l Hl; apply Forall_rstrip; exact Hl |].
  apply split_on_Forall.
  apply Forall_replace_from; [repeat constructor |].
  apply Forall_replace_from; [repeat constructor |].
  apply forallb_Forall, W.
Qed.

(** X17. A text that is empty or all white space is cleaned to a single
    line feed. *)
Theorem X17_blank_text_cleaned_to_one_line_feed :
  forall text : str,
    forallb is_space text = true -> clean_whitespace text = [LF].
Proof.
  intros text W. rewrite clean_whitespace_body, clean_body_blank by exact W.
  reflexivity.
Qed.

Lemma X17_blank_text_cleaned_to_one_line_feed_witness :
  clean_whitespace [" "; CR; LF; TAB; LF; LF; LF; " "] = [LF].
Proof. apply X17_blank_text_cleaned_to_one_line_feed. reflexivity. Defined.

(** X18. The text [clean_whitespace] returns ends with a line feed, holds
    no carriage return and no two neighbouring blanks or tabs, none of its
    lines ends with white space, and it starts with white space only when it
    is the single line feed. *)
Theorem X18_shape_of_cleaned_text :
  forall text : str,
    let out := clean_whitespace text in
    last_opt out = Some LF
    /\ ~ In CR out
    /\ runs_below is_hspace 2 out
    /\ Forall (fun l => rstrip l = l) (split_on LF out)
    /\ (out = [LF] \/ is_space_opt (hd_error out) = false).
Proof.
  intros text. cbv zeta. rewrite clean_whitespace_body.
  destruct (clean_body_clean text) as (C & H & N & A & T).
  set (body := clean_body text) in *.
  split; [apply last_opt_snoc |].
  split.
  { apply Forall_not_In, Forall_app. split; [exact C | repeat constructor; discriminate]. }
  split.
  { apply runs_below_sep; [lia | reflexivity | exact H | exact I]. }
  split.
  { eapply Forall_impl; [intros l Hl; apply rstrip_fix; exact Hl |].
    apply lines_rstripped.
    - apply no_adj_snoc_LF; [exact A | apply T].
    - unfold ends_ok. rewrite last_opt_snoc. right; reflexivity. }
  destruct body as [|c r]; [left; reflexivity | right].
  destruct T as [T _]. exact T.
Qed.

(* ================================================================== *)
(** ** Further properties: the backup of [normalize_file] *)

Import NormalizeFile.








Lemma raw_spans_length (text : str) (ms : list rmatch) :
  length (raw_spans text ms) = length ms.
Proof. induction ms as [|m ms IH]; simpl; [reflexivity | rewrite IH; reflexivity]. Qed.

Lemma combine_groups_length (text : str) (ms : list rmatch) :
  length (combine (map m_group1 ms) (raw_spans text ms)) = length ms.
Proof. rewrite length_combine, length_map, raw_spans_length. lia. Qed.

Lemma rewritten_count (text : str) (named : list str) :
  Forall well_formed named ->
  Forall (fun m => strip (m_group1 m) <> []) (finditer text) ->
  count_tokens (rewrite_tokens named text) = count_tokens text.
Proof.
  intros Hn Hb. pose proof (rewritten_scan text named Hn Hb) as S. cbv zeta in S.
  apply (f_equal (@length _)) in S.
  rewrite length_map, !combine_groups_length in S. exact S.
Qed.

(** X20. On a file whose text is already cleaned and has no blank
    annotation, the number [normalize_file] returns is 0, however many
    annotations it rewrites: the rewriting keeps the number of annotations,
    which is all the number compares. *)
Theorem X20_reported_count_is_zero :
  forall (path : str) (fs : files) (t : str),
    fs path = Some t ->
    clean_whitespace t = t ->
    Forall (fun m => strip (m_group1 m) <> []) (finditer t) ->
    exists fs', normalize_file path fs = Some (fs', 0)
                /\ fs' path = Some (normalize_text t).
Proof.
  intros path fs t Ht Hc Hb. unfold normalize_file. rewrite Ht, Hc.
  eexists. split.
  - f_equal. f_equal.
    rewrite rewritten_count by (auto using candidates_well_formed).
    unfold abs_diff. lia.
  - unfold write_text, normalize_text. rewrite str_eqb_refl, Hc. reflexivity.
Qed.

Lemma X20_reported_count_is_zero_witness :
  exists fs',
    normalize_file (lit "a.txt")
      (fun q => if str_eqb q (lit "a.txt")
                then Some (lit "[ZEUS/Hera] hi [Zeus (aside)] ho" ++ [LF]) else None)
    = Some (fs', 0)
    /\ fs' (lit "a.txt")
       = Some (normalize_text (lit "[ZEUS/Hera] hi [Zeus (aside)] ho" ++ [LF])).
Proof.
  apply (X20_reported_count_is_zero (lit "a.txt") _
           (lit "[ZEUS/Hera] hi [Zeus (aside)] ho" ++ [LF])).
  - reflexivity.
  - vm_compute. reflexivity.
  - vm_compute. repeat constructor; discriminate.
Defined.

(** The two annotations of the example are both rewritten. *)
Example rewritten_yet_counted_zero :
  normalize_text (lit "[ZEUS/Hera] hi [Zeus (aside)] ho" ++ [LF])
  = lit "[ZEUS, HERA] hi [ZEUS] ho" ++ [LF].
Proof. vm_compute. reflexivity. Qed.

(* ================================================================== *)
(** ** Further properties: the token of the per-segment normalizer *)

Lemma AMP_RE_removes (prev : option ascii) (skip : nat) (s : str) :
  Forall no_amp (sub_from AMP_RE [","] prev skip s).
Proof.
  revert prev skip; induction s as [|c r IH]; intros prev skip; simpl; [constructor |].
  destruct skip as [|k]; [| apply IH].
  unfold AMP_RE at 1.
  destruct ((c =? "&") || (c =? "/") || (c =? "|")) eqn:E; simpl.
  - constructor; [repeat split; discriminate | apply IH].
  - constructor; [| apply IH].
    apply orb_false_iff in E as [E E3]. apply orb_false_iff in E as [E1 E2].
    repeat split; intros ->; discriminate.
Qed.

Lemma Forall_filter_parts (Q : str -> Prop) (keep : str -> bool) (l : list str) :
  Forall Q l -> Forall Q (filter keep l).
Proof.
  intros H. rewrite Forall_forall in *. intros x Hx.
  apply filter_In in Hx as [Hx _]. auto.
Qed.

(** The parts the per-segment normalizer joins. *)
Lemma free_parts_fields (s : str) :
  Forall field (filter nonempty (map strip (split_on "," s))).
Proof.
  apply Forall_forall. intros x Hx. apply filter_In in Hx as [Hx Hne].
  apply in_map_iff in Hx as (q & <- & Hq).
  split; [apply nonempty_true, Hne |]. split; [apply strip_trimmed |].
  apply Forall_not_In, Forall_strip, Forall_not_In.
  pose proof (split_on_no_sep "," s) as H. rewrite Forall_forall in H. auto.
Qed.

(** X21. The token of the per-segment normalizer is in canonical form: it
    holds no ampersand, slash or vertical bar, and it is the list of its
    comma-separated fields joined by comma and space, every field being
    non-empty, without white space at either end and without comma. *)
Theorem X21_per_segment_token_is_canonical :
  forall inner : str,
    let token := SegmentsToCsv.normalize_token inner in
    Forall no_amp token
    /\ Forall field (speakers_of token)
    /\ token = join (lit ", ") (speakers_of token).
Proof.
  intros inner. cbv zeta. unfold SegmentsToCsv.normalize_token.
  set (s := re_sub AND_RE [","] (re_sub AMP_RE [","] inner)).
  pose proof (free_parts_fields s) as F.
  set (parts := filter nonempty (map strip (split_on "," s))) in *.
  assert (R : speakers_of (join (lit ", ") parts) = parts)
    by (apply (speakers_of_join parts []); [reflexivity | exact F]).
  rewrite R. split; [| split; [exact F | reflexivity]].
  apply Forall_join; [repeat constructor; discriminate |].
  apply Forall_filter_parts, Forall_map.
  eapply Forall_impl; [intros l Hl; apply Forall_strip; exact Hl |].
  apply split_on_Forall. unfold s, re_sub.
  apply Forall_sub_from; [repeat constructor; discriminate | apply AMP_RE_removes].
Qed.

(* ================================================================== *)
(** ** Further properties: the per-segment normalizer applied twice *)

Lemma and_word_prev (p p' : option ascii) (s : str) :
  is_word_opt p = is_word_opt p' -> and_word p s = and_word p' s.
Proof.
  intros E. destruct s as [|a [|n [|d r]]]; try reflexivity.
  unfold and_word, boundary. rewrite E. reflexivity.
Qed.

Lemma and_word_head (p : option ascii) (c : ascii) (r : str) :
  and_word p (c :: r) = true -> is_word c = true.
Proof.
  intros H. destruct (and_word_inv _ _ H) as (a & n & d & r' & E).
  injection E as -> ->. apply and_word_iff in H as (Ha & _).
  apply ci_a_props, Ha.
Qed.

Lemma and_word_other_head (p : option ascii) (c : ascii) (r : str) :
  is_word c = false -> and_word p (c :: r) = false.
Proof.
  intros W. destruct (and_word p (c :: r)) eqn:E; [| reflexivity].
  apply and_word_head in E. congruence.
Qed.

Lemma and_word_after_word (c : ascii) (s : str) :
  is_word c = true -> and_word (Some c) s = false.
Proof.
  intros W. destruct (and_word (Some c) s) eqn:E; [| reflexivity].
  destruct (and_word_inv _ _ E) as (a & n & d & r' & ->).
  apply and_word_iff in E as (_ & _ & _ & P & _). simpl in P. congruence.
Qed.

Lemma sub_and_cons (prev : option ascii) (c : ascii) (r : str) :
  sub_from AND_RE [","] prev 0 (c :: r)
  = if and_word prev (c :: r)
    then "," :: sub_from AND_RE [","] (Some c) 2 r
    else c :: sub_from AND_RE [","] (Some c) 0 r.
Proof.
  cbn [sub_from]. unfold AND_RE at 1. destruct (and_word prev (c :: r)); reflexivity.
Qed.

(** A character of the text that the substitution keeps starts the word
    "and" in the result only if it does in the text. *)
Lemma and_word_lookahead (p : option ascii) (c : ascii) (r : str) :
  and_word p (c :: sub_from AND_RE [","] (Some c) 0 r) = true ->
  and_word p (c :: r) = true.
Proof.
  intros H. destruct (and_word_inv _ _ H) as (a & n & d & r' & E).
  injection E as <- E. rewrite E in H.
  apply and_word_iff in H as (Ha & Hn & Hd & P & Q).
  destruct r as [|r0 r1]; [discriminate |].
  rewrite sub_and_cons in E.
  destruct (and_word (Some c) (r0 :: r1)); injection E as <- E;
    [discriminate Hn |].
  destruct r1 as [|r10 r2]; [discriminate |].
  rewrite sub_and_cons in E.
  destruct (and_word (Some r0) (r10 :: r2)); injection E as <- E;
    [discriminate Hd |].
  apply and_word_iff. repeat split; try assumption.
  destruct r2 as [|x r3]; [reflexivity |].
  rewrite sub_and_cons in E.
  rewrite and_word_after_word in E by (apply ci_d_props, Hd).
  rewrite <- E in Q. exact Q.
Qed.

Lemma quiet_cons (pat : pattern) (prev : option ascii) (c : ascii) (x rest : str) :
  match pat prev (c :: x ++ rest) with Some (S _) => False | _ => True end ->
  quiet pat (Some c) x rest -> quiet pat prev (c :: x) rest.
Proof.
  intros H Q a c' b E. destruct a as [|a0 a].
  - simpl in E. injection E as <- <-. exact H.
  - simpl in E. injection E as <- E. rewrite last_or_cons. apply Q, E.
Qed.

Lemma quiet_nil (pat : pattern) (prev : option ascii) (rest : str) :
  quiet pat prev [] rest.
Proof. intros a c b E. destruct a; discriminate. Qed.

Lemma AND_RE_false (prev : option ascii) (s : str) :
  and_word prev s = false ->
  match AND_RE prev s with Some (S _) => False | _ => True end.
Proof. intros H. unfold AND_RE. rewrite H. exact I. Qed.

(** After every standalone "and" is replaced by a comma, none is left. *)
Lemma and_sub_quiet (s : str) (prev prev' : option ascii) (skip : nat) :
  (skip = 0 /\ is_word_opt prev' = is_word_opt prev)
  \/ (is_word_opt prev' = false
      /\ is_word_opt (hd_error (skipn skip s)) = false /\ skip <= length s) ->
  quiet AND_RE prev' (sub_from AND_RE [","] prev skip s) [].
Proof.
  revert prev prev' skip; induction s as [|c r IH]; intros prev prev' skip Inv;
    [apply quiet_nil |].
  destruct skip as [|k].
  - rewrite sub_and_cons.
    assert (Keep : and_word prev' (c :: r) = false -> and_word prev (c :: r) = false ->
      quiet AND_RE prev' (c :: sub_from AND_RE [","] (Some c) 0 r) []).
    { intros H' H. apply quiet_cons.
      - rewrite app_nil_r. apply AND_RE_false.
        destruct (and_word prev' (c :: sub_from AND_RE [","] (Some c) 0 r)) eqn:E;
          [| reflexivity].
        apply and_word_lookahead in E. congruence.
      - apply IH. left. auto. }
    destruct Inv as [[_ W] | (W & Hd & _)].
    + destruct (and_word prev (c :: r)) eqn:E.
      * destruct (and_word_inv _ _ E) as (a & n & d & rest & Es).
        injection Es as -> ->.
        apply and_word_iff in E as (Ha & Hn & Hd & P & Q).
        apply quiet_cons;
          [apply AND_RE_false, and_word_other_head; reflexivity |].
        apply IH. right. simpl. repeat split; [exact Q | lia].
      * apply Keep; [| reflexivity].
        rewrite (and_word_prev prev' prev) by exact W. exact E.
    + simpl in Hd.
      assert (N : forall p, and_word p (c :: r) = false)
        by (intros p; apply and_word_other_head, Hd).
      rewrite N. apply Keep; apply N.
  - cbn [sub_from]. destruct Inv as [[E _] | (W & Hd & L)]; [discriminate |].
    apply IH. right. simpl in Hd, L. repeat split; [exact W | exact Hd | lia].
Qed.

Lemma quiet_split (pat : pattern) (prev : option ascii) (x y rest : str) :
  quiet pat prev (x ++ y) rest ->
  quiet pat prev x (y ++ rest) /\ quiet pat (last_or prev x) y rest.
Proof.
  intros Q. split; intros a c b E.
  - specialize (Q a c (b ++ y)). rewrite <- app_assoc in Q. apply Q.
    rewrite E, <- app_assoc. reflexivity.
  - specialize (Q (x ++ a) c b). rewrite last_or_app in Q. apply Q.
    rewrite E, <- app_assoc. reflexivity.
Qed.

(** Whether "and" stands on its own inside [x] depends on what is around
    [x] only through the word characters next to it. *)
Lemma quiet_context (prev prev' : option ascii) (x rest rest' : str) :
  is_word_opt prev = false -> is_word_opt prev' = false ->
  is_word_opt (hd_error rest) = false -> is_word_opt (hd_error rest') = false ->
  quiet AND_RE prev x rest -> quiet AND_RE prev' x rest'.
Proof.
  intros P P' R R' Q a c b E. specialize (Q a c b E).
  apply AND_RE_false.
  destruct (and_word (last_or prev' a) (c :: b ++ rest')) eqn:H; [| reflexivity].
  exfalso. unfold AND_RE in Q.
  assert (K : and_word (last_or prev a) (c :: b ++ rest) = true);
    [| rewrite K in Q; exact Q].
  destruct (and_word_inv _ _ H) as (a0 & n & d & r' & Es).
  injection Es as <- Es. rewrite Es in H.
  apply and_word_iff in H as (Ha & Hn & Hd & W & W').
  assert (Wa : is_word_opt (last_or prev a) = false).
  { destruct a as [|a1 a]; [exact P |].
    rewrite last_or_ne in * by discriminate. exact W. }
  destruct b as [|n1 [|d1 b']]; simpl in Es.
  - rewrite Es in R'. simpl in R'.
    destruct (ci_n_props n Hn) as (Wn & _). congruence.
  - injection Es as <- Es. rewrite Es in R'. simpl in R'.
    destruct (ci_d_props d Hd) as (Wd & _). congruence.
  - injection Es as <- <- Es. simpl. apply and_word_iff.
    repeat split; try assumption.
    destruct b' as [|y b']; [exact R |]. subst r'. exact W'.
Qed.

Lemma join_middle (sep : ascii) (l1 : list str) (q : str) (l2 : list str) :
  join [sep] (l1 ++ q :: l2)
  = match l1 with [] => [] | _ => join [sep] l1 ++ [sep] end
    ++ q
    ++ match l2 with [] => [] | _ => sep :: join [sep] l2 end.
Proof.
  induction l1 as [|x l1 IH].
  - simpl. destruct l2; [rewrite app_nil_r |]; reflexivity.
  - change ((x :: l1) ++ q :: l2) with (x :: (l1 ++ q :: l2)).
    rewrite join_cons by (destruct l1; discriminate). rewrite IH.
    destruct l1 as [|y l1]; simpl.
    + rewrite <- !app_assoc. reflexivity.
    + rewrite <- !app_assoc. reflexivity.
Qed.

(** Every non-empty trimmed piece between the commas of a text without
    standalone "and" is calm. *)
Lemma pieces_calm (s : str) :
  quiet AND_RE None s [] ->
  Forall calm (filter nonempty (map strip (split_on "," s))).
Proof.
  intros Q. apply Forall_forall. intros p Hp.
  apply filter_In in Hp as [Hp Hne]. apply in_map_iff in Hp as (q & <- & Hq).
  apply in_split in Hq as (l1 & l2 & El).
  pose proof (join_split_on "," s) as J. rewrite El, join_middle in J.
  set (A := match l1 with [] => [] | _ => join [","] l1 ++ [","] end) in J.
  set (B := match l2 with [] => [] | _ => "," :: join [","] l2 end) in J.
  destruct (lstrip_decomp q) as (w1 & E1 & W1).
  destruct (rstrip_decomp (lstrip q)) as (w2 & E2 & W2).
  fold (strip q) in E2. rewrite E2 in E1.
  assert (Es : s = (A ++ w1) ++ strip q ++ (w2 ++ B)).
  { rewrite <- J. rewrite E1 at 1. rewrite <- !app_assoc. reflexivity. }
  rewrite Es in Q.
  apply quiet_split in Q as [_ Q]. apply quiet_split in Q as [Q _].
  intros prev rest Wp Wr.
  apply (quiet_context (last_or None (A ++ w1)) prev (strip q)
           ((w2 ++ B) ++ []) rest); try assumption.
  - rewrite last_or_app. apply is_word_opt_last_or.
    + apply is_word_opt_last_or; [reflexivity |]. intros _. unfold A.
      destruct l1; [reflexivity |]. rewrite last_opt_snoc. reflexivity.
    + apply last_space_not_word, W1.
  - rewrite app_nil_r. destruct w2 as [|c w2].
    + unfold B. simpl. destruct l2; reflexivity.
    + apply hd_space_not_word; [exact W2 | discriminate].
Qed.

Lemma comma_space_quiet (prev : option ascii) (rest : str) :
  quiet AND_RE prev [","; " "] rest.
Proof.
  apply quiet_chars. repeat constructor; intros p r;
    apply AND_RE_false, and_word_other_head; reflexivity.
Qed.

(** Calm names joined by comma and space hold no standalone "and". *)
Lemma and_sub_join (l : list str) (prev : option ascii) :
  Forall calm l -> is_word_opt prev = false ->
  sub_from AND_RE [","] prev 0 (join (lit ", ") l) = join (lit ", ") l.
Proof.
  change (lit ", ") with [","; " "].
  intros H. revert prev. induction H as [|p l Hp _ IH]; intros prev W;
    [reflexivity |].
  destruct l as [|q l].
  - cbn [join]. rewrite <- (app_nil_r p) at 1.
    rewrite (sub_from_quiet AND_RE) by (apply Hp; [exact W | reflexivity]).
    simpl. apply app_nil_r.
  - rewrite join_cons by discriminate.
    rewrite (sub_from_quiet AND_RE) by (apply Hp; [exact W | reflexivity]).
    rewrite (sub_from_quiet AND_RE) by apply comma_space_quiet.
    rewrite (IH (last_or (last_or prev p) [","; " "])) by reflexivity.
    reflexivity.
Qed.

Lemma free_token_no_amp (s : str) :
  Forall no_amp s ->
  Forall no_amp (join (lit ", ") (filter nonempty (map strip (split_on "," s)))).
Proof.
  intros H. apply Forall_join; [repeat constructor; discriminate |].
  apply Forall_filter_parts, Forall_map.
  eapply Forall_impl; [intros l Hl; apply Forall_strip; exact Hl |].
  apply split_on_Forall, H.
Qed.

Lemma amp_sub_fix (t : str) : Forall no_amp t -> re_sub AMP_RE [","] t = t.
Proof.
  intros H. unfold re_sub. rewrite <- (app_nil_r t) at 1.
  rewrite (sub_from_quiet AMP_RE); [simpl; apply app_nil_r |].
  apply quiet_chars. eapply Forall_impl; [| exact H].
  intros c (H1 & H2 & H3) p r. unfold AMP_RE.
  destruct (Ascii.eqb_spec c "&"); [contradiction |].
  destruct (Ascii.eqb_spec c "/"); [contradiction |].
  destruct (Ascii.eqb_spec c "|"); [contradiction | exact I].
Qed.

(** X22. The per-segment normalizer leaves its own tokens as they are. *)
Theorem X22_per_segment_normalizer_idempotent :
  forall inner : str,
    SegmentsToCsv.normalize_token (SegmentsToCsv.normalize_token inner)
    = SegmentsToCsv.normalize_token inner.
Proof.
  intros inner. unfold SegmentsToCsv.normalize_token at 2.
  set (s := re_sub AND_RE [","] (re_sub AMP_RE [","] inner)).
  set (parts := filter nonempty (map strip (split_on "," s))).
  assert (A : Forall no_amp (join (lit ", ") parts)).
  { apply free_token_no_amp. unfold s, re_sub.
    apply Forall_sub_from; [repeat constructor; discriminate | apply AMP_RE_removes]. }
  assert (C : Forall calm parts).
  { apply pieces_calm. unfold s, re_sub. apply and_sub_quiet. left. auto. }
  unfold SegmentsToCsv.normalize_token.
  rewrite amp_sub_fix by exact A.
  unfold re_sub. rewrite and_sub_join by (auto; reflexivity).
  f_equal. apply (speakers_of_join parts []); [reflexivity |].
  apply free_parts_fields.
Qed.

(* ================================================================== *)
(** ** Further properties: the lyrics taken from a song page *)

Lemma starts_with_app (p t : str) : starts_with p (p ++ t) = true.
Proof. induction p as [|x p IH]; [reflexivity |]. simpl. rewrite Ascii.eqb_refl. exact IH. Qed.

Lemma starts_with_cons (x c : ascii) (p s : str) :
  starts_with (x :: p) (c :: s) = (x =? c) && starts_with p s.
Proof. reflexivity. Qed.

Lemma starts_with_elim (p s : str) :
  starts_with p s = true -> exists t, s = p ++ t.
Proof.
  revert s; induction p as [|x p IH]; intros s H; [exists s; reflexivity |].
  destruct s as [|y s]; [discriminate |]. simpl in H.
  apply andb_true_iff in H as [E H]. apply Ascii.eqb_eq in E as ->.
  destruct (IH s H) as (t & ->). exists t. reflexivity.
Qed.

Lemma LAST_UPDATE_RE_none (prev : option ascii) (s : str) :
  starts_with LAST_UPDATE s = false ->
  match LAST_UPDATE_RE prev s with Some (S _) => False | _ => True end.
Proof. intros H. unfold LAST_UPDATE_RE. rewrite H. exact I. Qed.

(** After the rest of a "Last Update" line is passed over, the text goes on
    with a line feed or ends. *)
Lemma sub_after_last_update (prev : option ascii) (c : ascii) (r : str) (k : nat) :
  LAST_UPDATE_RE prev (c :: r) = Some (S k) ->
  match sub_from LAST_UPDATE_RE [] (Some c) k r with
  | [] => True
  | d :: _ => d = LF
  end.
Proof.
  intros K.
  assert (E : starts_with LAST_UPDATE (c :: r) = true).
  { unfold LAST_UPDATE_RE in K.
    destruct (starts_with LAST_UPDATE (c :: r)); [reflexivity | discriminate]. }
  unfold LAST_UPDATE_RE in K. rewrite E in K.
  apply starts_with_elim in E as (t & E).
  change LAST_UPDATE with ("L" :: lit "ast Update:") in E.
  injection E as -> ->.
  change (skipn (length LAST_UPDATE) ("L" :: lit "ast Update:" ++ t)) with t in K.
  change (length LAST_UPDATE) with 12 in K.
  simpl Nat.add in K. injection K as <-.
  set (run := run_len not_nl t).
  pose proof (run_len_le not_nl t) as Hle. fold run in Hle.
  pose proof (run_len_stop not_nl t) as Stop. fold run in Stop.
  rewrite <- hd_error_skipn in Stop.
  assert (Et : lit "ast Update:" ++ t
               = (lit "ast Update:" ++ firstn run t) ++ skipn run t)
    by (rewrite <- app_assoc, firstn_skipn; reflexivity).
  change (match sub_from LAST_UPDATE_RE [] (Some "L") (11 + run)
                  (lit "ast Update:" ++ t)
          with [] => True | d :: _ => d = LF end).
  rewrite Et.
  replace (11 + run) with (length (lit "ast Update:" ++ firstn run t))
    by (rewrite length_app, length_firstn; simpl; lia).
  rewrite sub_from_skip_all.
  destruct (skipn run t) as [|d rest]; [exact I |].
  simpl in Stop. unfold not_nl in Stop.
  destruct (Ascii.eqb_spec d LF) as [-> | N]; [| discriminate].
  reflexivity.
Qed.

(** A text without line feed that the result of the substitution starts
    with is a text the original starts with. *)
Lemma last_update_lookahead (w r : str) (prev : option ascii) :
  ~ In LF w ->
  starts_with w (sub_from LAST_UPDATE_RE [] prev 0 r) = true ->
  starts_with w r = true.
Proof.
  revert r prev; induction w as [|x w IH]; intros r prev Hw H; [reflexivity |].
  assert (Hx : x <> LF) by (intros ->; apply Hw; left; reflexivity).
  assert (Hw' : ~ In LF w) by (intros Hin; apply Hw; right; exact Hin).
  destruct r as [|c r]; [discriminate |].
  cbn [sub_from] in H.
  destruct (LAST_UPDATE_RE prev (c :: r)) as [[|k]|] eqn:E.
  - simpl in H. apply andb_true_iff in H as [H1 H2]. simpl.
    rewrite H1. exact (IH r (Some c) Hw' H2).
  - pose proof (sub_after_last_update prev c r k E) as A. cbn [app] in H.
    destruct (sub_from LAST_UPDATE_RE [] (Some c) k r) as [|d o]; [discriminate |].
    subst d. simpl in H. apply andb_true_iff in H as [H1 _].
    apply Ascii.eqb_eq in H1. contradiction.
  - simpl in H. apply andb_true_iff in H as [H1 H2]. simpl.
    rewrite H1. exact (IH r (Some c) Hw' H2).
Qed.

(** After the substitution no "Last Update" line is left. *)
Lemma last_update_sub_quiet (s : str) (prev prev' : option ascii) (skip : nat) :
  quiet LAST_UPDATE_RE prev' (sub_from LAST_UPDATE_RE [] prev skip s) [].
Proof.
  revert prev prev' skip; induction s as [|c r IH]; intros prev prev' skip;
    [apply quiet_nil |].
  cbn [sub_from]. destruct skip as [|k]; [| apply IH].
  assert (Keep : starts_with LAST_UPDATE (c :: r) = false ->
    quiet LAST_UPDATE_RE prev' (c :: sub_from LAST_UPDATE_RE [] (Some c) 0 r) []).
  { intros N. apply quiet_cons; [| apply IH]. rewrite app_nil_r.
    apply LAST_UPDATE_RE_none.
    destruct (starts_with LAST_UPDATE (c :: sub_from LAST_UPDATE_RE [] (Some c) 0 r))
      eqn:E; [| reflexivity].
    assert (Hw : ~ In LF (lit "ast Update:")).
    { intros Hin. vm_compute in Hin.
      repeat (destruct Hin as [Hin | Hin]; [discriminate |]). exact Hin. }
    change LAST_UPDATE with ("L" :: lit "ast Update:") in E, N.
    set (w := lit "ast Update:") in *.
    rewrite starts_with_cons in E, N. apply andb_true_iff in E as [E1 E2].
    apply last_update_lookahead in E2; [| exact Hw].
    rewrite E1, E2 in N. discriminate. }
  destruct (LAST_UPDATE_RE prev (c :: r)) as [[|k]|] eqn:E.
  - unfold LAST_UPDATE_RE in E.
    destruct (starts_with LAST_UPDATE (c :: r)); [discriminate | apply Keep; reflexivity].
  - apply IH.
  - unfold LAST_UPDATE_RE in E.
    destruct (starts_with LAST_UPDATE (c :: r)); [discriminate | apply Keep; reflexivity].
Qed.

Lemma nl_sub_lookahead (w s : str) :
  ~ In LF w -> starts_with w (nl_sub s) = true -> starts_with w s = true.
Proof.
  revert s; induction w as [|x w IH]; intros s Hw H; [reflexivity |].
  assert (Hx : x <> LF) by (intros ->; apply Hw; left; reflexivity).
  assert (Hw' : ~ In LF w) by (intros Hin; apply Hw; right; exact Hin).
  destruct s as [|c r]; [discriminate |].
  destruct (is_nl c) eqn:E.
  - pose proof (hd_nl_sub (c :: r)) as Hd.
    destruct (nl_sub (c :: r)) as [|d o]; [discriminate |].
    simpl in Hd. injection Hd as ->. rewrite starts_with_cons in H.
    apply andb_true_iff in H as [H _]. apply Ascii.eqb_eq in H.
    apply is_nl_eq in E. congruence.
  - rewrite rsub_cons_other in H by (auto; lia).
    rewrite starts_with_cons in *. apply andb_true_iff in H as [H1 H2].
    rewrite H1. exact (IH r Hw' H2).
Qed.

Lemma last_update_tail_no_LF : ~ In LF (lit "ast Update:").
Proof.
  intros Hin. vm_compute in Hin.
  repeat (destruct Hin as [Hin | Hin]; [discriminate |]). exact Hin.
Qed.

Lemma last_update_quiet_any (p p' : option ascii) (x rest : str) :
  quiet LAST_UPDATE_RE p x rest -> quiet LAST_UPDATE_RE p' x rest.
Proof. intros Q a c b E. exact (Q a c b E). Qed.

Lemma line_feeds_quiet (x y : str) (prev : option ascii) :
  forallb is_nl x = true ->
  quiet LAST_UPDATE_RE None y [] -> quiet LAST_UPDATE_RE prev (x ++ y) [].
Proof.
  revert prev; induction x as [|c x IH]; intros prev Hx Q.
  - exact (last_update_quiet_any None prev y [] Q).
  - simpl in Hx. apply andb_true_iff in Hx as [Hc Hx]. apply is_nl_eq in Hc as ->.
    change ((LF :: x) ++ y) with (LF :: (x ++ y)).
    apply quiet_cons; [| apply IH; assumption].
    apply LAST_UPDATE_RE_none. reflexivity.
Qed.

(** Collapsing the line feeds brings no "Last Update" line back. *)
Lemma nl_sub_last_update_quiet (s : str) :
  quiet LAST_UPDATE_RE None s [] -> quiet LAST_UPDATE_RE None (nl_sub s) [].
Proof.
  pattern s; apply (run_ind is_nl); clear s.
  - intros _. apply quiet_nil.
  - intros c r Hc IH Q. rewrite rsub_cons_other by (auto; lia).
    apply quiet_cons.
    + rewrite app_nil_r. apply LAST_UPDATE_RE_none.
      destruct (starts_with LAST_UPDATE (c :: nl_sub r)) eqn:E; [| reflexivity].
      exfalso. change LAST_UPDATE with ("L" :: lit "ast Update:") in E.
      rewrite starts_with_cons in E. apply andb_true_iff in E as [E1 E2].
      apply nl_sub_lookahead in E2; [| exact last_update_tail_no_LF].
      specialize (Q [] c r eq_refl). rewrite app_nil_r in Q.
      unfold LAST_UPDATE_RE in Q.
      change LAST_UPDATE with ("L" :: lit "ast Update:") in Q at 1.
      rewrite starts_with_cons, E1, E2 in Q. exact Q.
    + apply (last_update_quiet_any None), IH.
      apply (last_update_quiet_any (Some c)), (quiet_tail _ _ _ _ _ Q).
  - intros w rest Hne Hw Hrest IH Q.
    apply quiet_split in Q as [_ Q].
    apply (last_update_quiet_any _ None) in Q. specialize (IH Q).
    destruct (Nat.lt_ge_cases (length w) 3) as [Hs | Hl].
    + rewrite rsub_short_run by assumption. apply line_feeds_quiet; assumption.
    + rewrite rsub_long_run by (auto; lia).
      apply line_feeds_quiet; [reflexivity | assumption].
Qed.

Lemma strip_last_update_quiet (s : str) :
  quiet LAST_UPDATE_RE None s [] -> quiet LAST_UPDATE_RE None (strip s) [].
Proof.
  intros Q. destruct (lstrip_decomp s) as (w1 & E1 & _).
  destruct (rstrip_decomp (lstrip s)) as (w2 & E2 & _).
  fold (strip s) in E2. rewrite E2 in E1. rewrite E1 in Q.
  apply quiet_split in Q as [_ Q]. apply quiet_split in Q as [Q _].
  intros a c b E. specialize (Q a c b E).
  destruct (LAST_UPDATE_RE (last_or None a) (c :: b ++ [])) as [[|k]|] eqn:K;
    trivial.
  exfalso. unfold LAST_UPDATE_RE in K, Q.
  destruct (starts_with LAST_UPDATE (c :: b ++ [])) eqn:S; [| discriminate].
  apply starts_with_elim in S as (t & S). rewrite app_nil_r in S.
  change (c :: b ++ w2 ++ []) with ((c :: b) ++ w2 ++ []) in Q.
  rewrite S, <- app_assoc, starts_with_app in Q. exact Q.
Qed.

Lemma quiet_no_occurrence (s : str) :
  quiet LAST_UPDATE_RE None s [] -> ~ occurs LAST_UPDATE s.
Proof.
  intros Q (a & b & E).
  specialize (Q a "L" (lit "ast Update:" ++ b) E).
  unfold LAST_UPDATE_RE in Q.
  change ("L" :: (lit "ast Update:" ++ b) ++ []) with (LAST_UPDATE ++ b ++ []) in Q.
  rewrite starts_with_app in Q. exact Q.
Qed.

(** X23. The lyrics taken from a song page have no white space at either
    end and never more than two line feeds in a row, that is, at most one
    blank line between two lines. *)
Theorem X23_lyrics_trimmed_without_long_gaps :
  forall raw : str,
    trimmed (lyrics_of_raw raw) /\ runs_below is_nl 3 (lyrics_of_raw raw).
Proof.
  intros raw. unfold lyrics_of_raw. split; [apply strip_trimmed |].
  apply runs_below_strip. apply (rsub_runs_below is_nl 3 [LF; LF]);
    [reflexivity | simpl; lia].
Qed.

(** X24. The words "Last Update:" occur nowhere in the lyrics taken from a
    song page. *)
Theorem X24_lyrics_without_last_update :
  forall raw : str, ~ occurs LAST_UPDATE (lyrics_of_raw raw).
Proof.
  intros raw. unfold lyrics_of_raw.
  apply quiet_no_occurrence, strip_last_update_quiet, nl_sub_last_update_quiet.
  apply last_update_sub_quiet.
Qed.

Lemma starts_with_ci_before_LF (a u rest : str) :
  Forall (fun x => ci_eqb x LF = false) a ->
  starts_with_ci a (u ++ LF :: rest) = starts_with_ci a u.
Proof.
  intros H. revert u. induction H as [|x a Hx _ IH]; intros u; [reflexivity |].
  destruct u as [|y u]; simpl.
  - rewrite Hx. reflexivity.
  - rewrite IH. reflexivity.
Qed.

Lemma first_alt_before_LF (alts : list str) (u rest : str) :
  Forall (Forall (fun x => ci_eqb x LF = false)) alts ->
  first_alt alts (u ++ LF :: rest) = first_alt alts u.
Proof.
  induction 1 as [|a alts Ha _ IH]; [reflexivity |]. simpl.
  rewrite starts_with_ci_before_LF by exact Ha. rewrite IH. reflexivity.
Qed.

Lemma headings_without_LF :
  Forall (Forall (fun x => ci_eqb x LF = false)) HEADINGS.
Proof. repeat constructor. Qed.

(** A heading that starts before a line feed ends before it. *)
Lemma HEADING_RE_before_LF (p : option ascii) (c : ascii) (u rest : str) :
  HEADING_RE p (c :: u ++ LF :: rest) = HEADING_RE p (c :: u).
Proof.
  unfold HEADING_RE. destruct (c =? LF); [| reflexivity].
  rewrite first_alt_before_LF by exact headings_without_LF. reflexivity.
Qed.

Lemma search_from_prefix (pat : pattern) (pre x : str) (pos : nat)
    (prev : option ascii) :
  (forall p c b, pat p (c :: b ++ x) = pat p (c :: b)) ->
  search_from pat pos prev pre = None ->
  search_from pat pos prev (pre ++ x)
  = search_from pat (pos + length pre) (last_or prev pre) x.
Proof.
  intros Hx. revert pos prev; induction pre as [|c pre IH]; intros pos prev H.
  - simpl. rewrite Nat.add_0_r. reflexivity.
  - simpl in H. cbn [app search_from]. rewrite Hx.
    destruct (pat prev (c :: pre)); [discriminate |].
    rewrite IH by exact H. rewrite last_or_cons. simpl length.
    f_equal. lia.
Qed.

Lemma heading_cut (pre rest : str) (n : nat) :
  re_search HEADING_RE pre = None -> HEADING_RE None rest = Some n ->
  re_search HEADING_RE (pre ++ rest) = Some (length pre).
Proof.
  intros Hp Hr. unfold re_search in *.
  assert (E : exists rest', rest = LF :: rest').
  { unfold HEADING_RE in Hr. destruct rest as [|c r]; [discriminate |].
    destruct (Ascii.eqb_spec c LF) as [-> | N]; [| discriminate]. eauto. }
  destruct E as (rest' & ->).
  rewrite search_from_prefix;
    [| intros p c b; apply HEADING_RE_before_LF | exact Hp].
  cbn [search_from]. change (HEADING_RE (last_or None pre) (LF :: rest'))
    with (HEADING_RE None (LF :: rest')).
  rewrite Hr. reflexivity.
Qed.

(** X25. When one of the headings starts right after the text [pre], in
    any letter case, and none starts inside [pre], the lyrics are those of
    [pre] alone: the heading and all that follows it are dropped. *)
Theorem X25_lyrics_end_at_the_first_heading :
  forall (pre rest : str) (n : nat),
    re_search HEADING_RE pre = None ->
    HEADING_RE None rest = Some n ->
    lyrics_of_raw (pre ++ rest) = lyrics_of_raw pre.
Proof.
  intros pre rest n Hp Hr. unfold lyrics_of_raw.
  rewrite (heading_cut pre rest n Hp Hr), Hp.
  rewrite firstn_app, firstn_all, Nat.sub_diag. simpl. rewrite app_nil_r.
  reflexivity.
Qed.

Lemma X25_lyrics_end_at_the_first_heading_witness :
  lyrics_of_raw
    ((lit "Sing to me" ++ [LF] ++ lit "Song of sorrow")
       ++ ([LF] ++ lit "SONG credits" ++ [LF] ++ lit "Music: X"))
  = lyrics_of_raw (lit "Sing to me" ++ [LF] ++ lit "Song of sorrow").
Proof.
  apply (X25_lyrics_end_at_the_first_heading _ _ 13); reflexivity.
Defined.

(* ================================================================== *)
(** ** Further properties: the counters of [summarize] *)

Section Counters.

Context {K : Type} (eqb : K -> K -> bool).
Hypothesis eqb_spec : forall a b, eqb a b = true <-> a = b.

Lemma counter_add_total (key : K) (c : counter K) :
  total (counter_add eqb key c) = S (total c).
Proof.
  unfold total. induction c as [|[k n] c IH]; [reflexivity |]. simpl.
  destruct (eqb k key); simpl; [reflexivity | rewrite IH; lia].
Qed.

Lemma counter_add_keys (key : K) (c : counter K) (x : K) :
  In x (map fst (counter_add eqb key c)) <-> x = key \/ In x (map fst c).
Proof using eqb_spec.
  induction c as [|[k n] c IH]; simpl; [intuition congruence |].
  destruct (eqb k key) eqn:E; simpl.
  - apply eqb_spec in E as ->. intuition congruence.
  - rewrite IH. intuition congruence.
Qed.

Lemma counter_add_counted (key : K) (c : counter K) :
  counted c -> counted (counter_add eqb key c).
Proof using eqb_spec.
  intros [N P]. split.
  - induction c as [|[k n] c IH]; simpl.
    + constructor; [intros [] | constructor].
    + simpl in N. inversion N as [|? ? Hk Hc]; subst. inversion P; subst.
      destruct (eqb k key) eqn:E; simpl; [exact N |].
      constructor; [| auto]. rewrite counter_add_keys.
      intros [-> | Hin]; [| contradiction].
      assert (T : eqb key key = true) by (apply eqb_spec; reflexivity).
      congruence.
  - clear N. induction P as [|[k n] c Hk Pc IH]; simpl.
    + repeat constructor.
    + destruct (eqb k key); constructor; simpl in *; auto.
Qed.

Lemma counted_length (c : counter K) : counted c -> length c <= total c.
Proof.
  intros [_ P]. unfold total. induction P as [|[k n] c Hk _ IH]; simpl in *; lia.
Qed.

End Counters.

Lemma pair_eqb_spec (a b : str * str) : pair_eqb a b = true <-> a = b.
Proof.
  destruct a as [a1 a2], b as [b1 b2]. unfold pair_eqb. simpl.
  rewrite andb_true_iff, !str_eqb_eq. split; [intros [-> ->]; reflexivity |].
  intros E; injection E; auto.
Qed.

Lemma summarize_step_consistent (st st' : counts) (r : row) (n : nat) :
  consistent st n -> summarize_step st r = Some st' -> consistent st' (S n).
Proof.
  intros (C1 & C2 & C3 & T1 & T2 & T3 & L1 & L2 & I) H.
  unfold summarize_step in H.
  destruct (r (lit "saga")) as [saga|]; [| discriminate].
  destruct (r (lit "song")) as [song|]; [| discriminate].
  destruct (r (lit "character")) as [character|]; [| discriminate].
  injection H as <-. unfold consistent. cbn [sagas songs chars chars_len words_len].
  rewrite !counter_add_total, !length_app, T1, T2, T3, L1, L2. simpl.
  repeat split; try lia;
    try (apply counter_add_counted;
         [exact str_eqb_eq || exact pair_eqb_spec | assumption]).
  intros x Hx. apply (counter_add_keys str_eqb str_eqb_eq) in Hx.
  destruct Hx as [-> | Hx].
  - apply (in_map fst _ (saga, song)).
    apply (counter_add_keys pair_eqb pair_eqb_spec). left; reflexivity.
  - apply I in Hx. apply in_map_iff in Hx as (key & <- & Hin).
    apply (in_map fst _ key).
    apply (counter_add_keys pair_eqb pair_eqb_spec). right; exact Hin.
Qed.

Lemma summarize_from_consistent (rows : list row) (st st' : counts) (n : nat) :
  consistent st n -> summarize_from st rows = Some st' ->
  consistent st' (n + length rows).
Proof.
  revert st n; induction rows as [|r rows IH]; intros st n C H; simpl in *.
  - injection H as <-. rewrite Nat.add_0_r. exact C.
  - destruct (summarize_step st r) as [st1|] eqn:E; [| discriminate].
    replace (n + S (length rows)) with (S n + length rows) by lia.
    apply (IH st1); [| exact H].
    exact (summarize_step_consistent st st1 r n C E).
Qed.

(** X26. When the loop of [summarize] ends without [KeyError], the counts
    of every counter add up to the number of rows, there are at most as
    many sagas as songs and at most as many songs or characters as rows, and
    the two lists of lengths have one entry for every row. *)
Theorem X26_counters_of_summarize :
  forall (rows : list row) (st : counts),
    summarize_counts rows = Some st ->
    total (sagas st) = length rows
    /\ total (songs st) = length rows
    /\ total (chars st) = length rows
    /\ length (sagas st) <= length (songs st)
    /\ length (songs st) <= length rows
    /\ length (chars st) <= length rows
    /\ length (chars_len st) = length rows
    /\ length (words_len st) = length rows.
Proof.
  intros rows st H. unfold summarize_counts in H.
  apply (summarize_from_consistent rows _ st 0) in H.
  - destruct H as (C1 & C2 & C3 & T1 & T2 & T3 & L1 & L2 & I). simpl in *.
    repeat split; try assumption.
    + destruct C1 as [N1 _].
      pose proof (NoDup_incl_length N1 I) as L. rewrite !length_map in L. exact L.
    + rewrite <- T2. apply counted_length, C2.
    + rewrite <- T3. apply counted_length, C3.
  - unfold consistent, counted. simpl.
    repeat split; try constructor. intros x [].
Qed.

Lemma X26_counters_of_summarize_witness :
  exists st,
    summarize_counts
      [fun k => if str_eqb k (lit "lines") then Some (lit "la la") else Some (lit "x")]
    = Some st
    /\ total (sagas st) = 1 /\ total (songs st) = 1 /\ total (chars st) = 1
    /\ length (sagas st) <= length (songs st)
    /\ length (songs st) <= 1 /\ length (chars st) <= 1
    /\ length (chars_len st) = 1 /\ length (words_len st) = 1.
Proof.
  eexists. split; [reflexivity |].
  apply (X26_counters_of_summarize
           [fun k => if str_eqb k (lit "lines") then Some (lit "la la")
                     else Some (lit "x")]).
  reflexivity.
Defined.


